(** * The command execution core of [backend/services/engine.ts]

    A shallow embedding of the terminal-command core of the engine
    service: the safety policy ([validateCommand]), the process registry
    ([activeProcesses], [killProcess], [listActiveProcesses]), the
    command runner ([executeTerminalCommand] and its two modes) and the
    directive scanner and dispatcher ([executeTerminalCommands]); of the
    prompt budget ([estimateTokens], [limitMessagesByTokens], the
    message list of [buildPromptWithMemory]), of [retryWithBackoff] and
    of the report of the terminal results that the [generateResponse]
    functions add to the reply; and of the command executor of
    [backend/services/commands.ts] ([execute], [executeBackground],
    [executeInteractive], [killProcess], [listProcesses],
    [executeSequence] and the history).

    Conventions of the embedding.
    - A JavaScript string is a [string] of the standard library, read as
      the UTF-8 bytes of the text.  [toLowerCase], [trim] and the regular
      expression class [\s] of the scanner are modelled on the ASCII
      range; bytes above 127 are left alone and are never white space.
      On text of ASCII characters ([isAscii]) they are those of
      JavaScript, and the statements that need them exact are made for
      such text.  The word count of the token estimate splits at every
      white-space character of ECMAScript.
    - Values that come out of [JSON.parse] are untyped at run time, so the
      fields of a directive are [json] values and an absent field
      ([undefined]) is [None].
    - A function that can throw returns an [outcome]; [try]/[catch] is a
      match on it.
    - The platform (Node.js: [JSON.parse], [path.resolve], the file
      system, [child_process.exec] and [child_process.spawn]) is a record
      of oracles, [Env]; theorems quantify over it.
    - Module state ([activeProcesses], [processCounter]), the child
      objects shared between the registry and timer closures, the pending
      [setTimeout] callbacks and the clock are fields of [World].
    - An [await] on a child is the run of the timers that are due until
      the child calls back ([advance]); what can happen between two turns
      of the engine's code, in any order, is an [Event] of the event loop
      ([step]).
    - The length of a string, where the code reads it, is its number of
      UTF-16 code units, counted on the UTF-8 bytes ([utf16Length]);
      the token estimate is computed on rationals.
    - A function that is retried, and the calls of the executor to the
      platform, are oracles indexed by the number of the call.

    Layout: definitions (strings, regular expressions, JSON, world,
    platform, runner, process management, dispatcher, background mode,
    event loop, vocabulary of the statements, scenarios, prompt budget,
    retry, report, command executor), then properties. *)

From Stdlib Require Import Strings.String Strings.Ascii Lists.List Bool.Bool.
From Stdlib Require Import ZArith.ZArith NArith.NArith Arith.PeanoNat micromega.Lia.
From Stdlib Require Import Numbers.DecimalString Numbers.DecimalN.
From Stdlib Require QArith.QArith QArith.Qround QArith.Qminmax.
Import ListNotations.

Local Open Scope list_scope.
Local Open Scope string_scope.

(* ================================================================== *)
(** ** JavaScript string primitives *)
(* ================================================================== *)

Module JsString.

(** [String.prototype.toLowerCase], on the ASCII range. *)
Definition lowerChar (c : ascii) : ascii :=
  let n := nat_of_ascii c in
  if andb (65 <=? n)%nat (n <=? 90)%nat then ascii_of_nat (n + 32) else c.

Fixpoint toLowerCase (s : string) : string :=
  match s with
  | EmptyString => EmptyString
  | String c s' => String (lowerChar c) (toLowerCase s')
  end.

(** White space of [trim] and of the regular expression class [\s], on
    the ASCII range: TAB, LF, VT, FF, CR and SPACE. *)
Definition isWhitespace (c : ascii) : bool :=
  let n := nat_of_ascii c in
  orb (andb (9 <=? n)%nat (n <=? 13)%nat) (n =? 32)%nat.

Fixpoint trimStart (s : string) : string :=
  match s with
  | EmptyString => EmptyString
  | String c s' => if isWhitespace c then trimStart s' else s
  end.

(** [trimEnd] keeps a character when it is not white space or when
    something is kept after it. *)
Fixpoint trimEnd (s : string) : string :=
  match s with
  | EmptyString => EmptyString
  | String c s' =>
      match trimEnd s' with
      | EmptyString => if isWhitespace c then EmptyString else String c EmptyString
      | r => String c r
      end
  end.

Definition trim (s : string) : string := trimEnd (trimStart s).

(** [s.startsWith(p)]. *)
Fixpoint startsWith (s p : string) {struct p} : bool :=
  match p with
  | EmptyString => true
  | String a p' =>
      match s with
      | EmptyString => false
      | String b s' => if Ascii.eqb a b then startsWith s' p' else false
      end
  end.

(** [s.includes(p)]: [p] occurs at some position of [s]. *)
Fixpoint includes (s p : string) : bool :=
  if startsWith s p then true
  else match s with
       | EmptyString => false
       | String _ s' => includes s' p
       end.

(** [s.split(sep)] for a separator of one character, as both uses in
    the engine are ([' '] and ['\n']).  The result is never empty. *)
Fixpoint split (sep : ascii) (s : string) : list string :=
  match s with
  | EmptyString => [EmptyString]
  | String c s' =>
      if Ascii.eqb c sep then EmptyString :: split sep s'
      else match split sep s' with
           | [] => [String c EmptyString]
           | w :: ws => String c w :: ws
           end
  end.

(** [parts.join(sep)]. *)
Fixpoint join (sep : string) (parts : list string) : string :=
  match parts with
  | [] => EmptyString
  | [w] => w
  | w :: ws => w ++ sep ++ join sep ws
  end.

(** The truthiness of a string: only the empty string is falsy. *)
Definition nonEmpty (s : string) : bool :=
  match s with EmptyString => false | _ => true end.

(** Length in bytes, as a binary number. *)
Fixpoint lengthN (s : string) : N :=
  match s with
  | EmptyString => 0%N
  | String _ s' => N.succ (lengthN s')
  end.

Definition LF : ascii := ascii_of_nat 10.
Definition SPACE : ascii := ascii_of_nat 32.
Definition DQUOTE : ascii := ascii_of_nat 34.

(** A string between double quotes, for JSON text. *)
Definition quoted (s : string) : string :=
  String DQUOTE (s ++ String DQUOTE EmptyString).

(** Decimal rendering of a number in a template literal. *)
Definition N_to_string (n : N) : string := NilEmpty.string_of_uint (N.to_uint n).

Definition Z_to_string (z : Z) : string :=
  match z with
  | Z0 => "0"
  | Zpos p => N_to_string (Npos p)
  | Zneg p => "-" ++ N_to_string (Npos p)
  end.

End JsString.
Import JsString.

(* ================================================================== *)
(** ** Safety policy *)
(* ================================================================== *)

Record Validation := mkValidation { safe : bool; reason : option string }.

Definition DANGEROUS_COMMANDS : list string :=
  [ "rm -rf /"; "mkfs"; "dd if="; "shutdown"; "reboot"; "halt";
    "init 0"; "init 6"; ":(){ :|:& };:"; "chmod -R 777 /"; "chown -R root /" ].

Definition systemCommands : list string :=
  [ "passwd"; "usermod"; "userdel"; "groupmod" ].

(** The first deny-list entry whose lower-cased form occurs in
    [lowerCommand]: the [for ... of] loop with its early [return]. *)
Fixpoint firstDangerous (lowerCommand : string) (l : list string) : option string :=
  match l with
  | [] => None
  | dangerous :: rest =>
      if includes lowerCommand (toLowerCase dangerous) then Some dangerous
      else firstDangerous lowerCommand rest
  end.

Definition validateCommand (command : string) : Validation :=
  let lowerCommand := trim (toLowerCase command) in
  match firstDangerous lowerCommand DANGEROUS_COMMANDS with
  | Some dangerous =>
      mkValidation false (Some ("Dangerous command detected: " ++ dangerous))
  | None =>
      if orb (includes lowerCommand "sudo su") (includes lowerCommand "su -")
      then mkValidation false (Some "Privilege escalation not allowed")
      else if existsb (fun cmd => startsWith lowerCommand cmd) systemCommands
      then mkValidation false
             (Some "System modification commands require explicit permission")
      else mkValidation true None
  end.

(* ================================================================== *)
(** ** Regular expressions with JavaScript's backtracking order *)
(* ================================================================== *)

Module Regex.

(** The two character classes the engine's patterns use. *)
Inductive cls :=
  | ClsSpace   (* \s *)
  | ClsAny.    (* [\s\S] *)

Definition inCls (k : cls) (c : ascii) : bool :=
  match k with
  | ClsSpace => isWhitespace c
  | ClsAny => true
  end.

Inductive regex :=
  | Lit (s : string)          (* a literal run of characters *)
  | Alt (r1 r2 : regex)       (* r1|r2, r1 tried first *)
  | Seq (r1 r2 : regex)
  | Star (k : cls)            (* k*  : longest first *)
  | StarLazy (k : cls)        (* k*? : shortest first *)
  | Group (r : regex).        (* ( r ) : capturing *)

(** What is left of [s] after the literal [p], if [s] starts with it. *)
Fixpoint afterLit (p s : string) {struct p} : option string :=
  match p with
  | EmptyString => Some s
  | String a p' =>
      match s with
      | EmptyString => None
      | String b s' => if Ascii.eqb a b then afterLit p' s' else None
      end
  end.

(** The part of [s] in front of its suffix [rest]. *)
Fixpoint firstChars (n : nat) (s : string) : string :=
  match n, s with
  | S n', String c s' => String c (firstChars n' s')
  | _, _ => EmptyString
  end.

Definition consumed (s rest : string) : string :=
  firstChars (String.length s - String.length rest) s.

(** Backtracking matcher in continuation-passing style: [k] receives
    the rest of the input and the captures closed so far, and answers
    [None] to ask for the next alternative. *)
Fixpoint run {A : Type} (r : regex) (s : string) (caps : list string)
    (k : string -> list string -> option A) {struct r} : option A :=
  match r with
  | Lit p =>
      match afterLit p s with
      | Some rest => k rest caps
      | None => None
      end
  | Alt r1 r2 =>
      match run r1 s caps k with
      | Some a => Some a
      | None => run r2 s caps k
      end
  | Seq r1 r2 => run r1 s caps (fun s' caps' => run r2 s' caps' k)
  | Star c =>
      (fix greedy (t : string) : option A :=
         match t with
         | String a t' =>
             if inCls c a
             then match greedy t' with
                  | Some x => Some x
                  | None => k t caps
                  end
             else k t caps
         | EmptyString => k t caps
         end) s
  | StarLazy c =>
      (fix lazy (t : string) : option A :=
         match k t caps with
         | Some x => Some x
         | None =>
             match t with
             | String a t' => if inCls c a then lazy t' else None
             | EmptyString => None
             end
         end) s
  | Group r1 =>
      run r1 s caps (fun s' caps' => k s' (caps' ++ [consumed s s'])%list)
  end.

(** One attempt at the start of [s]: the captures and the rest. *)
Definition matchAt (r : regex) (s : string) : option (list string * string) :=
  run r s [] (fun rest caps => Some (caps, rest)).

(** A match as [RegExp.prototype.exec] reports it: [index], the length
    of [match[0]] and [match[1]]. *)
Record Match := mkMatch { index : nat; extent : nat; group1 : string }.

(** The loop [while ((match = re.exec(text)) !== null)] of a global
    regular expression: the leftmost match at or after [lastIndex], then
    again from the end of that match.  [skip] is the distance from the
    current position to [lastIndex].  (Both patterns of the engine
    consume at least their opening fence, so a match is never empty.) *)
Fixpoint scan (r : regex) (s : string) (pos skip : nat) : list Match :=
  match s with
  | EmptyString => []
  | String _ s' =>
      match skip with
      | S skip' => scan r s' (S pos) skip'
      | O =>
          match matchAt r s with
          | Some (caps, rest) =>
              let n := String.length s - String.length rest in
              mkMatch pos n (nth 0 caps EmptyString) :: scan r s' (S pos) (n - 1)
          | None => scan r s' (S pos) 0
          end
      end
  end.

Definition execAll (r : regex) (text : string) : list Match := scan r text 0 0.

End Regex.
Import Regex.

Definition FENCE : string := "```".

Definition fenceTag : regex :=
  Alt (Lit "terminal") (Alt (Lit "bash") (Alt (Lit "shell") (Lit "cmd"))).

(** [/```(?:terminal|bash|shell|cmd)\s*({[\s\S]*?})\s*```/g] *)
Definition terminalCommandRegex : regex :=
  Seq (Lit FENCE) (Seq fenceTag (Seq (Star ClsSpace)
    (Seq (Group (Seq (Lit "{") (Seq (StarLazy ClsAny) (Lit "}"))))
    (Seq (Star ClsSpace) (Lit FENCE))))).

(** [/```(?:terminal|bash|shell|cmd)\s*\n([\s\S]*?)\n```/g] *)
Definition simpleTerminalRegex : regex :=
  Seq (Lit FENCE) (Seq fenceTag (Seq (Star ClsSpace)
    (Seq (Lit (String LF EmptyString))
    (Seq (Group (StarLazy ClsAny))
         (Lit (String LF FENCE)))))).

(* ================================================================== *)
(** ** Run-time values: JSON documents and exceptions *)
(* ================================================================== *)

(** A value produced by [JSON.parse].  Numbers are integers; a fraction
    or an exponent in a number is outside the model. *)
#[warnings="-register-all"]
Inductive json :=
  | JNull
  | JBool (b : bool)
  | JNum (z : Z)
  | JStr (s : string)
  | JArr (items : list json)
  | JObj (fields : list (string * json)).

(** A thrown [Error], with its [message]. *)
Record exn := Exn { message : string }.

Inductive outcome (A : Type) :=
  | Ok (a : A)
  | Throw (e : exn).
Arguments Ok {A} a.
Arguments Throw {A} e.

Module Js.

(** Own property [key] of an object literal; a later occurrence of a key
    overrides an earlier one, as in [JSON.parse] and in object spread. *)
Fixpoint getField (key : string) (fields : list (string * json)) : option json :=
  match fields with
  | [] => None
  | (k, v) :: rest =>
      match getField key rest with
      | Some v' => Some v'
      | None => if String.eqb k key then Some v else None
      end
  end.

(** ToBoolean; [None] is [undefined]. *)
Definition truthy (v : option json) : bool :=
  match v with
  | None => false
  | Some JNull => false
  | Some (JBool b) => b
  | Some (JNum z) => negb (Z.eqb z 0)
  | Some (JStr s) => nonEmpty s
  | Some (JArr _) => true
  | Some (JObj _) => true
  end.

(** ToString of a template literal [`${v}`]. *)
Fixpoint toString (v : json) : string :=
  match v with
  | JNull => "null"
  | JBool true => "true"
  | JBool false => "false"
  | JNum z => Z_to_string z
  | JStr s => s
  | JArr items =>
      join "," (map (fun x => match x with JNull => EmptyString | _ => toString x end) items)
  | JObj _ => "[object Object]"
  end.

Definition toStringOpt (v : option json) : string :=
  match v with
  | None => "undefined"
  | Some x => toString x
  end.

(** The value of [v] when [!v] is false. *)
Definition whenTruthy (v : option json) : option json :=
  if truthy v then v else None.

(** [a || b]. *)
Definition orElse (a : option json) (b : json) : json :=
  if truthy a then match a with Some x => x | None => b end else b.

(** A destructuring default [{ x = d } = options]: only [undefined] is
    replaced. *)
Definition withDefault (a : option json) (d : json) : json :=
  match a with
  | Some x => x
  | None => d
  end.

End Js.

(** [JSON.parse] on the fragment of JSON whose numbers are integer
    literals and whose strings use no [\u] escape.  It is the parser the
    concrete scenarios run; the theorems hold for any parser. *)
Module MiniJson.

Fixpoint skipWs (s : string) : string :=
  match s with
  | String c s' =>
      let n := nat_of_ascii c in
      if orb (orb (n =? 32)%nat (n =? 9)%nat) (orb (n =? 10)%nat (n =? 13)%nat)
      then skipWs s' else s
  | EmptyString => s
  end.

Definition isDigit (c : ascii) : bool :=
  let n := nat_of_ascii c in andb (48 <=? n)%nat (n <=? 57)%nat.

(** The characters of a string literal after its opening quote. *)
Fixpoint stringBody (s : string) : option (string * string) :=
  match s with
  | EmptyString => None
  | String c s' =>
      let n := nat_of_ascii c in
      if (n =? 34)%nat then Some (EmptyString, s')
      else if (n <? 32)%nat then None
      else if (n =? 92)%nat then
        match s' with
        | String e s'' =>
            let m := nat_of_ascii e in
            let unescaped :=
              if (m =? 34)%nat then Some e
              else if (m =? 92)%nat then Some e
              else if (m =? 47)%nat then Some e
              else if (m =? 110)%nat then Some (ascii_of_nat 10)
              else if (m =? 116)%nat then Some (ascii_of_nat 9)
              else if (m =? 114)%nat then Some (ascii_of_nat 13)
              else if (m =? 98)%nat then Some (ascii_of_nat 8)
              else if (m =? 102)%nat then Some (ascii_of_nat 12)
              else None in
            match unescaped, stringBody s'' with
            | Some u, Some (body, rest) => Some (String u body, rest)
            | _, _ => None
            end
        | EmptyString => None
        end
      else match stringBody s' with
           | Some (body, rest) => Some (String c body, rest)
           | None => None
           end
  end.

Fixpoint digits (s : string) (acc : N) : N * string :=
  match s with
  | String c s' =>
      if isDigit c
      then digits s' (10 * acc + N.of_nat (nat_of_ascii c - 48))%N
      else (acc, s)
  | EmptyString => (acc, s)
  end.

(** An integer literal (an optional minus sign, then 0 or a run of digits
    without a leading 0), not followed by a fraction or an exponent. *)
Definition number (s : string) : option (Z * string) :=
  let (neg, s1) :=
    match s with
    | String "-" t => (true, t)
    | _ => (false, s)
    end in
  match s1 with
  | String c t =>
      if isDigit c then
        let (n, rest) := if Ascii.eqb c "0" then (0%N, t) else digits s1 0 in
        match rest with
        | String d _ =>
            if orb (isDigit d) (orb (Ascii.eqb d ".") (orb (Ascii.eqb d "e") (Ascii.eqb d "E")))
            then None
            else Some (if neg then Z.opp (Z.of_N n) else Z.of_N n, rest)
        | EmptyString => Some (if neg then Z.opp (Z.of_N n) else Z.of_N n, rest)
        end
      else None
  | EmptyString => None
  end.

Fixpoint value (fuel : nat) (s : string) : option (json * string) :=
  match fuel with
  | O => None
  | S fuel' =>
      let elements :=
        fix elements (n : nat) (t : string) : option (list json * string) :=
          match n with
          | O => None
          | S n' =>
              match value fuel' (skipWs t) with
              | Some (v, rest) =>
                  match skipWs rest with
                  | String "," rest' =>
                      match elements n' rest' with
                      | Some (vs, r) => Some (v :: vs, r)
                      | None => None
                      end
                  | String "]" rest' => Some ([v], rest')
                  | _ => None
                  end
              | None => None
              end
          end in
      let members :=
        fix members (n : nat) (t : string) : option (list (string * json) * string) :=
          match n with
          | O => None
          | S n' =>
              match skipWs t with
              | String q t1 =>
                  if Ascii.eqb q DQUOTE then
                    match stringBody t1 with
                    | Some (key, t2) =>
                        match skipWs t2 with
                        | String ":" t3 =>
                            match value fuel' (skipWs t3) with
                            | Some (v, rest) =>
                                match skipWs rest with
                                | String "," rest' =>
                                    match members n' rest' with
                                    | Some (kvs, r) => Some ((key, v) :: kvs, r)
                                    | None => None
                                    end
                                | String "}" rest' => Some ([(key, v)], rest')
                                | _ => None
                                end
                            | None => None
                            end
                        | _ => None
                        end
                    | None => None
                    end
                  else None
              | EmptyString => None
              end
          end in
      match s with
      | String "{" t =>
          match skipWs t with
          | String "}" rest => Some (JObj [], rest)
          | _ =>
              match members (String.length s) t with
              | Some (kvs, rest) => Some (JObj kvs, rest)
              | None => None
              end
          end
      | String "[" t =>
          match skipWs t with
          | String "]" rest => Some (JArr [], rest)
          | _ =>
              match elements (String.length s) t with
              | Some (vs, rest) => Some (JArr vs, rest)
              | None => None
              end
          end
      | String c t =>
          if Ascii.eqb c DQUOTE then
            match stringBody t with
            | Some (str, rest) => Some (JStr str, rest)
            | None => None
            end
          else
            match afterLit "true" s, afterLit "false" s, afterLit "null" s with
            | Some rest, _, _ => Some (JBool true, rest)
            | _, Some rest, _ => Some (JBool false, rest)
            | _, _, Some rest => Some (JNull, rest)
            | _, _, _ =>
                match number s with
                | Some (z, rest) => Some (JNum z, rest)
                | None => None
                end
            end
      | EmptyString => None
      end
  end.

Definition parse (text : string) : outcome json :=
  match value (S (String.length text)) (skipWs text) with
  | Some (v, rest) =>
      match skipWs rest with
      | EmptyString => Ok v
      | _ => Throw (Exn "Unexpected non-whitespace character after JSON")
      end
  | None => Throw (Exn "Unexpected token in JSON")
  end.

End MiniJson.

(* ================================================================== *)
(** ** The world: module state, child objects, timers *)
(* ================================================================== *)

Inductive Signal := SIGTERM | SIGKILL.

(** A [ChildProcess] object.  [running] is the state of the operating
    system process behind it and [received] the signals delivered to
    it, oldest first. *)
Record ChildProcess := mkChild {
  pid : option N;
  killed : bool;
  running : bool;
  received : list Signal
}.

(** The closures handed to [setTimeout]; each holds the [processId] and
    the child object of the call that created it. *)
Inductive Callback :=
  | OnTimeout (processId : string) (child : N)
  | OnGrace (processId : string) (child : N).

(** A call of the child-process API.  [exec] runs its command line in a
    shell; [spawn] is called without the [shell] option and starts
    [file] itself with [args] as its argument vector. *)
Inductive Launch :=
  | ViaExec (command cwd : string) (timeout : json) (maxBuffer : N) (env : json)
  | ViaSpawn (file : string) (args : list string) (cwd : string) (env : json).

(** - [activeProcesses] is the [Map<string, ChildProcess>]: keys in
      insertion order, values are references into [children];
    - [children] is the heap of child objects; the object created by the
      [n]-th call of [executeTerminalCommand] has reference [n];
    - [timers] are the pending [setTimeout] callbacks with the time they
      are due; [clock] is [Date.now()];
    - [launched] logs the calls of [exec] and [spawn] that started a
      child. *)
Record World := mkWorld {
  activeProcesses : list (string * N);
  processCounter : N;
  children : list (N * ChildProcess);
  timers : list (N * Callback);
  clock : N;
  launched : list Launch
}.

Definition emptyWorld : World := mkWorld [] 0 [] [] 0 [].

Module Registry.

Fixpoint get (key : string) (m : list (string * N)) : option N :=
  match m with
  | [] => None
  | (k, v) :: rest => if String.eqb k key then Some v else get key rest
  end.

Definition has (key : string) (m : list (string * N)) : bool :=
  match get key m with Some _ => true | None => false end.

(** [Map.prototype.set]: an existing key keeps its place. *)
Fixpoint set (key : string) (v : N) (m : list (string * N)) : list (string * N) :=
  match m with
  | [] => [(key, v)]
  | (k, v') :: rest =>
      if String.eqb k key then (k, v) :: rest else (k, v') :: set key v rest
  end.

Fixpoint delete (key : string) (m : list (string * N)) : list (string * N) :=
  match m with
  | [] => []
  | (k, v) :: rest =>
      if String.eqb k key then delete key rest else (k, v) :: delete key rest
  end.

End Registry.

Definition withRegistry (m : list (string * N)) (w : World) : World :=
  mkWorld m (processCounter w) (children w) (timers w) (clock w) (launched w).

Definition withCounter (n : N) (w : World) : World :=
  mkWorld (activeProcesses w) n (children w) (timers w) (clock w) (launched w).

Definition withChildren (cs : list (N * ChildProcess)) (w : World) : World :=
  mkWorld (activeProcesses w) (processCounter w) cs (timers w) (clock w) (launched w).

Definition withTimers (ts : list (N * Callback)) (w : World) : World :=
  mkWorld (activeProcesses w) (processCounter w) (children w) ts (clock w) (launched w).

Definition withClock (t : N) (w : World) : World :=
  mkWorld (activeProcesses w) (processCounter w) (children w) (timers w) t (launched w).

Definition withLaunched (l : list Launch) (w : World) : World :=
  mkWorld (activeProcesses w) (processCounter w) (children w) (timers w) (clock w) l.

Definition hasProcess (processId : string) (w : World) : bool :=
  Registry.has processId (activeProcesses w).

Definition setProcess (processId : string) (h : N) (w : World) : World :=
  withRegistry (Registry.set processId h (activeProcesses w)) w.

Definition deleteProcess (processId : string) (w : World) : World :=
  withRegistry (Registry.delete processId (activeProcesses w)) w.

Fixpoint lookupChild (h : N) (cs : list (N * ChildProcess)) : option ChildProcess :=
  match cs with
  | [] => None
  | (h', c) :: rest => if N.eqb h' h then Some c else lookupChild h rest
  end.

Fixpoint updateChild (h : N) (c : ChildProcess) (cs : list (N * ChildProcess))
  : list (N * ChildProcess) :=
  match cs with
  | [] => []
  | (h', c') :: rest =>
      if N.eqb h' h then (h', c) :: rest else (h', c') :: updateChild h c rest
  end.

Definition childAt (h : N) (w : World) : option ChildProcess :=
  lookupChild h (children w).

(** Whether the process behind child [h] is alive. *)
Definition isRunning (h : N) (w : World) : bool :=
  match childAt h w with
  | Some c => running c
  | None => false
  end.

Definition signalsOf (h : N) (w : World) : list Signal :=
  match childAt h w with
  | Some c => received c
  | None => []
  end.

(** A fresh child object for call [h]; the process runs when it has a
    [pid]. *)
Definition newChild (h : N) (p : option N) (w : World) : World :=
  withChildren
    ((h, mkChild p false (match p with Some _ => true | None => false end) [])
       :: children w) w.

(** The process behind [h] has ended and its streams are closed. *)
Definition childClosed (h : N) (w : World) : World :=
  match childAt h w with
  | Some c =>
      withChildren (updateChild h (mkChild (pid c) (killed c) false (received c))
                      (children w)) w
  | None => w
  end.

(** [setTimeout(cb, delay)]. *)
Definition setTimeout (cb : Callback) (delay : N) (w : World) : World :=
  withTimers (timers w ++ [((clock w + delay)%N, cb)])%list w.

(* ================================================================== *)
(** ** The platform *)
(* ================================================================== *)

(** The [error] argument of the callback of [exec]: its [code] (absent,
    [null], a number or a string) and its [message]. *)
Record ExecError := mkExecError { code : option json; errorMessage : string }.

(** What a call of [exec] does: it throws, or it starts a child and,
    [elapsed] milliseconds later, calls back with [(error, stdout,
    stderr)]. *)
Inductive ExecOutcome :=
  | ExecThrows (e : exn)
  | ExecRuns (p : option N) (elapsed : N)
             (error : option ExecError) (out err : string).

Inductive StreamEvent :=
  | StdoutData (chunk : string)
  | StderrData (chunk : string).

(** The first of the ['close'] and ['error'] events of a spawned
    child. *)
Inductive SpawnEnd :=
  | Closed (exit : option Z)
  | Errored (e : exn).

(** What a call of [spawn] does: it throws, or it starts a child whose
    streams deliver [events] and which ends, [elapsed] milliseconds
    later, with [final]. *)
Inductive SpawnOutcome :=
  | SpawnThrows (e : exn)
  | SpawnRuns (p : option N) (elapsed : N)
              (events : list StreamEvent) (final : SpawnEnd).

(** The oracles.  [N] arguments are the number of the calling
    [executeTerminalCommand], so that two calls may differ.
    - [pathResolve]: [path.resolve] on a string;
    - [ensureDir dir n]: [existsSync(dir)] and, when that is false,
      [fs.mkdir(dir, { recursive: true })]; [Some e] when it rejects;
    - [killError h sig]: [Some e] when [child.kill(sig)] throws;
    - [toNumber]: ToNumber on a value that is not a number, for the
      delay of [setTimeout]. *)
Record Env := mkEnv {
  JSON_parse : string -> outcome json;
  TERMINAL_BASE_DIR : string;
  pathResolve : string -> string;
  ensureDir : string -> N -> option exn;
  exec : Launch -> N -> ExecOutcome;
  spawn : Launch -> N -> SpawnOutcome;
  killError : N -> Signal -> option exn;
  toNumber : json -> Z
}.

Definition MAX_COMMAND_TIMEOUT : Z := 30000.
Definition MAX_OUTPUT_SIZE : N := 1024 * 1024.
Definition GRACE_MS : N := 5000.

(** The delay [setTimeout] uses for [timeout]: out of the range
    [1 .. 2^31 - 1] it is 1. *)
Definition timerDelay (env : Env) (timeout : json) : N :=
  let z := match timeout with JNum z => z | v => toNumber env v end in
  if andb (1 <=? z)%Z (z <=? 2147483647)%Z then Z.to_N z else 1%N.

(** [child.kill(sig)]: the signal reaches a live process and sets
    [child.killed]; SIGKILL ends the process, SIGTERM leaves it to the
    process to end. *)
Definition childKill (env : Env) (h : N) (sig : Signal) (w : World)
  : World * outcome bool :=
  match killError env h sig with
  | Some e => (w, Throw e)
  | None =>
      match childAt h w with
      | Some c =>
          if running c
          then (withChildren
                  (updateChild h
                     (mkChild (pid c) true
                        (match sig with SIGKILL => false | SIGTERM => true end)
                        (received c ++ [sig])%list)
                     (children w)) w,
                Ok true)
          else (w, Ok false)
      | None => (w, Ok false)
      end
  end.

(** The body of a timer closure.
    - [OnTimeout]: [if (activeProcesses.has(processId)) {
        childProcess.kill('SIGTERM'); setTimeout(<OnGrace>, 5000) }];
    - [OnGrace]: [if (activeProcesses.has(processId))
        childProcess.kill('SIGKILL')]. *)
Definition runCallback (env : Env) (cb : Callback) (w : World) : World :=
  match cb with
  | OnTimeout processId h =>
      if hasProcess processId w then
        match childKill env h SIGTERM w with
        | (w1, Ok _) => setTimeout (OnGrace processId h) GRACE_MS w1
        | (w1, Throw _) => w1
        end
      else w
  | OnGrace processId h =>
      if hasProcess processId w then fst (childKill env h SIGKILL w) else w
  end.

(** The pending timer that is due first (the older one on a tie), and
    the others. *)
Fixpoint popEarliest (ts : list (N * Callback))
  : option ((N * Callback) * list (N * Callback)) :=
  match ts with
  | [] => None
  | t :: rest =>
      match popEarliest rest with
      | None => Some (t, [])
      | Some (t', rest') =>
          if (fst t <=? fst t')%N then Some (t, rest) else Some (t', t :: rest')
      end
  end.

(** The event loop while the dispatcher awaits a child: the timers due
    up to [target] run in order, each at its due time.  A timer that
    runs schedules at most one timer, which schedules none, so twice
    the number of pending timers bounds the rounds. *)
Fixpoint advanceRounds (rounds : nat) (env : Env) (target : N) (w : World) : World :=
  match rounds with
  | O => withClock (N.max (clock w) target) w
  | S rounds' =>
      match popEarliest (timers w) with
      | Some ((due, cb), rest) =>
          if (due <=? target)%N
          then advanceRounds rounds' env target
                 (runCallback env cb
                    (withClock (N.max (clock w) due) (withTimers rest w)))
          else withClock (N.max (clock w) target) w
      | None => withClock (N.max (clock w) target) w
      end
  end.

Definition advance (env : Env) (target : N) (w : World) : World :=
  advanceRounds (2 * List.length (timers w)) env target w.

(* ================================================================== *)
(** ** Command runner *)
(* ================================================================== *)

Record TerminalResult := mkResult {
  success : bool;
  stdout : string;
  stderr : string;
  exitCode : json;
  executionTime : N;
  processId : option string;
  workingDir : json
}.

(** [path.resolve] throws on a value that is not a string; the [catch]
    replaces the error.  (The warning for a path outside the home and
    temporary directories is only logged.) *)
Definition validateWorkingDir (env : Env) (dir : json) : outcome string :=
  match dir with
  | JStr s => Ok (pathResolve env s)
  | v => Throw (Exn ("Invalid working directory: " ++ Js.toString v))
  end.

(** The callback given to [exec]. *)
Definition execCallback (procId dir : string) (startTime : N)
    (error : option ExecError) (out err : string) (w : World)
  : World * TerminalResult :=
  let w1 := deleteProcess procId w in
  (w1,
   mkResult
     (match error with
      | None => true
      | Some e => match code e with Some (JNum 0) => true | _ => false end
      end)
     out
     (if nonEmpty err then err
      else match error with Some e => errorMessage e | None => EmptyString end)
     (match error with
      | Some e => Js.orElse (code e) (JNum (-1))
      | None => JNum 0
      end)
     (clock w1 - startTime)
     (Some procId)
     (JStr dir)).

(** The synchronous part of both modes once the child exists: the child
    object, [activeProcesses.set(processId, childProcess)] and the
    timeout timer. *)
Definition trackChild (env : Env) (procId : string) (h : N) (p : option N)
    (timeout : json) (request : Launch) (w : World) : World :=
  let w1 := withLaunched (launched w ++ [request])%list (newChild h p w) in
  let w2 := setProcess procId h w1 in
  setTimeout (OnTimeout procId h) (timerDelay env timeout) w2.

(** Execute mode.  [exec] is handed the timeout as well and sends
    SIGTERM by itself when it elapses; what the child does with it shows
    in the answer of the oracle. *)
Definition executeNonInteractiveCommand (env : Env) (command dir procId : string)
    (timeout envVars : json) (w : World) : World * outcome TerminalResult :=
  let startTime := clock w in
  let h := processCounter w in
  let request := ViaExec command dir timeout MAX_OUTPUT_SIZE envVars in
  match exec env request h with
  | ExecThrows e => (w, Throw e)
  | ExecRuns p elapsed error out err =>
      let w1 := trackChild env procId h p timeout request w in
      let w2 := childClosed h (advance env (clock w1 + elapsed) w1) in
      let (w3, r) := execCallback procId dir startTime error out err w2 in
      (w3, Ok r)
  end.

Fixpoint stdoutOf (events : list StreamEvent) : string :=
  match events with
  | [] => EmptyString
  | StdoutData chunk :: rest => chunk ++ stdoutOf rest
  | StderrData _ :: rest => stdoutOf rest
  end.

Fixpoint stderrOf (events : list StreamEvent) : string :=
  match events with
  | [] => EmptyString
  | StderrData chunk :: rest => chunk ++ stderrOf rest
  | StdoutData _ :: rest => stderrOf rest
  end.

(** The ['close'] and ['error'] listeners. *)
Definition spawnFinished (procId dir : string) (startTime : N)
    (out err : string) (final : SpawnEnd) (w : World) : World * TerminalResult :=
  let w1 := deleteProcess procId w in
  match final with
  | Closed exit =>
      (w1,
       mkResult
         (match exit with Some 0%Z => true | _ => false end)
         out err
         (match exit with Some z => JNum z | None => JNull end)
         (clock w1 - startTime) (Some procId) (JStr dir))
  | Errored e =>
      (w1,
       mkResult false out (message e) (JNum (-1))
         (clock w1 - startTime) (Some procId) (JStr dir))
  end.

Definition executeInteractiveCommand (env : Env) (command dir procId : string)
    (timeout envVars : json) (w : World) : World * outcome TerminalResult :=
  let startTime := clock w in
  let h := processCounter w in
  let args := split SPACE command in
  let cmd := hd EmptyString args in
  let request := ViaSpawn cmd (tl args) dir envVars in
  match spawn env request h with
  | SpawnThrows e => (w, Throw e)
  | SpawnRuns p elapsed events final =>
      let w1 := trackChild env procId h p timeout request w in
      let w2 := advance env (clock w1 + elapsed) w1 in
      let w3 := match final with Closed _ => childClosed h w2 | Errored _ => w2 end in
      let (w4, r) :=
        spawnFinished procId dir startTime (stdoutOf events) (stderrOf events) final w3 in
      (w4, Ok r)
  end.

Definition procName (n : N) : string := "proc_" ++ N_to_string n.
Arguments procName : simpl never.

(** [executeTerminalCommand(command, options)]; [options] are the own
    properties of the options object.  A [command] that is not a string
    has no [toLowerCase], so [validateCommand] throws a TypeError. *)
Definition executeTerminalCommand (env : Env) (command : json)
    (options : list (string * json)) (w0 : World) : World * outcome TerminalResult :=
  let startTime := clock w0 in
  let w := withCounter (processCounter w0 + 1) w0 in
  let procId := procName (processCounter w) in
  let dir := Js.withDefault (Js.getField "workingDir" options)
                            (JStr (TERMINAL_BASE_DIR env)) in
  let timeout := Js.withDefault (Js.getField "timeout" options)
                                (JNum MAX_COMMAND_TIMEOUT) in
  let envVars := Js.withDefault (Js.getField "env" options) (JObj []) in
  let interactive := Js.withDefault (Js.getField "interactive" options)
                                    (JBool false) in
  match command with
  | JStr commandText =>
      let validation := validateCommand commandText in
      if negb (safe validation) then
        (w, Ok (mkResult false EmptyString
                  (match reason validation with
                   | Some r => if nonEmpty r then r else "Command not allowed"
                   | None => "Command not allowed"
                   end)
                  (JNum (-1)) (clock w - startTime) (Some procId) dir))
      else
        match validateWorkingDir env dir with
        | Throw e => (w, Throw e)
        | Ok validatedWorkingDir =>
            let caught (w' : World) (e : exn) :=
              (w', Ok (mkResult false EmptyString (message e) (JNum (-1))
                         (clock w' - startTime) (Some procId)
                         (JStr validatedWorkingDir))) in
            match ensureDir env validatedWorkingDir (processCounter w) with
            | Some e => caught w e
            | None =>
                match
                  (if Js.truthy (Some interactive)
                   then executeInteractiveCommand env commandText
                          validatedWorkingDir procId timeout envVars w
                   else executeNonInteractiveCommand env commandText
                          validatedWorkingDir procId timeout envVars w)
                with
                | (w', Ok r) => (w', Ok r)
                | (w', Throw e) => caught w' e
                end
            end
        end
  | _ => (w, Throw (Exn "command.toLowerCase is not a function"))
  end.

(* ================================================================== *)
(** ** Process management *)
(* ================================================================== *)

Definition bytes (l : list nat) : string :=
  fold_right (fun n s => String (ascii_of_nat n) s) EmptyString l.

(** The glyphs of the messages, as their UTF-8 bytes. *)
Definition CROSS_MARK : string := bytes [226; 157; 140].
Definition CHECK_MARK : string := bytes [226; 156; 133].
Definition CLIPBOARD : string := bytes [240; 159; 147; 139].
Definition ARROWS : string := bytes [240; 159; 148; 132].

Definition killProcess (env : Env) (procId : json) (w : World) : World * string :=
  match procId with
  | JStr id =>
      match Registry.get id (activeProcesses w) with
      | None =>
          (w, CROSS_MARK ++ " Process " ++ id ++ " not found or already terminated")
      | Some h =>
          match childKill env h SIGTERM w with
          | (w1, Throw e) =>
              (w1, CROSS_MARK ++ " Failed to kill process " ++ id ++ ": " ++ message e)
          | (w1, Ok _) =>
              let w2 := setTimeout (OnGrace id h) GRACE_MS w1 in
              let w3 := deleteProcess id w2 in
              (w3, CHECK_MARK ++ " Process " ++ id ++ " terminated")
          end
      end
  | v =>
      (w, CROSS_MARK ++ " Process " ++ Js.toString v
            ++ " not found or already terminated")
  end.

(** One line of the listing.  (An entry of the registry always refers
    to a child object; the last case is there for totality.) *)
Definition processLine (w : World) (entry : string * N) : string :=
  let (id, h) := entry in
  ARROWS ++ " " ++ id ++ ": PID "
    ++ match childAt h w with
       | Some c =>
           match pid c with
           | Some p => N_to_string p
           | None => "undefined"
           end
           ++ " (" ++ (if killed c then "killed" else "running") ++ ")"
       | None => "undefined (running)"
       end.

Definition listActiveProcesses (w : World) : string :=
  match activeProcesses w with
  | [] => CLIPBOARD ++ " No active processes"
  | entries =>
      CLIPBOARD ++ " Active Processes:" ++ String LF EmptyString
        ++ join (String LF EmptyString) (map (processLine w) entries)
  end.

(* ================================================================== *)
(** ** Directive scanner and dispatcher *)
(* ================================================================== *)

(** The result pushed for an invalid directive. *)
Definition invalidResult (env : Env) (msg : string) : TerminalResult :=
  mkResult false EmptyString msg (JNum (-1)) 0 None (JStr (TERMINAL_BASE_DIR env)).

(** The result pushed by the [catch] of the loop over structured
    blocks. *)
Definition caughtResult (env : Env) (e : exn) : TerminalResult :=
  invalidResult env ("Terminal command error: " ++ message e).

(** [command.operation] and the like on the value [JSON.parse]
    returned: a property of [null] cannot be read. *)
Definition property (key : string) (command : json) : outcome (option json) :=
  match command with
  | JObj fields => Ok (Js.getField key fields)
  | JNull => Throw (Exn ("Cannot read properties of null (reading '" ++ key ++ "')"))
  | _ => Ok None
  end.

Definition fieldsOf (command : json) : list (string * json) :=
  match command with
  | JObj fields => fields
  | _ => []
  end.

(** The [switch] on [command.operation.toLowerCase()], for a truthy
    [operation]. *)
Definition dispatchOperation (env : Env) (operation : json) (command : json)
    (w : World) : World * outcome TerminalResult :=
  match operation with
  | JStr name =>
      let fields := fieldsOf command in
      let op := toLowerCase name in
      if String.eqb op "execute" then
        match Js.whenTruthy (Js.getField "command" fields) with
        | Some c => executeTerminalCommand env c fields w
        | None => (w, Ok (invalidResult env "Execute operation requires command"))
        end
      else if String.eqb op "interactive" then
        match Js.whenTruthy (Js.getField "command" fields) with
        | Some c =>
            executeTerminalCommand env c
              (fields ++ [("interactive", JBool true)])%list w
        | None => (w, Ok (invalidResult env "Interactive operation requires command"))
        end
      else if String.eqb op "kill" then
        match Js.whenTruthy (Js.getField "processId" fields) with
        | Some p =>
            let (w1, killResult) := killProcess env p w in
            let failed := includes killResult CROSS_MARK in
            (w1, Ok (mkResult (negb failed) killResult EmptyString
                       (if failed then JNum (-1) else JNum 0) 0 None
                       (JStr (TERMINAL_BASE_DIR env))))
        | None => (w, Ok (invalidResult env "Kill operation requires processId"))
        end
      else if String.eqb op "list_processes" then
        (w, Ok (mkResult true (listActiveProcesses w) EmptyString (JNum 0) 0 None
                  (JStr (TERMINAL_BASE_DIR env))))
      else
        (w, Ok (invalidResult env ("Unknown terminal operation: " ++ name)))
  | _ => (w, Throw (Exn "command.operation.toLowerCase is not a function"))
  end.

(** The body of the loop over the matches of [terminalCommandRegex]:
    one result is pushed whichever way the body ends. *)
Definition structuredBlock (env : Env) (captured : string) (w : World)
  : World * TerminalResult :=
  match JSON_parse env (trim captured) with
  | Throw e => (w, caughtResult env e)
  | Ok command =>
      match property "operation" command with
      | Throw e => (w, caughtResult env e)
      | Ok operation =>
          match Js.whenTruthy operation with
          | None =>
              (w, invalidResult env "Invalid terminal command: missing operation")
          | Some op =>
              match dispatchOperation env op command w with
              | (w1, Ok r) => (w1, r)
              | (w1, Throw e) => (w1, caughtResult env e)
              end
          end
      end
  end.

(** The commands of a plain block: [match[1].trim().split('\n')]
    filtered, then each trimmed and kept when not empty. *)
Definition plainCommands (captured : string) : list string :=
  filter nonEmpty
    (map trim
       (filter (fun cmd => andb (nonEmpty (trim cmd))
                                (negb (startsWith (trim cmd) "#")))
          (split LF (trim captured)))).

(** [results.push(await executeTerminalCommand(cleanCmd))] for each
    command; nothing catches here, so a throw ends the run. *)
Fixpoint runPlain (env : Env) (commands : list string) (w : World)
  : World * outcome (list TerminalResult) :=
  match commands with
  | [] => (w, Ok [])
  | cleanCmd :: rest =>
      match executeTerminalCommand env (JStr cleanCmd) [] w with
      | (w1, Ok r) =>
          match runPlain env rest w1 with
          | (w2, Ok rs) => (w2, Ok (r :: rs))
          | (w2, Throw e) => (w2, Throw e)
          end
      | (w1, Throw e) => (w1, Throw e)
      end
  end.

Fixpoint runStructured (env : Env) (blocks : list string) (w : World)
  : World * list TerminalResult :=
  match blocks with
  | [] => (w, [])
  | captured :: rest =>
      let (w1, r) := structuredBlock env captured w in
      let (w2, rs) := runStructured env rest w1 in
      (w2, r :: rs)
  end.

(** The two loops on the blocks the scanner found. *)
Definition runBlocks (env : Env) (structured plain : list string) (w : World)
  : World * outcome (list TerminalResult) :=
  let (w1, rs1) := runStructured env structured w in
  match runPlain env (flat_map plainCommands plain) w1 with
  | (w2, Ok rs2) => (w2, Ok (rs1 ++ rs2)%list)
  | (w2, Throw e) => (w2, Throw e)
  end.

Definition structuredMatches (text : string) : list Match :=
  execAll terminalCommandRegex text.

Definition plainMatches (text : string) : list Match :=
  execAll simpleTerminalRegex text.

Definition executeTerminalCommands (env : Env) (responseText : string) (w : World)
  : World * outcome (list TerminalResult) :=
  runBlocks env (map group1 (structuredMatches responseText))
                (map group1 (plainMatches responseText)) w.

(* ================================================================== *)
(** ** The background mode of [backend/services/commands.ts] *)
(* ================================================================== *)

(** [UnifiedCommandExecutor.executeBackground], the one place of the
    repository that starts a detached process.  It belongs to a second
    executor with a registry of its own, [runningProcesses]; the
    dispatcher of [engine.ts] does not call it. *)
Module Commands.

Record CommandResult := mkCommandResult {
  success : bool;
  output : string;
  error : option string;
  executionTime : N;
  command : string;
  pid : option N
}.

(** The call [spawn(command, [], { cwd, env, shell, detached: true,
    stdio: 'pipe' })] and whether [child.unref()] followed. *)
Record BackgroundLaunch := mkBackgroundLaunch {
  commandLine : string;
  cwd : string;
  shell : json;
  detached : bool;
  unreferenced : bool
}.

Record Executor := mkExecutor {
  runningProcesses : list (string * N);
  started : list BackgroundLaunch;
  now : N
}.

(** What the platform does with the call: [spawn] throws, or the first
    event of the child is ['spawn'] or ['error']. *)
Inductive BackgroundOutcome :=
  | SpawnThrew (e : exn)
  | Spawned (child : N) (p : N)
  | Failed (child : N) (e : exn).

(** [`bg_${Date.now()}_${Math.random().toString(36).substr(2, 9)}`] *)
Definition backgroundId (x : Executor) (suffix : string) : string :=
  "bg_" ++ N_to_string (now x) ++ "_" ++ suffix.

Definition executeBackground (platform : BackgroundOutcome) (suffix : string)
    (commandText dir : string) (shellOption : json) (x : Executor)
  : Executor * outcome CommandResult :=
  let startTime := now x in
  match platform with
  | SpawnThrew e => (x, Throw e)
  | Spawned child p =>
      let id := backgroundId x suffix in
      let x1 := mkExecutor (Registry.set id child (runningProcesses x))
                  (started x ++ [mkBackgroundLaunch commandText dir shellOption true true])%list
                  (now x) in
      (x1, Ok (mkCommandResult true
                 ("Process started in background with PID: " ++ N_to_string p
                    ++ String LF EmptyString ++ "Process ID: " ++ id)
                 None (now x1 - startTime) commandText (Some p)))
  | Failed child e =>
      let id := backgroundId x suffix in
      let x1 := mkExecutor
                  (Registry.delete id (Registry.set id child (runningProcesses x)))
                  (started x ++ [mkBackgroundLaunch commandText dir shellOption true true])%list
                  (now x) in
      (x1, Ok (mkCommandResult false EmptyString (Some (message e))
                 (now x1 - startTime) commandText None))
  end.

End Commands.

(* ================================================================== *)
(** ** The event loop, one event at a time *)
(* ================================================================== *)

(** What can happen between two turns of the engine's code.
    - [Tick t]: the clock reaches [t]; a timer runs when it is due, so
      the clock does not pass a pending timer;
    - [Fire i]: the pending timer number [i], which is due, runs;
    - [Exit h]: the process behind child [h] ends by itself;
    - [Completion h]: the callback of [exec], or the ['close'] listener,
      of the ended child [h] runs: [activeProcesses.delete(processId)]
      for the [processId] of its call, [procName h];
    - [Start p timeout request]: a command passes validation and its
      child is started and tracked (the synchronous part of
      [executeTerminalCommand]);
    - [KillRequest id]: [killProcess(id)];
    - [Refusal]: a call of [executeTerminalCommand] that ends before a
      child exists (the command is refused, or the working directory or
      the start fails): only the counter moves. *)
Inductive Event :=
  | Tick (t : N)
  | Fire (i : nat)
  | Exit (h : N)
  | Completion (h : N)
  | Start (p : option N) (timeout : json) (request : Launch)
  | KillRequest (id : json)
  | Refusal.

Fixpoint removeNth {A : Type} (i : nat) (l : list A) : list A :=
  match i, l with
  | O, _ :: rest => rest
  | S i', x :: rest => x :: removeNth i' rest
  | _, [] => []
  end.

(** The world after an event, [None] when the event cannot happen. *)
Definition step (env : Env) (ev : Event) (w : World) : option World :=
  match ev with
  | Tick t =>
      if andb (clock w <=? t)%N
              (forallb (fun timer => (t <=? fst timer)%N) (timers w))
      then Some (withClock t w) else None
  | Fire i =>
      match nth_error (timers w) i with
      | Some (due, cb) =>
          if (due <=? clock w)%N
          then Some (runCallback env cb (withTimers (removeNth i (timers w)) w))
          else None
      | None => None
      end
  | Exit h =>
      if isRunning h w then Some (childClosed h w) else None
  | Completion h =>
      match childAt h w with
      | Some c => if running c then None else Some (deleteProcess (procName h) w)
      | None => None
      end
  | Start p timeout request =>
      let w1 := withCounter (processCounter w + 1) w in
      let h := processCounter w1 in
      Some (trackChild env (procName h) h p timeout request w1)
  | KillRequest id => Some (fst (killProcess env id w))
  | Refusal => Some (withCounter (processCounter w + 1) w)
  end.

Fixpoint steps (env : Env) (evs : list Event) (w : World) : option World :=
  match evs with
  | [] => Some w
  | ev :: rest =>
      match step env ev w with
      | Some w1 => steps env rest w1
      | None => None
      end
  end.

(** A trace in which nobody asks to kill [id]. *)
Definition noKillOf (id : string) (evs : list Event) : Prop :=
  ~ In (KillRequest (JStr id)) evs.

Definition callbackId (cb : Callback) : string :=
  match cb with
  | OnTimeout id _ => id
  | OnGrace id _ => id
  end.

Definition callbackChild (cb : Callback) : N :=
  match cb with
  | OnTimeout _ h => h
  | OnGrace _ h => h
  end.

(** Every reference to a child, in the registry or in a timer closure, is
    held under the name of the call that created the child, and no call
    is numbered beyond the counter. *)
Definition coherent (w : World) : Prop :=
  (forall id h, In (id, h) (activeProcesses w) ->
     id = procName h /\ (h <= processCounter w)%N)
  /\ (forall due cb, In (due, cb) (timers w) ->
        callbackId cb = procName (callbackChild cb)
        /\ (callbackChild cb <= processCounter w)%N).

(** What holds of child [h] once [killProcess] has deleted its entry. *)
Definition forgotten (h : N) (w : World) : Prop :=
  coherent w
  /\ (h <= processCounter w)%N
  /\ Registry.get (procName h) (activeProcesses w) = None.

(** The timeout closure of child [h] is pending for time [T], or its
    grace closure is pending for [T + 5000] at the latest; the clock has
    not passed it. *)
Definition armed (h T : N) (w : World) : Prop :=
  (In (T, OnTimeout (procName h) h) (timers w) /\ (clock w <= T)%N)
  \/ (exists due, In (due, OnGrace (procName h) h) (timers w)
                   /\ (due <= T + GRACE_MS)%N /\ (clock w <= due)%N).

(** Child [h] has ended, or it is still registered and armed. *)
Definition guarded (h T : N) (w : World) : Prop :=
  (h <= processCounter w)%N
  /\ (isRunning h w = false
      \/ (hasProcess (procName h) w = true /\ armed h T w)).

(** The rounds a pending closure can cost [advance]: a timeout closure
    runs and may schedule a grace closure, which runs and schedules
    nothing. *)
Definition callbackWeight (cb : Callback) : nat :=
  match cb with
  | OnTimeout _ _ => 2
  | OnGrace _ _ => 1
  end.

Fixpoint timersWeight (ts : list (N * Callback)) : nat :=
  match ts with
  | [] => 0
  | (_, cb) :: rest => callbackWeight cb + timersWeight rest
  end.

(* ================================================================== *)
(** ** A concrete platform for the scenarios *)
(* ================================================================== *)

Module Scenario.

Definition nl : string := String LF EmptyString.

(** A platform on which every command succeeds at once and prints its
    own command line. *)
Definition echoEnv : Env :=
  mkEnv MiniJson.parse "/home/user" (fun s => s) (fun _ _ => None)
    (fun request n =>
       match request with
       | ViaExec command _ _ _ _ => ExecRuns (Some (1000 + n)%N) 10 None command EmptyString
       | ViaSpawn file _ _ _ => ExecRuns (Some (1000 + n)%N) 10 None file EmptyString
       end)
    (fun request n =>
       match request with
       | ViaSpawn file _ _ _ =>
           SpawnRuns (Some (1000 + n)%N) 10 [StdoutData file] (Closed (Some 0%Z))
       | ViaExec command _ _ _ _ =>
           SpawnRuns (Some (1000 + n)%N) 10 [StdoutData command] (Closed (Some 0%Z))
       end)
    (fun _ _ => None)
    (fun _ => 0%Z).

(** [{"operation":"<op>"}] and [{"operation":"<op>","command":"<c>"}]. *)
Definition directive (op : string) : string :=
  "{" ++ quoted "operation" ++ ":" ++ quoted op ++ "}".

Definition directiveWith (op key value : string) : string :=
  "{" ++ quoted "operation" ++ ":" ++ quoted op ++ ","
      ++ quoted key ++ ":" ++ quoted value ++ "}".

(** A fenced block on one line and on lines of its own. *)
Definition inlineBlock (tag body : string) : string :=
  FENCE ++ tag ++ " " ++ body ++ " " ++ FENCE.

Definition fencedBlock (tag body : string) : string :=
  FENCE ++ tag ++ nl ++ body ++ nl ++ FENCE.

End Scenario.

(* ================================================================== *)
(** ** Vocabulary of the statements *)
(* ================================================================== *)

(** An operation as the two loops see it: the captured body of a
    structured block, or one command of a plain block. *)
Inductive Directive :=
  | Structured (captured : string)
  | Plain (cleanCmd : string).

(** The operations of a run, in the order the dispatcher takes them. *)
Definition directivesOf (structured plain : list string) : list Directive :=
  (map Structured structured ++ map Plain (flat_map plainCommands plain))%list.

(** What the dispatcher does for one operation. *)
Definition dispatchOne (env : Env) (d : Directive) (w : World)
  : World * outcome TerminalResult :=
  match d with
  | Structured captured =>
      let (w1, r) := structuredBlock env captured w in (w1, Ok r)
  | Plain cleanCmd => executeTerminalCommand env (JStr cleanCmd) [] w
  end.

(** [chain env w ds rs w']: the results [rs] are, one for one and in
    order, those of the operations [ds], each produced without a throw
    in the world its predecessors left, whatever their outcome. *)
Inductive chain (env : Env) : World -> list Directive -> list TerminalResult
                              -> World -> Prop :=
  | chain_nil : forall w, chain env w [] [] w
  | chain_cons : forall w d ds r rs w1 w2,
      dispatchOne env d w = (w1, Ok r) ->
      chain env w1 ds rs w2 ->
      chain env w (d :: ds) (r :: rs) w2.



(** The text from offset [n] on. *)
Fixpoint dropChars (n : nat) (s : string) : string :=
  match n, s with
  | S n', String _ s' => dropChars n' s'
  | _, _ => s
  end.

(** Text of ASCII characters only.  There a byte is a UTF-16 code unit,
    and [toLowerCase], [trim] and the class [\s] of this file are those
    of JavaScript. *)
Fixpoint isAscii (s : string) : bool :=
  match s with
  | EmptyString => true
  | String c s' => andb (nat_of_ascii c <? 128)%nat (isAscii s')
  end.


(** The conditions under which [validateCommand] refuses, on the
    lower-cased, trimmed command. *)
Definition denyListed (lowerCommand : string) : Prop :=
  exists dangerous, In dangerous DANGEROUS_COMMANDS
                    /\ includes lowerCommand (toLowerCase dangerous) = true.

Definition escalates (lowerCommand : string) : Prop :=
  includes lowerCommand "sudo su" = true \/ includes lowerCommand "su -" = true.




(** [n] copies of a character. *)
Definition repeatChar (c : ascii) (n : N) : string :=
  N.iter n (String c) EmptyString.

Module Cases.
Import Scenario.

(** A platform on which the command outlives its timeout and [exec]
    reports, as Node does for a child ended by a signal, an error whose
    [code] is [null]. *)
Definition timeoutEnv : Env :=
  mkEnv MiniJson.parse "/home/user" (fun s => s) (fun _ _ => None)
    (fun _ n =>
       ExecRuns (Some (1000 + n)%N) 30000
         (Some (mkExecError (Some JNull) "Command failed: sleep 60"))
         EmptyString EmptyString)
    (fun _ n => SpawnRuns (Some (1000 + n)%N) 30000 [] (Closed None))
    (fun _ _ => None)
    (fun _ => 0%Z).

(** A platform on which the command prints more than [maxBuffer]
    allows: [exec] ends the child and reports, as Node does, the error
    ERR_CHILD_PROCESS_STDIO_MAXBUFFER with the output cut at the cap;
    [spawn] delivers one byte more than the cap and the child exits
    with 0. *)
Definition floodEnv : Env :=
  mkEnv MiniJson.parse "/home/user" (fun s => s) (fun _ _ => None)
    (fun _ n =>
       ExecRuns (Some (1000 + n)%N) 10
         (Some (mkExecError (Some (JStr "ERR_CHILD_PROCESS_STDIO_MAXBUFFER"))
                  "stdout maxBuffer length exceeded"))
         (repeatChar "y" MAX_OUTPUT_SIZE) EmptyString)
    (fun _ n =>
       SpawnRuns (Some (1000 + n)%N) 10
         [StdoutData (repeatChar "y" (MAX_OUTPUT_SIZE + 1))] (Closed (Some 0%Z)))
    (fun _ _ => None)
    (fun _ => 0%Z).

(** A world in which [proc_1] is tracked and its process is alive. *)
Definition oneTracked : World :=
  mkWorld [("proc_1", 1%N)] 1
          [(1%N, mkChild (Some 4242%N) false true [])] [] 0 [].



(** The structured form as the system prompt shows it, the object on
    lines of its own. *)
Definition fencedExecuteWithoutCommand : string :=
  fencedBlock "terminal" (directive "execute").

End Cases.


(* ================================================================== *)
(** ** Vocabulary of the properties of a run *)
(* ================================================================== *)

(** The command line a call of the child-process API stands for: the
    string handed to the shell, or the program and its arguments. *)
Definition launchCommand (request : Launch) : string :=
  match request with
  | ViaExec command _ _ _ _ => command
  | ViaSpawn file args _ _ => join " " (file :: args)
  end.

(** The process ids the results of a run carry, in order. *)
Definition processIdsOf (rs : list TerminalResult) : list string :=
  flat_map (fun r => match processId r with Some id => [id] | None => [] end) rs.

(** Numbers that grow strictly and lie in [(low, high]]. *)
Fixpoint ascendingWithin (low high : N) (ns : list N) : Prop :=
  match ns with
  | [] => True
  | n :: rest => (low < n <= high)%N /\ ascendingWithin n high rest
  end.

(** The four tags that open a block the dispatcher reads. *)
Definition fenceTags : list string := ["terminal"; "bash"; "shell"; "cmd"].

(* ================================================================== *)
(** ** The prompt budget *)
(* ================================================================== *)

(** [estimateTokens] and [limitMessagesByTokens], which cut the chat
    history to the size of the prompt. *)
Module Prompt.

(** The white space of ECMAScript outside ASCII, which the class [\s]
    matches as well, as UTF-8: U+00A0, U+1680, U+2000 to U+200A, U+2028,
    U+2029, U+202F, U+205F, U+3000 and U+FEFF. *)
Definition unicodeSpaces : list string :=
  [bytes [194; 160]; bytes [225; 154; 128];
   bytes [226; 128; 128]; bytes [226; 128; 129]; bytes [226; 128; 130];
   bytes [226; 128; 131]; bytes [226; 128; 132]; bytes [226; 128; 133];
   bytes [226; 128; 134]; bytes [226; 128; 135]; bytes [226; 128; 136];
   bytes [226; 128; 137]; bytes [226; 128; 138];
   bytes [226; 128; 168]; bytes [226; 128; 169]; bytes [226; 128; 175];
   bytes [226; 129; 159]; bytes [227; 128; 128]; bytes [239; 187; 191]].

(** The number of bytes of the white-space character that [s] starts
    with; 0 when [s] starts with none. *)
Definition spaceWidth (s : string) : nat :=
  match s with
  | EmptyString => 0%nat
  | String c _ =>
      if isWhitespace c then 1%nat
      else match find (startsWith s) unicodeSpaces with
           | Some space => String.length space
           | None => 0%nat
           end
  end.

Import QArith.QArith_base QArith.Qround QArith.Qminmax.

(** [text.split(/\s+/)]: the pieces between the runs of white space.
    A run at the start or at the end of the text leaves an empty piece
    there, and the empty text is one empty piece.  [inRun] tells that
    the character before was white space, and [skip] counts the bytes
    still to pass of a white-space character of several bytes. *)
Fixpoint splitRuns (skip : nat) (inRun : bool) (s : string) : list string :=
  match s with
  | EmptyString => [EmptyString]
  | String c s' =>
      match skip with
      | S skip' => splitRuns skip' true s'
      | O =>
          match spaceWidth s with
          | S width =>
              if inRun then splitRuns width true s'
              else EmptyString :: splitRuns width true s'
          | O =>
              match splitRuns 0%nat false s' with
              | [] => [String c EmptyString]
              | piece :: pieces => String c piece :: pieces
              end
          end
      end
  end.

Definition splitWhitespace (text : string) : list string :=
  splitRuns 0%nat false text.

(** [text.length] counts UTF-16 code units.  In the UTF-8 form of the
    text a continuation byte counts for nothing, the first byte of a
    sequence of four bytes for two (a surrogate pair) and any other
    first byte for one. *)
Definition codeUnits (c : ascii) : nat :=
  let n := nat_of_ascii c in
  if (n <? 128)%nat then 1%nat
  else if (n <? 192)%nat then 0%nat
  else if (n <? 240)%nat then 1%nat
  else 2%nat.

Fixpoint utf16Length (s : string) : nat :=
  match s with
  | EmptyString => 0%nat
  | String c s' => (codeUnits c + utf16Length s')%nat
  end.

(** The numbers are exact in floating point, so they are rationals
    here. *)
Definition estimateTokens (text : string) : Z :=
  let words := List.length (splitWhitespace text) in
  let characters := utf16Length text in
  let wordBasedTokens := Qmult (inject_Z (Z.of_nat words)) (Qmake 3 4) in
  let charBasedTokens := Qdiv (inject_Z (Z.of_nat characters)) (inject_Z 4) in
  Qceiling (Qmax wordBasedTokens charBasedTokens).

Record Message := mkMessage { role : string; content : string }.

Definition isSystem (msg : Message) : bool := String.eqb (role msg) "system".

(** [result.splice(start, 0, item)]: [item] is put in front of the
    element at [start], or at the end when there is none. *)
Fixpoint splice {A : Type} (start : nat) (item : A) (result : list A) : list A :=
  match start, result with
  | O, _ => item :: result
  | S start', x :: rest => x :: splice start' item rest
  | S _, [] => [item]
  end.

(** The loop [for (i = length - 1; i >= 0; i--)] over the messages that
    are not system messages, from the newest one down; [newestFirst]
    holds those the loop has not visited yet. *)
Fixpoint takeNewest (maxTokens : Z) (start : nat) (newestFirst : list Message)
    (totalTokens : Z) (result : list Message) : list Message :=
  match newestFirst with
  | [] => result
  | msg :: older =>
      let tokens := estimateTokens (content msg) in
      if (totalTokens + tokens >? maxTokens)%Z then result
      else takeNewest maxTokens start older (totalTokens + tokens)%Z
             (splice start msg result)
  end.

(** [maxTokens = 4000] in the parameter list; a whole number, as the
    values of the engine are. *)
Definition orDefault (maxTokens : option Z) : Z :=
  match maxTokens with
  | Some m => m
  | None => 4000%Z
  end.

Definition limitMessagesByTokens (messages : list Message) (maxTokens : option Z)
  : list Message :=
  let systemMessage := find isSystem messages in
  let totalTokens :=
    match systemMessage with
    | Some msg => estimateTokens (content msg)
    | None => 0%Z
    end in
  let result :=
    match systemMessage with
    | Some msg => [msg]
    | None => []
    end in
  let nonSystemMessages := filter (fun msg => negb (isSystem msg)) messages in
  takeNewest (orDefault maxTokens)
    (match systemMessage with Some _ => 1%nat | None => 0%nat end)
    (rev nonSystemMessages) totalTokens result.

(** [buildPromptWithMemory(prompt, conversationId, maxTokens = 6000)],
    given what it reads from the platform: [systemPrompt] is the text of
    the template literal, filled with the system information and the
    memory of the user, and [chatHistory] the messages of the
    conversation that the query returns, oldest first. *)
Definition buildPromptWithMemory (systemPrompt : string) (chatHistory : list Message)
    (prompt : string) (maxTokens : option Z) : list Message :=
  let messages :=
    (mkMessage "system" systemPrompt
       :: map (fun msg => mkMessage (role msg) (content msg)) chatHistory
       ++ [mkMessage "user" prompt])%list in
  limitMessagesByTokens messages
    (Some (match maxTokens with Some m => m | None => 6000%Z end)).

(** The estimate of a list of messages. *)
Definition tokensOf (messages : list Message) : Z :=
  fold_right (fun msg total => (estimateTokens (content msg) + total)%Z) 0%Z messages.

(** The system message the result starts with. *)
Definition systemPart (messages : list Message) : list Message :=
  match find isSystem messages with
  | Some msg => [msg]
  | None => []
  end.

End Prompt.

(* ================================================================== *)
(** ** Retry with exponential backoff *)
(* ================================================================== *)

(** [retryWithBackoff(fn, maxRetries, baseDelay)].  The function that
    is retried is an oracle: [fn n] tells how its call in attempt [n]
    ends, with a value or with what it throws.  [maxRetries] and
    [baseDelay] are whole numbers, as the defaults are, with which the
    engine calls it. *)
Module Retry.

Definition MAX_RETRIES : Z := 3.

(** How the returned promise settles.  A rejection carries the value
    thrown; [None] is [undefined], which is what [lastError] holds
    before the first failure. *)
Inductive Settled (A E : Type) :=
  | Resolved (value : A)
  | Rejected (thrown : option E).
Arguments Resolved {A E} value.
Arguments Rejected {A E} thrown.

(** What a run does, in order: calls of [fn] and waits
    [await new Promise(resolve => setTimeout(resolve, delay))]. *)
Inductive Action :=
  | Call (attempt : Z)
  | Sleep (delay : Z).

(** The loop [for (attempt = 0; attempt < maxRetries; attempt++)] from
    [attempt] on; [remaining] bounds the turns left. *)
Fixpoint retryLoop {A E : Type} (fn : Z -> A + E) (maxRetries baseDelay : Z)
    (remaining : nat) (attempt : Z) (lastError : option E)
  : Settled A E * list Action :=
  match remaining with
  | O => (Rejected lastError, [])
  | S remaining' =>
      if (attempt <? maxRetries)%Z then
        match fn attempt with
        | inl value => (Resolved value, [Call attempt])
        | inr error =>
            if (attempt =? maxRetries - 1)%Z
            then (Rejected (Some error), [Call attempt])
            else
              let delay := (baseDelay * 2 ^ attempt)%Z in
              let (settled, actions) :=
                retryLoop fn maxRetries baseDelay remaining' (attempt + 1)%Z
                          (Some error) in
              (settled, Call attempt :: Sleep delay :: actions)
        end
      else (Rejected lastError, [])
  end.

(** The defaults of the parameter list: [maxRetries = MAX_RETRIES] and
    [baseDelay = 1000]. *)
Definition retriesOf (maxRetries : option Z) : Z :=
  match maxRetries with
  | Some n => n
  | None => MAX_RETRIES
  end.

Definition baseOf (baseDelay : option Z) : Z :=
  match baseDelay with
  | Some d => d
  | None => 1000%Z
  end.

(** The loop makes at most [maxRetries] turns. *)
Definition retryWithBackoff {A E : Type} (fn : Z -> A + E)
    (maxRetries baseDelay : option Z) : Settled A E * list Action :=
  retryLoop fn (retriesOf maxRetries) (baseOf baseDelay)
            (Z.to_nat (retriesOf maxRetries)) 0%Z None.

(** The calls and waits of [n] failed attempts in a row, the first of
    them attempt [from]. *)
Fixpoint failedAttempts (baseDelay from : Z) (n : nat) : list Action :=
  match n with
  | O => []
  | S n' =>
      Call from :: Sleep (baseDelay * 2 ^ from)%Z
        :: failedAttempts baseDelay (from + 1)%Z n'
  end.

(** The time a run waits. *)
Fixpoint waited (actions : list Action) : Z :=
  match actions with
  | [] => 0%Z
  | Call _ :: rest => waited rest
  | Sleep delay :: rest => (delay + waited rest)%Z
  end.

(** The number of calls of [fn]. *)
Fixpoint callsOf (actions : list Action) : nat :=
  match actions with
  | [] => 0%nat
  | Call _ :: rest => S (callsOf rest)
  | Sleep _ :: rest => callsOf rest
  end.

End Retry.

(* ================================================================== *)
(** ** The report of the terminal operations *)
(* ================================================================== *)

(** What [generateResponseDeepseek], [generateResponseGemini] and
    [generateResponseOpenAI] append to the reply of the model, each with
    the same code: the variable [finalResponse]. *)
Module Report.

Definition newline : string := String LF EmptyString.

(** The glyphs, as their UTF-8 bytes. *)
Definition LAPTOP : string := bytes [240; 159; 146; 187].
Definition OUTBOX : string := bytes [240; 159; 147; 164].
Definition FOLDER : string := bytes [240; 159; 147; 129].
Definition BRAIN : string := bytes [240; 159; 167; 160].
Definition STOPWATCH : string := bytes [226; 143; 177; 239; 184; 143].

(** The first of the two UTF-16 code units of a character of four
    bytes, in the same three-byte form as any code unit from U+0800 on:
    what [slice] leaves when it cuts between the two.  [top] is the top
    ten bits of the code point less 0x10000, and the code unit is
    0xD800 + [top]. *)
Definition highSurrogate (lead : ascii) (rest : string) : string :=
  match rest with
  | String b1 (String b2 _) =>
      let upperBits :=
        ((nat_of_ascii lead mod 8) * 4096 + (nat_of_ascii b1 mod 64) * 64
         + nat_of_ascii b2 mod 64)%nat in
      let top := (upperBits / 16 - 64)%nat in
      bytes [237; (160 + (top / 64) mod 16)%nat; (128 + top mod 64)%nat]
  | _ => EmptyString
  end.

(** [s.slice(0, n)]: the first [n] UTF-16 code units of [s]. *)
Fixpoint sliceUnits (n : nat) (s : string) : string :=
  match s with
  | EmptyString => EmptyString
  | String c rest =>
      match Prompt.codeUnits c, n with
      | O, _ => String c (sliceUnits n rest)
      | S O, S n' => String c (sliceUnits n' rest)
      | S (S _), S (S n') => String c (sliceUnits n' rest)
      | S (S _), S O => highSurrogate c rest
      | _, O => EmptyString
      end
  end.

(** [`${text.slice(0, limit)}${text.length > limit ? '\n... (truncated)' : ''}`] *)
Definition shown (limit : nat) (text : string) : string :=
  sliceUnits limit text
    ++ (if (limit <? Prompt.utf16Length text)%nat
        then newline ++ "... (truncated)" else EmptyString).

(** The body of [terminalResults.forEach((termResult, index) => ...)]. *)
Definition termResultReport (index : nat) (termResult : TerminalResult) : string :=
  newline ++ "**Command " ++ N_to_string (N.of_nat (index + 1)) ++ "** ("
    ++ N_to_string (executionTime termResult) ++ "ms):" ++ newline
    ++ (if success termResult then
          CHECK_MARK ++ " Exit Code: " ++ Js.toString (exitCode termResult) ++ newline
            ++ (if nonEmpty (stdout termResult)
                then OUTBOX ++ " **Output:**" ++ newline ++ "```" ++ newline
                       ++ shown 2000 (stdout termResult) ++ newline ++ "```" ++ newline
                else EmptyString)
        else
          CROSS_MARK ++ " Exit Code: " ++ Js.toString (exitCode termResult) ++ newline
            ++ (if nonEmpty (stderr termResult)
                then OUTBOX ++ " **Error:**" ++ newline ++ "```" ++ newline
                       ++ shown 1000 (stderr termResult) ++ newline ++ "```" ++ newline
                else EmptyString))
    ++ FOLDER ++ " **Working Directory:** " ++ Js.toString (workingDir termResult)
    ++ newline.

(** The [forEach] loop from [index] on. *)
Fixpoint termResultsReport (index : nat) (terminalResults : list TerminalResult)
  : string :=
  match terminalResults with
  | [] => EmptyString
  | termResult :: rest =>
      termResultReport index termResult ++ termResultsReport (S index) rest
  end.

(** [AIResponse], the value of [processAIResponse]. *)
Record AIResponse := mkAIResponse {
  reply : string;
  terminalResults : list TerminalResult;
  memoryUpdated : bool;
  executionTime : N
}.

Definition finalResponse (result : AIResponse) : string :=
  reply result
    ++ match terminalResults result with
       | [] => EmptyString
       | results =>
           newline ++ newline ++ "---" ++ newline ++ LAPTOP
             ++ " **Terminal Operations:**" ++ newline
             ++ termResultsReport 0 results
       end
    ++ (if memoryUpdated result
        then newline ++ newline ++ BRAIN ++ " *Memory updated with new information*"
        else EmptyString)
    ++ newline ++ newline ++ STOPWATCH ++ " *Processed in "
    ++ N_to_string (executionTime result) ++ "ms*".

End Report.

(* ================================================================== *)
(** ** The command executor of [backend/services/commands.ts] *)
(* ================================================================== *)

(** The methods of [UnifiedCommandExecutor] besides [executeBackground]:
    the history, the registry of background processes, [execute] and
    [executeSequence]. *)
Module Unified.

(** [private maxHistorySize = 1000]. *)
Definition maxHistorySize : nat := 1000.

(** [array.slice(start)]: a negative [start] counts from the end. *)
Definition slice {A : Type} (start : Z) (l : list A) : list A :=
  let len := Z.of_nat (List.length l) in
  let from := if (start <? 0)%Z then Z.max (len + start) 0 else Z.min start len in
  skipn (Z.to_nat from) l.

Definition addToHistory (result : Commands.CommandResult)
    (commandHistory : list Commands.CommandResult) : list Commands.CommandResult :=
  let pushed := (commandHistory ++ [result])%list in
  if (maxHistorySize <? List.length pushed)%nat
  then slice (- Z.of_nat maxHistorySize) pushed
  else pushed.

(** [getHistory(limit = 10)]. *)
Definition getHistory (limit : option Z)
    (commandHistory : list Commands.CommandResult) : list Commands.CommandResult :=
  slice (- match limit with Some n => n | None => 10%Z end) commandHistory.

Definition clearHistory (commandHistory : list Commands.CommandResult)
  : list Commands.CommandResult := [].

(** [CommandOptions]; an absent option is [None]. *)
Record CommandOptions := mkOptions {
  timeout : option Z;
  cwd : option string;
  env : option json;
  shell : option json;
  background : option bool;
  sudo : option bool;
  interactive : option bool;
  continueOnError : option bool
}.

Definition noOptions : CommandOptions :=
  mkOptions None None None None None None None None.

(** A call of the child-process API by [execute] or
    [executeInteractive]:
    [execAsync(command, { timeout, cwd, env, maxBuffer })] and
    [spawn(command, [], { cwd, env, shell: true, stdio: 'inherit' })]. *)
Inductive Request :=
  | ExecAsync (commandLine dir : string) (limit : Z) (vars : json) (maxBuffer : N)
  | SpawnInherit (commandLine dir : string) (vars : json).

(** An error as the [catch] of [execute] reads it: [message], [stdout],
    [stderr] and [code]. *)
Record Failure := mkFailure {
  failureMessage : string;
  failureStdout : option string;
  failureStderr : option string;
  failureCode : option json
}.

Inductive ExecAsyncOutcome :=
  | ExecResolves (out err : string) (elapsed : N)
  | ExecRejects (failure : Failure) (elapsed : N).

(** What [spawn] does for [executeBackground]: it throws, or the first
    event of the child is ['spawn'] or ['error']. *)
Inductive BackgroundStart :=
  | BackgroundThrows (failure : Failure)
  | BackgroundSpawns (child p : N)
  | BackgroundFails (child : N) (e : exn).

(** What [spawn] does for [executeInteractive]: it throws, or the child
    ends with ['close'] or fails with ['error'], [elapsed] milliseconds
    later. *)
Inductive InteractiveOutcome :=
  | InteractiveThrows (failure : Failure)
  | InteractiveCloses (exit : option Z) (elapsed : N)
  | InteractiveFails (e : exn) (elapsed : N).

(** The platform.  The [nat] argument is the number of the call of
    [execute] (from 1), so that two calls may differ.
    - [killThrows child]: [Some e] when [process.kill('SIGTERM')]
      throws;
    - [randomSuffix]: [Math.random().toString(36).substr(2, 9)]. *)
Record Platform := mkPlatform {
  processCwd : string;
  processEnv : json;
  execAsync : Request -> nat -> ExecAsyncOutcome;
  spawnDetached : string -> nat -> BackgroundStart;
  randomSuffix : nat -> string;
  spawnInherit : Request -> nat -> InteractiveOutcome;
  killThrows : N -> option exn
}.

(** The executor object: the fields of [Commands.Executor], the command
    history, and, as a record of what happened, the calls of the
    child-process API, the children sent SIGTERM and the number of calls
    of [execute]. *)
Record State := mkState {
  executor : Commands.Executor;
  commandHistory : list Commands.CommandResult;
  issued : list Request;
  signalled : list N;
  calls : nat
}.


Definition runningProcesses (s : State) : list (string * N) :=
  Commands.runningProcesses (executor s).

Definition now (s : State) : N := Commands.now (executor s).

(** The clock moves on while a child is awaited. *)
Definition later (elapsed : N) (x : Commands.Executor) : Commands.Executor :=
  Commands.mkExecutor (Commands.runningProcesses x) (Commands.started x)
                      (Commands.now x + elapsed).

(** [killProcess(processId)]. *)
Definition killProcess (pf : Platform) (processId : string) (s : State)
  : State * Commands.CommandResult :=
  match Registry.get processId (runningProcesses s) with
  | None =>
      (s, Commands.mkCommandResult false EmptyString
            (Some ("Process " ++ processId ++ " not found")) 0
            ("kill " ++ processId) None)
  | Some child =>
      match killThrows pf child with
      | Some e =>
          (s, Commands.mkCommandResult false EmptyString (Some (message e)) 0
                ("kill " ++ processId) None)
      | None =>
          let x := executor s in
          (mkState
             (Commands.mkExecutor (Registry.delete processId (Commands.runningProcesses x))
                (Commands.started x) (Commands.now x))
             (commandHistory s) (issued s) (signalled s ++ [child])%list (calls s),
           Commands.mkCommandResult true
             ("Process " ++ processId ++ " terminated successfully") None 0
             ("kill " ++ processId) None)
      end
  end.

(** [listProcesses()]. *)
Definition listProcesses (s : State) : list string := map fst (runningProcesses s).

(** The [catch] of [execute]: what the result takes from the error. *)
Definition caughtOutput (failure : Failure) : string :=
  let fromStdout :=
    match failureStdout failure with
    | Some out => out
    | None => EmptyString
    end in
  let withStderr :=
    match failureStderr failure with
    | Some err =>
        if nonEmpty err
        then fromStdout ++ String LF EmptyString ++ "[ERROR]: " ++ err
        else fromStdout
    | None => fromStdout
    end in
  if Js.truthy (failureCode failure)
  then withStderr ++ String LF EmptyString ++ "[EXIT CODE]: "
         ++ Js.toStringOpt (failureCode failure)
  else withStderr.

(** The end of [execute] after the [try]: the time is taken and the
    result goes into the history. *)
Definition finish (startTime : N) (finalCommand : string) (succeeded : bool)
    (text : string) (problem : option string) (s : State)
  : State * Commands.CommandResult :=
  let result :=
    Commands.mkCommandResult succeeded text problem (now s - startTime) finalCommand None in
  (mkState (executor s) (addToHistory result (commandHistory s))
           (issued s) (signalled s) (calls s),
   result).

Definition withExecutor (x : Commands.Executor) (s : State) : State :=
  mkState x (commandHistory s) (issued s) (signalled s) (calls s).

(** The platform's answer in the terms of [Commands.executeBackground],
    and the error thrown when it throws. *)
Definition asOutcome (start : BackgroundStart) : Commands.BackgroundOutcome :=
  match start with
  | BackgroundThrows failure => Commands.SpawnThrew (Exn (failureMessage failure))
  | BackgroundSpawns child p => Commands.Spawned child p
  | BackgroundFails child e => Commands.Failed child e
  end.

Definition thrownBy (start : BackgroundStart) (e : exn) : Failure :=
  match start with
  | BackgroundThrows failure => failure
  | _ => mkFailure (message e) None None None
  end.

(** [executeInteractive(command, { cwd, env })]: the promise is rejected
    when [spawn] throws, otherwise it resolves on ['close'] or on
    ['error']. *)
Definition executeInteractive (pf : Platform) (commandText dir : string) (vars : json)
    (s : State) : State * (Commands.CommandResult + Failure) :=
  let startTime := now s in
  let request := SpawnInherit commandText dir vars in
  match spawnInherit pf request (calls s) with
  | InteractiveThrows failure => (s, inr failure)
  | InteractiveCloses exit elapsed =>
      let s1 := mkState (later elapsed (executor s)) (commandHistory s)
                        (issued s ++ [request])%list (signalled s) (calls s) in
      (s1,
       inl (Commands.mkCommandResult
              (match exit with Some 0%Z => true | _ => false end)
              ("Interactive command completed with exit code: "
                 ++ match exit with Some z => Z_to_string z | None => "null" end)
              None (now s1 - startTime) commandText None))
  | InteractiveFails e elapsed =>
      let s1 := mkState (later elapsed (executor s)) (commandHistory s)
                        (issued s ++ [request])%list (signalled s) (calls s) in
      (s1,
       inl (Commands.mkCommandResult false EmptyString (Some (message e))
              (now s1 - startTime) commandText None))
  end.

(** [execute(command, options)].  The results of [executeBackground]
    and [executeInteractive] are returned from inside the [try]; what
    they throw, and the outcome of [execAsync], goes on to the end of
    the method. *)
Definition execute (pf : Platform) (commandText : string) (options : CommandOptions)
    (s0 : State) : State * Commands.CommandResult :=
  let startTime := now s0 in
  let s := mkState (executor s0) (commandHistory s0) (issued s0) (signalled s0)
                   (S (calls s0)) in
  let n := calls s in
  let limit := match timeout options with Some t => t | None => 30000%Z end in
  let dir := match cwd options with Some d => d | None => processCwd pf end in
  let vars := match env options with Some e => e | None => processEnv pf end in
  let shellOption := match shell options with Some v => v | None => JBool true end in
  let inBackground := match background options with Some b => b | None => false end in
  let asRoot := match sudo options with Some b => b | None => false end in
  let isInteractive := match interactive options with Some b => b | None => false end in
  let trimmed := trim commandText in
  let finalCommand :=
    if andb asRoot (negb (startsWith trimmed "sudo"))
    then "sudo " ++ trimmed else trimmed in
  if inBackground then
    let start := spawnDetached pf finalCommand n in
    match Commands.executeBackground (asOutcome start) (randomSuffix pf n)
            finalCommand dir shellOption (executor s) with
    | (x, Ok result) => (withExecutor x s, result)
    | (x, Throw e) =>
        let failure := thrownBy start e in
        finish startTime finalCommand false (caughtOutput failure)
               (Some (failureMessage failure)) (withExecutor x s)
    end
  else if isInteractive then
    match executeInteractive pf finalCommand dir vars s with
    | (s1, inl result) => (s1, result)
    | (s1, inr failure) =>
        finish startTime finalCommand false (caughtOutput failure)
               (Some (failureMessage failure)) s1
    end
  else
    let request := ExecAsync finalCommand dir limit vars (1024 * 1024 * 10) in
    let awaited := fun elapsed =>
      mkState (later elapsed (executor s)) (commandHistory s)
              (issued s ++ [request])%list (signalled s) (calls s) in
    match execAsync pf request n with
    | ExecResolves out err elapsed =>
        finish startTime finalCommand true
               (if nonEmpty (trim err)
                then out ++ String LF EmptyString ++ "[STDERR]: " ++ err
                else out)
               None (awaited elapsed)
    | ExecRejects failure elapsed =>
        finish startTime finalCommand false (caughtOutput failure)
               (Some (failureMessage failure)) (awaited elapsed)
    end.

(** The command line [execute] runs for [commandText]: the text
    trimmed, with [sudo] in front when that is asked for and the text
    does not start with it. *)
Definition finalCommandOf (options : CommandOptions) (commandText : string) : string :=
  let asRoot := match sudo options with Some b => b | None => false end in
  if andb asRoot (negb (startsWith (trim commandText) "sudo"))
  then "sudo " ++ trim commandText else trim commandText.

(** [executeSequence(commands, options)]. *)
Fixpoint executeSequence (pf : Platform) (commands : list string)
    (options : CommandOptions) (s : State) : State * list Commands.CommandResult :=
  match commands with
  | [] => (s, [])
  | commandText :: rest =>
      let (s1, result) := execute pf commandText options s in
      if andb (negb (Commands.success result))
              (negb (match continueOnError options with Some b => b | None => false end))
      then (s1, [result])
      else
        let (s2, results) := executeSequence pf rest options s1 in
        (s2, result :: results)
  end.


End Unified.

(* ================================================================== *)
(** * Properties *)
(* ================================================================== *)

(** ** Safety policy *)

Section SafetyPolicy.

Lemma firstDangerous_none (l : string) (entries : list string) :
  firstDangerous l entries = None
  <-> forall d, In d entries -> includes l (toLowerCase d) = false.
Proof.
  induction entries as [|d0 rest IH]; simpl.
  - split; [intros _ d [] | reflexivity].
  - destruct (includes l (toLowerCase d0)) eqn:E.
    + split; [discriminate|].
      intros H. specialize (H d0 (or_introl eq_refl)). congruence.
    + rewrite IH. split.
      * intros H d [<-|Hd]; auto.
      * intros H d Hd. apply H. now right.
Qed.






Lemma includes_cons (c : ascii) (s p : string) :
  includes s p = true -> includes (String c s) p = true.
Proof. intros H. cbn [includes]. rewrite H. now destruct (startsWith _ _). Qed.


Lemma includes_nonEmpty (s p : string) :
  includes s p = true -> p <> EmptyString -> s <> EmptyString.
Proof. intros H Hp ->. destruct p; [congruence | discriminate]. Qed.

Lemma trimStart_length (s : string) :
  String.length (trimStart s) <= String.length s.
Proof.
  induction s as [|c s IH]; simpl; [lia|].
  destruct (isWhitespace c); simpl; lia.
Qed.

(** A pattern that [trimStart] leaves alone starts with a character
    that is not white space. *)
Lemma trimStart_fixed_head (a : ascii) (p : string) :
  trimStart (String a p) = String a p -> isWhitespace a = false.
Proof.
  simpl. destruct (isWhitespace a); [|reflexivity].
  intros H. pose proof (trimStart_length p) as Hl. rewrite H in Hl. simpl in Hl. lia.
Qed.

Lemma includes_trimStart (s p : string) :
  includes s p = true -> p <> EmptyString -> trimStart p = p ->
  includes (trimStart s) p = true.
Proof.
  intros H Hp Hfix. destruct p as [|a p]; [congruence|].
  apply trimStart_fixed_head in Hfix.
  induction s as [|c s IH]; [exact H|].
  cbn [trimStart]. destruct (isWhitespace c) eqn:Ec; [|exact H].
  apply IH. cbn [includes startsWith] in H.
  destruct (Ascii.eqb a c) eqn:E; [|exact H].
  apply Ascii.eqb_eq in E. congruence.
Qed.

Lemma trimEnd_cons (c : ascii) (s : string) :
  trimEnd s <> EmptyString -> trimEnd (String c s) = String c (trimEnd s).
Proof. cbn [trimEnd]. destruct (trimEnd s); [congruence | reflexivity]. Qed.

Lemma startsWith_nonEmpty (s p : string) :
  startsWith s p = true -> p <> EmptyString -> s <> EmptyString.
Proof. intros H Hp ->. destruct p; [congruence | discriminate]. Qed.

Lemma startsWith_trimEnd (s p : string) :
  startsWith s p = true -> p <> EmptyString -> trimEnd p = p ->
  startsWith (trimEnd s) p = true.
Proof.
  revert s. induction p as [|a p IH]; intros s H Hp Hfix; [congruence|].
  destruct s as [|c s]; [discriminate|]. cbn [startsWith] in H.
  destruct (Ascii.eqb a c) eqn:E; [|discriminate].
  cbn [trimEnd] in Hfix. clear Hp.
  destruct (trimEnd p) as [|b q] eqn:Ep in Hfix.
  - destruct (isWhitespace a) eqn:Ea; [discriminate|].
    injection Hfix as <-. apply Ascii.eqb_eq in E. subst c.
    cbn [trimEnd]. destruct (trimEnd s); [rewrite Ea|]; cbn [startsWith];
      now rewrite Ascii.eqb_refl.
  - injection Hfix as Hq.
    assert (Hp' : p <> EmptyString) by (rewrite <- Hq; discriminate).
    assert (Hs : startsWith (trimEnd s) p = true).
    { apply IH; [exact H | exact Hp' | now rewrite Ep]. }
    rewrite trimEnd_cons.
    + cbn [startsWith]. now rewrite E.
    + eapply startsWith_nonEmpty; [exact Hs | exact Hp'].
Qed.

Lemma includes_trimEnd (s p : string) :
  includes s p = true -> p <> EmptyString -> trimEnd p = p ->
  includes (trimEnd s) p = true.
Proof.
  intros H Hp Hfix. induction s as [|c s IH].
  - now destruct (includes_nonEmpty _ _ H Hp).
  - cbn [includes] in H. destruct (startsWith (String c s) p) eqn:E.
    + apply startsWith_trimEnd in E; [|assumption..].
      destruct (trimEnd (String c s)); cbn [includes]; now rewrite E.
    + specialize (IH H). rewrite trimEnd_cons.
      * now apply includes_cons.
      * eapply includes_nonEmpty; eauto.
Qed.

(** Trimming the command does not lose an occurrence of a pattern that
    has no white space at its ends. *)
Lemma includes_trim (s p : string) :
  includes s p = true -> p <> EmptyString -> trimStart p = p -> trimEnd p = p ->
  includes (trim s) p = true.
Proof.
  intros H Hp Hs He. unfold trim. apply includes_trimEnd; [|assumption..].
  now apply includes_trimStart.
Qed.

Lemma dangerous_entries_untrimmed (d : string) :
  In d DANGEROUS_COMMANDS ->
  toLowerCase d <> EmptyString
  /\ trimStart (toLowerCase d) = toLowerCase d
  /\ trimEnd (toLowerCase d) = toLowerCase d.
Proof.
  unfold DANGEROUS_COMMANDS. intros H.
  repeat (destruct H as [<-|H]; [repeat split; discriminate|]).
  destruct H.
Qed.






End SafetyPolicy.

(** ** Dispatcher: one result per operation, in order, nothing thrown *)

Section Dispatcher.

Variable env : Env.

(** With a string command and a string working directory, the only
    throws left are those of the runner, and the [try] turns them into
    results. *)
Lemma executeTerminalCommand_string_total (cleanCmd : string)
    (options : list (string * json)) (w : World) :
  (forall v, Js.getField "workingDir" options = Some v -> exists s, v = JStr s) ->
  exists w1 r, executeTerminalCommand env (JStr cleanCmd) options w = (w1, Ok r).
Proof.
  intros Hdir. unfold executeTerminalCommand.
  destruct (negb (safe (validateCommand cleanCmd))); [eauto|].
  assert (Hv : exists s, Js.withDefault (Js.getField "workingDir" options)
                           (JStr (TERMINAL_BASE_DIR env)) = JStr s).
  { destruct (Js.getField "workingDir" options) as [v|] eqn:E; simpl; [|eauto].
    destruct (Hdir v eq_refl) as [s ->]. eauto. }
  destruct Hv as [s ->]. cbn [validateWorkingDir].
  destruct (ensureDir env _ _); [eauto|].
  match goal with
  | |- context [if Js.truthy ?i then ?a else ?b] =>
      destruct (if Js.truthy i then a else b) as [w' [r|e]]; eauto
  end.
Qed.

Lemma dispatchOne_total (d : Directive) (w : World) :
  exists w1 r, dispatchOne env d w = (w1, Ok r).
Proof.
  destruct d as [captured|cleanCmd]; unfold dispatchOne.
  - destruct (structuredBlock env captured w) as [w1 r]. eauto.
  - apply executeTerminalCommand_string_total. simpl. discriminate.
Qed.

Lemma chain_length (w : World) (ds : list Directive) (rs : list TerminalResult)
    (w' : World) :
  chain env w ds rs w' -> List.length rs = List.length ds.
Proof. induction 1; simpl; congruence. Qed.

Lemma chain_app (w w1 w2 : World) (ds1 ds2 : list Directive)
    (rs1 rs2 : list TerminalResult) :
  chain env w ds1 rs1 w1 -> chain env w1 ds2 rs2 w2 ->
  chain env w (ds1 ++ ds2) (rs1 ++ rs2) w2.
Proof.
  induction 1; simpl; intros H2; [exact H2|].
  econstructor; eauto.
Qed.

Lemma runStructured_chain (blocks : list string) (w : World) :
  chain env w (map Structured blocks)
        (snd (runStructured env blocks w)) (fst (runStructured env blocks w)).
Proof.
  revert w. induction blocks as [|b rest IH]; intros w;
    cbn [runStructured map]; [constructor|].
  destruct (structuredBlock env b w) as [w1 r] eqn:E.
  specialize (IH w1). destruct (runStructured env rest w1) as [w2 rs].
  cbn [fst snd] in *.
  econstructor; [|exact IH]. unfold dispatchOne. now rewrite E.
Qed.

Lemma runPlain_chain (commands : list string) (w : World) :
  exists w' rs, runPlain env commands w = (w', Ok rs)
                /\ chain env w (map Plain commands) rs w'.
Proof.
  revert w. induction commands as [|c rest IH]; intros w; cbn [runPlain map].
  - exists w, []. split; [reflexivity | constructor].
  - destruct (executeTerminalCommand_string_total c [] w) as (w1 & r & E).
    { simpl. discriminate. }
    rewrite E. destruct (IH w1) as (w2 & rs & E2 & Hc). rewrite E2.
    exists w2, (r :: rs). split; [reflexivity|].
    econstructor; [exact E | exact Hc].
Qed.

Lemma runBlocks_chain (structured plain : list string) (w : World) :
  exists w' rs,
    runBlocks env structured plain w = (w', Ok rs)
    /\ chain env w (directivesOf structured plain) rs w'.
Proof.
  unfold runBlocks, directivesOf.
  pose proof (runStructured_chain structured w) as H1.
  destruct (runStructured env structured w) as [w1 rs1]. simpl in H1.
  destruct (runPlain_chain (flat_map plainCommands plain) w1) as (w2 & rs2 & E & H2).
  rewrite E. exists w2, (rs1 ++ rs2)%list.
  split; [reflexivity|]. eapply chain_app; eauto.
Qed.

(** C2.  For any structured blocks and plain blocks the dispatcher
    returns normally; its results are one per operation, in the order of
    the operations, each computed from its own operation in the world
    its predecessors left, whether they succeeded or not; so the two
    sequences have the same length.  No throw of the runner reaches the
    caller. *)
Theorem dispatcher_total_in_order (structured plain : list string) (w : World) :
  exists w' rs,
    runBlocks env structured plain w = (w', Ok rs)
    /\ chain env w (directivesOf structured plain) rs w'
    /\ List.length rs = List.length (directivesOf structured plain).
Proof.
  destruct (runBlocks_chain structured plain w) as (w' & rs & Hrun & Hchain).
  exists w', rs. split; [exact Hrun|]. split; [exact Hchain|].
  eapply chain_length; eauto.
Qed.

(** What the [try] of [executeTerminalCommand] does with a throw of
    [exec]: a result that carries the message. *)
Lemma exec_throw_becomes_result (command : string) (w : World) (e : exn) :
  safe (validateCommand command) = true ->
  ensureDir env (pathResolve env (TERMINAL_BASE_DIR env)) (processCounter w + 1) = None ->
  exec env (ViaExec command (pathResolve env (TERMINAL_BASE_DIR env))
              (JNum MAX_COMMAND_TIMEOUT) MAX_OUTPUT_SIZE (JObj []))
       (processCounter w + 1) = ExecThrows e ->
  exists w1 r,
    executeTerminalCommand env (JStr command) [] w = (w1, Ok r)
    /\ success r = false /\ stderr r = message e /\ exitCode r = JNum (-1)
    /\ launched w1 = launched w.
Proof.
  intros Hsafe Hdir Hexec. unfold executeTerminalCommand.
  rewrite Hsafe. cbn [negb Js.getField Js.withDefault validateWorkingDir processCounter withCounter].
  rewrite Hdir. cbn [Js.truthy].
  unfold executeNonInteractiveCommand.
  cbn [processCounter withCounter]. rewrite Hexec.
  eexists _, _. split; [reflexivity|]. simpl. auto.
Qed.

End Dispatcher.

(** ** What the timers and the bookkeeping leave alone *)

Section Frames.

Variable env : Env.

Lemma childKill_frame (h : N) (sig : Signal) (w : World) :
  let w' := fst (childKill env h sig w) in
  activeProcesses w' = activeProcesses w /\ processCounter w' = processCounter w
  /\ launched w' = launched w /\ timers w' = timers w /\ clock w' = clock w.
Proof.
  unfold childKill. destruct (killError env h sig); [simpl; auto|].
  destruct (childAt h w) as [c|]; [|simpl; auto].
  destruct (running c); simpl; auto.
Qed.

Lemma runCallback_frame (cb : Callback) (w : World) :
  let w' := runCallback env cb w in
  activeProcesses w' = activeProcesses w /\ processCounter w' = processCounter w
  /\ launched w' = launched w.
Proof.
  destruct cb as [id h|id h]; unfold runCallback.
  - destruct (hasProcess id w); [|auto].
    pose proof (childKill_frame h SIGTERM w) as (Ha & Hc & Hl & _).
    destruct (childKill env h SIGTERM w) as [w1 [b|e]]; simpl in *; auto.
  - destruct (hasProcess id w); [|auto].
    pose proof (childKill_frame h SIGKILL w) as (Ha & Hc & Hl & _). auto.
Qed.

Lemma advanceRounds_frame (rounds : nat) (target : N) (w : World) :
  let w' := advanceRounds rounds env target w in
  activeProcesses w' = activeProcesses w /\ processCounter w' = processCounter w
  /\ launched w' = launched w.
Proof.
  revert w. induction rounds as [|n IH]; intros w; cbn [advanceRounds]; [simpl; auto|].
  destruct (popEarliest (timers w)) as [[[due cb] rest]|]; [|simpl; auto].
  destruct (due <=? target)%N; [|simpl; auto].
  specialize (IH (runCallback env cb (withClock (N.max (clock w) due) (withTimers rest w)))).
  pose proof (runCallback_frame cb (withClock (N.max (clock w) due) (withTimers rest w)))
    as (Ha & Hc & Hl).
  cbv zeta in *. destruct IH as (Ha' & Hc' & Hl').
  rewrite Ha', Hc', Hl', Ha, Hc, Hl. simpl. auto.
Qed.

Lemma advance_frame (target : N) (w : World) :
  let w' := advance env target w in
  activeProcesses w' = activeProcesses w /\ processCounter w' = processCounter w
  /\ launched w' = launched w.
Proof. apply advanceRounds_frame. Qed.

Lemma childClosed_frame (h : N) (w : World) :
  let w' := childClosed h w in
  activeProcesses w' = activeProcesses w /\ processCounter w' = processCounter w
  /\ launched w' = launched w /\ timers w' = timers w /\ clock w' = clock w.
Proof. unfold childClosed. destruct (childAt h w); simpl; auto. Qed.

End Frames.

(** ** Missing commands and the background verb *)

Section Verbs.

Variable env : Env.

Lemma toLowerCase_nonEmpty (name : string) :
  nonEmpty (toLowerCase name) = true -> nonEmpty name = true.
Proof. destruct name; simpl; auto. Qed.

(** C5 (what the code does).  A structured block that parses to an object
    with a verb and no [command] leaves the world as it was, so nothing is
    spawned, and yields one failed result.  For the verbs execute and
    interactive the message names the missing command; for the verb
    background it is the message of an unknown operation, because the
    [switch] has no case for it. *)
Theorem missing_command_results (captured : string) (fields : list (string * json))
    (name : string) (w : World) :
  JSON_parse env (trim captured) = Ok (JObj fields) ->
  Js.getField "operation" fields = Some (JStr name) ->
  Js.getField "command" fields = None ->
  (toLowerCase name = "execute" ->
   structuredBlock env captured w
   = (w, invalidResult env "Execute operation requires command"))
  /\ (toLowerCase name = "interactive" ->
      structuredBlock env captured w
      = (w, invalidResult env "Interactive operation requires command"))
  /\ (toLowerCase name = "background" ->
      structuredBlock env captured w
      = (w, invalidResult env ("Unknown terminal operation: " ++ name))).
Proof.
  intros Hparse Hop Hcmd.
  assert (Hgo : forall v, toLowerCase name = v -> nonEmpty v = true ->
            structuredBlock env captured w
            = match dispatchOperation env (JStr name) (JObj fields) w with
              | (w1, Ok r) => (w1, r)
              | (w1, Throw e) => (w1, caughtResult env e)
              end).
  { intros v Hv Hne. unfold structuredBlock. rewrite Hparse.
    cbn [property]. rewrite Hop. unfold Js.whenTruthy. cbn [Js.truthy].
    rewrite (toLowerCase_nonEmpty name) by (now rewrite Hv). reflexivity. }
  repeat split; intros Hv; rewrite (Hgo _ Hv eq_refl);
    unfold dispatchOperation; cbn [fieldsOf]; rewrite Hv, Hcmd; reflexivity.
Qed.

(** C6 (what the code does).  A structured block whose verb is
    background, with or without a command, is answered as an unknown
    operation: the result fails, carries no [processId], and the world,
    registry and launch log included, is unchanged. *)
Theorem background_is_unknown_operation (captured : string)
    (fields : list (string * json)) (name : string) (w : World) :
  JSON_parse env (trim captured) = Ok (JObj fields) ->
  Js.getField "operation" fields = Some (JStr name) ->
  toLowerCase name = "background" ->
  exists r,
    structuredBlock env captured w = (w, r)
    /\ success r = false
    /\ processId r = None
    /\ stderr r = "Unknown terminal operation: " ++ name.
Proof.
  intros Hparse Hop Hv.
  exists (invalidResult env ("Unknown terminal operation: " ++ name)).
  split; [|auto].
  unfold structuredBlock. rewrite Hparse. cbn [property]. rewrite Hop.
  unfold Js.whenTruthy. cbn [Js.truthy].
  rewrite (toLowerCase_nonEmpty name) by (now rewrite Hv).
  unfold dispatchOperation. rewrite Hv. reflexivity.
Qed.

End Verbs.

Import Scenario Cases.

(** The theorem at [{"operation":"execute"}]. *)
Lemma missing_command_results_witness :
  structuredBlock echoEnv (directive "execute") emptyWorld
  = (emptyWorld, invalidResult echoEnv "Execute operation requires command").
Proof.
  exact (proj1 (missing_command_results echoEnv (directive "execute")
                  [("operation", JStr "execute")] "execute" emptyWorld
                  eq_refl eq_refl eq_refl) eq_refl).
Defined.

(** The theorem at [{"operation":"background","command":"sleep 60"}]. *)
Lemma background_is_unknown_operation_witness :
  exists r,
    structuredBlock echoEnv (directiveWith "background" "command" "sleep 60") emptyWorld
    = (emptyWorld, r)
    /\ success r = false /\ processId r = None
    /\ stderr r = "Unknown terminal operation: background".
Proof.
  exact (background_is_unknown_operation echoEnv
           (directiveWith "background" "command" "sleep 60")
           [("operation", JStr "background"); ("command", JStr "sleep 60")]
           "background" emptyWorld eq_refl eq_refl eq_refl).
Defined.

(** The whole run on a text that holds the background directive: one
    failed result, nothing launched, nothing registered. *)
Lemma background_run :
  executeTerminalCommands echoEnv
    (inlineBlock "terminal" (directiveWith "background" "command" "sleep 60"))
    emptyWorld
  = (emptyWorld,
     Ok [invalidResult echoEnv "Unknown terminal operation: background"]).
Proof. vm_compute. reflexivity. Qed.

(** The object of a structured block written on lines of its own also
    matches the plain pattern: after the structured loop has refused the
    directive, the plain loop runs its text as a shell command. *)
Lemma fenced_directive_is_also_run_as_plain :
  exists w r,
    executeTerminalCommands echoEnv fencedExecuteWithoutCommand emptyWorld
    = (w, Ok [invalidResult echoEnv "Execute operation requires command"; r])
    /\ launched w = [ViaExec (directive "execute") "/home/user"
                       (JNum MAX_COMMAND_TIMEOUT) MAX_OUTPUT_SIZE (JObj [])]
    /\ processId r = Some "proc_1".
Proof. eexists _, _. vm_compute. repeat split. Qed.

(** ** Interactive mode starts the program itself *)

Section Tokens.

Lemma split_not_nil (sep : ascii) (s : string) : split sep s <> [].
Proof.
  induction s as [|c s IH]; simpl; [discriminate|].
  destruct (Ascii.eqb c sep); [discriminate|].
  destruct (split sep s); [contradiction | discriminate].
Qed.

Lemma join_cons_char (sep : string) (c : ascii) (word : string) (rest : list string) :
  join sep (String c word :: rest) = String c (join sep (word :: rest)).
Proof. destruct rest; reflexivity. Qed.

Lemma join_cons_cons (sep first second : string) (rest : list string) :
  join sep (first :: second :: rest) = first ++ sep ++ join sep (second :: rest).
Proof. reflexivity. Qed.

(** Joining the pieces with the separator gives the string back. *)
Lemma join_split (sep : ascii) (s : string) :
  join (String sep EmptyString) (split sep s) = s.
Proof.
  induction s as [|c s IH]; simpl; [reflexivity|].
  destruct (Ascii.eqb c sep) eqn:E.
  - apply Ascii.eqb_eq in E. subst c.
    destruct (split sep s) as [|word rest] eqn:Es.
    + now destruct (split_not_nil sep s).
    + rewrite join_cons_cons, IH. reflexivity.
  - destruct (split sep s) as [|word rest] eqn:Es.
    + now destruct (split_not_nil sep s).
    + rewrite join_cons_char. now rewrite IH.
Qed.

Lemma includes_sep_cons (sep c : ascii) (word : string) :
  Ascii.eqb c sep = false ->
  includes (String c word) (String sep EmptyString)
  = includes word (String sep EmptyString).
Proof.
  intros E. cbn [includes startsWith].
  rewrite Ascii.eqb_sym, E. reflexivity.
Qed.

(** No piece contains the separator. *)
Lemma split_pieces_clean (sep : ascii) (s : string) :
  Forall (fun piece => includes piece (String sep EmptyString) = false) (split sep s).
Proof.
  induction s as [|c s IH]; simpl.
  - constructor; [reflexivity | constructor].
  - destruct (Ascii.eqb c sep) eqn:E.
    + constructor; [reflexivity | exact IH].
    + destruct (split sep s) as [|word rest]; [repeat constructor|].
      * cbn [includes startsWith]. rewrite Ascii.eqb_sym, E. reflexivity.
      * inversion IH; subst. constructor; [|assumption].
        now rewrite includes_sep_cons.
Qed.

End Tokens.

Section Modes.

Variable env : Env.

(** The launch log of execute mode: the request handed to [exec] when a
    child was started, nothing otherwise. *)
Lemma execute_launch_log (command dir procId : string) (timeout envVars : json)
    (w : World) :
  launched (fst (executeNonInteractiveCommand env command dir procId timeout envVars w))
  = match exec env (ViaExec command dir timeout MAX_OUTPUT_SIZE envVars)
                (processCounter w) with
    | ExecThrows _ => launched w
    | ExecRuns _ _ _ _ _ =>
        (launched w ++ [ViaExec command dir timeout MAX_OUTPUT_SIZE envVars])%list
    end.
Proof.
  unfold executeNonInteractiveCommand.
  set (shellRequest := ViaExec command dir timeout MAX_OUTPUT_SIZE envVars).
  destruct (exec env shellRequest (processCounter w)) as [e|p elapsed error out err];
    [reflexivity|].
  unfold execCallback. cbn [fst]. unfold deleteProcess. cbn [launched withRegistry].
  destruct (childClosed_frame (processCounter w)
    (advance env
       (clock (trackChild env procId (processCounter w) p timeout shellRequest w)
        + elapsed)
       (trackChild env procId (processCounter w) p timeout shellRequest w)))
    as (_ & _ & -> & _).
  destruct (advance_frame env
    (clock (trackChild env procId (processCounter w) p timeout shellRequest w) + elapsed)
    (trackChild env procId (processCounter w) p timeout shellRequest w)) as (_ & _ & ->).
  reflexivity.
Qed.

(** C9.  Interactive mode splits the command at every space and calls
    [spawn], which takes no shell option here, with the first piece as
    the program and the other pieces as its argument vector; the pieces
    joined by spaces are the command again and none contains a space, so
    pipes, redirections, quotes and variables reach the program as plain
    arguments.  Execute mode hands the whole command line to [exec],
    which runs it in a shell. *)
Theorem interactive_spawns_program_directly (command dir procId : string)
    (timeout envVars : json) (w : World) :
  let tokens := split SPACE command in
  let request := ViaSpawn (hd EmptyString tokens) (tl tokens) dir envVars in
  let shellRequest := ViaExec command dir timeout MAX_OUTPUT_SIZE envVars in
  launched (fst (executeInteractiveCommand env command dir procId timeout envVars w))
  = match spawn env request (processCounter w) with
    | SpawnThrows _ => launched w
    | SpawnRuns _ _ _ _ => (launched w ++ [request])%list
    end
  /\ hd EmptyString tokens :: tl tokens = tokens
  /\ join " " tokens = command
  /\ Forall (fun token => includes token " " = false) tokens
  /\ launched (fst (executeNonInteractiveCommand env command dir procId timeout envVars w))
     = match exec env shellRequest (processCounter w) with
       | ExecThrows _ => launched w
       | ExecRuns _ _ _ _ _ => (launched w ++ [shellRequest])%list
       end.
Proof.
  intros tokens request shellRequest. repeat split.
  - unfold executeInteractiveCommand. fold tokens. fold request.
    destruct (spawn env request (processCounter w)) as [e|p elapsed events final];
      [reflexivity|].
    match goal with
    | |- context [spawnFinished ?a ?b ?c ?d ?e ?f ?g] =>
        destruct (spawnFinished a b c d e f g) as [w4 r] eqn:E
    end.
    cbn [fst].
    assert (launched w4 = launched (advance env
              (clock (trackChild env procId (processCounter w) p timeout request w)
               + elapsed)
              (trackChild env procId (processCounter w) p timeout request w))).
    { unfold spawnFinished in E. destruct final as [exit|e]; injection E as <- _;
        unfold deleteProcess; cbn [launched withRegistry]; [|reflexivity].
      apply childClosed_frame. }
    rewrite H. destruct (advance_frame env
      (clock (trackChild env procId (processCounter w) p timeout request w) + elapsed)
      (trackChild env procId (processCounter w) p timeout request w)) as (_ & _ & ->).
    reflexivity.
  - destruct tokens eqn:E; [|reflexivity].
    now destruct (split_not_nil SPACE command).
  - apply join_split.
  - apply split_pieces_clean.
  - apply execute_launch_log.
Qed.

End Modes.

(** A pipeline in interactive mode: the program is [ls] and the bar is
    one of its arguments. *)
Lemma interactive_pipeline_is_not_a_pipeline :
  launched (fst (executeTerminalCommands echoEnv
                   (inlineBlock "cmd" (directiveWith "interactive" "command" "ls | wc -c"))
                   emptyWorld))
  = [ViaSpawn "ls" ["|"; "wc"; "-c"] "/home/user" (JObj [])].
Proof. vm_compute. reflexivity. Qed.

(** ** Output capture *)

Section OutputCap.

Lemma lengthN_append (a b : string) : lengthN (a ++ b) = (lengthN a + lengthN b)%N.
Proof.
  induction a as [|c a IH]; simpl; [reflexivity|].
  rewrite IH. lia.
Qed.

Lemma lengthN_repeatChar (c : ascii) (n : N) : lengthN (repeatChar c n) = n.
Proof.
  unfold repeatChar. induction n as [|n IH] using N.peano_ind; [reflexivity|].
  rewrite N.iter_succ. cbn [lengthN]. now rewrite IH.
Qed.

Variable env : Env.

(** C8 (as amended).  In execute mode the engine hands the cap of 1 MiB
    to [exec] as [maxBuffer] and returns as [stdout] exactly the output
    [exec] hands back, with no marker of its own, so the capture stays
    within the cap whenever [exec] keeps to [maxBuffer].  The result
    succeeds when [exec] reports no error and fails when it reports one
    whose code is not 0, as it does when the output passes
    [maxBuffer]. *)
Theorem execute_cap_is_exec_maxBuffer (command dir procId : string)
    (timeout envVars : json) (w : World)
    (p : option N) (elapsed : N) (error : option ExecError) (out err : string) :
  exec env (ViaExec command dir timeout MAX_OUTPUT_SIZE envVars) (processCounter w)
  = ExecRuns p elapsed error out err ->
  exists w' r,
    executeNonInteractiveCommand env command dir procId timeout envVars w = (w', Ok r)
    /\ launched w'
       = (launched w ++ [ViaExec command dir timeout MAX_OUTPUT_SIZE envVars])%list
    /\ stdout r = out
    /\ ((lengthN out <= MAX_OUTPUT_SIZE)%N -> (lengthN (stdout r) <= MAX_OUTPUT_SIZE)%N)
    /\ (error = None -> success r = true /\ exitCode r = JNum 0)
    /\ (forall e, error = Some e -> code e <> Some (JNum 0) -> success r = false).
Proof.
  intros Hexec.
  pose proof (execute_launch_log env command dir procId timeout envVars w) as Hlog.
  rewrite Hexec in Hlog.
  unfold executeNonInteractiveCommand in *. rewrite Hexec in *.
  unfold execCallback in *. eexists _, _. split; [reflexivity|].
  split; [exact Hlog|].
  cbn [stdout success exitCode]. split; [reflexivity|]. split; [auto|]. split.
  - intros ->. auto.
  - intros e -> Hcode. destruct (code e) as [[| |z| | |]|]; try reflexivity.
    destruct z; try reflexivity. congruence.
Qed.

(** Interactive mode has no cap: [stdout] is every chunk the child
    wrote, one after the other. *)
Lemma interactive_output_is_every_chunk (command dir procId : string)
    (timeout envVars : json) (w : World)
    (p : option N) (elapsed : N) (events : list StreamEvent) (exit : option Z) :
  spawn env (ViaSpawn (hd EmptyString (split SPACE command))
               (tl (split SPACE command)) dir envVars) (processCounter w)
  = SpawnRuns p elapsed events (Closed exit) ->
  exists w' r,
    executeInteractiveCommand env command dir procId timeout envVars w = (w', Ok r)
    /\ stdout r = stdoutOf events
    /\ success r = match exit with Some 0%Z => true | _ => false end.
Proof.
  intros Hspawn. unfold executeInteractiveCommand. rewrite Hspawn.
  unfold spawnFinished. eexists _, _. split; [reflexivity|].
  cbn [stdout success]. auto.
Qed.

End OutputCap.

(** The theorem on the platform where the output passes the cap. *)
Lemma execute_cap_is_exec_maxBuffer_witness :
  exists w' r,
    executeNonInteractiveCommand floodEnv "yes" "/home/user" "proc_1"
      (JNum 30000) (JObj []) emptyWorld = (w', Ok r)
    /\ stdout r = repeatChar "y" MAX_OUTPUT_SIZE
    /\ success r = false.
Proof.
  destruct (execute_cap_is_exec_maxBuffer floodEnv "yes" "/home/user" "proc_1"
              (JNum 30000) (JObj []) emptyWorld (Some 1000%N) 10
              (Some (mkExecError (Some (JStr "ERR_CHILD_PROCESS_STDIO_MAXBUFFER"))
                       "stdout maxBuffer length exceeded"))
              (repeatChar "y" MAX_OUTPUT_SIZE) EmptyString eq_refl)
    as (w' & r & Hrun & _ & Hout & _ & _ & Hfail).
  exists w', r. split; [exact Hrun|]. split; [exact Hout|].
  apply (Hfail _ eq_refl). discriminate.
Defined.

(** C8, as stated, fails.  In execute mode, when the output passes the
    cap, the result carries the capped output and nothing else, no
    marker, and it fails.  In interactive mode the result carries all
    1 MiB + 1 bytes. *)
Lemma output_cap_counterexample :
  (exists w r,
     executeNonInteractiveCommand floodEnv "yes" "/home/user" "proc_1"
       (JNum 30000) (JObj []) emptyWorld = (w, Ok r)
     /\ stdout r = repeatChar "y" MAX_OUTPUT_SIZE
     /\ lengthN (stdout r) = MAX_OUTPUT_SIZE
     /\ success r = false
     /\ exitCode r = JStr "ERR_CHILD_PROCESS_STDIO_MAXBUFFER")
  /\ (exists w r,
        executeInteractiveCommand floodEnv "yes" "/home/user" "proc_1"
          (JNum 30000) (JObj []) emptyWorld = (w, Ok r)
        /\ lengthN (stdout r) = (MAX_OUTPUT_SIZE + 1)%N
        /\ (MAX_OUTPUT_SIZE < lengthN (stdout r))%N
        /\ success r = true).
Proof.
  split.
  - eexists _, _. split; [reflexivity|]. cbn [stdout success exitCode execCallback snd].
    split; [reflexivity|]. split; [apply lengthN_repeatChar|]. split; reflexivity.
  - destruct (interactive_output_is_every_chunk floodEnv "yes" "/home/user" "proc_1"
                (JNum 30000) (JObj []) emptyWorld (Some 1000%N) 10
                [StdoutData (repeatChar "y" (MAX_OUTPUT_SIZE + 1))] (Some 0%Z) eq_refl)
      as (w & r & Hrun & Hout & Hok).
    exists w, r. split; [exact Hrun|].
    assert (Hlen : lengthN (stdout r) = (MAX_OUTPUT_SIZE + 1)%N).
    { rewrite Hout. cbn [stdoutOf]. rewrite lengthN_append, lengthN_repeatChar.
      cbn [lengthN]. lia. }
    split; [exact Hlen|]. split; [rewrite Hlen; lia | exact Hok].
Qed.

(** ** Registry and child heap *)

Section RegistryFacts.

Lemma N_to_string_inj (a b : N) : N_to_string a = N_to_string b -> a = b.
Proof.
  unfold N_to_string. intros H.
  apply (f_equal NilEmpty.uint_of_string) in H.
  rewrite !NilEmpty.usu in H. injection H as H.
  apply (f_equal N.of_uint) in H. now rewrite !DecimalN.Unsigned.of_to in H.
Qed.

Lemma procName_inj (a b : N) : procName a = procName b -> a = b.
Proof.
  unfold procName. cbn [append]. intros H. injection H as H.
  now apply N_to_string_inj.
Qed.

Lemma get_In (key : string) (m : list (string * N)) (v : N) :
  Registry.get key m = Some v -> In (key, v) m.
Proof.
  induction m as [|[k v'] rest IH]; simpl; [discriminate|].
  destruct (String.eqb k key) eqn:E.
  - apply String.eqb_eq in E. intros [= ->]. left. now subst.
  - intros H. right. auto.
Qed.

Lemma get_set_same (key : string) (v : N) (m : list (string * N)) :
  Registry.get key (Registry.set key v m) = Some v.
Proof.
  induction m as [|[k v'] rest IH]; simpl.
  - now rewrite String.eqb_refl.
  - destruct (String.eqb k key) eqn:E; simpl; rewrite E; auto.
Qed.

Lemma get_set_other (key key' : string) (v : N) (m : list (string * N)) :
  key <> key' -> Registry.get key (Registry.set key' v m) = Registry.get key m.
Proof.
  intros Hne. induction m as [|[k v'] rest IH]; simpl.
  - destruct (String.eqb key' key) eqn:E; [|reflexivity].
    apply String.eqb_eq in E. congruence.
  - destruct (String.eqb k key') eqn:E; simpl.
    + apply String.eqb_eq in E. subst k.
      destruct (String.eqb key' key) eqn:E2; [|reflexivity].
      apply String.eqb_eq in E2. congruence.
    + now rewrite IH.
Qed.

Lemma get_delete_same (key : string) (m : list (string * N)) :
  Registry.get key (Registry.delete key m) = None.
Proof.
  induction m as [|[k v'] rest IH]; simpl; [reflexivity|].
  destruct (String.eqb k key) eqn:E; simpl; [exact IH|]. now rewrite E.
Qed.

Lemma get_delete_other (key key' : string) (m : list (string * N)) :
  key <> key' -> Registry.get key (Registry.delete key' m) = Registry.get key m.
Proof.
  intros Hne. induction m as [|[k v'] rest IH]; simpl; [reflexivity|].
  destruct (String.eqb k key') eqn:E; simpl.
  - apply String.eqb_eq in E. subst k.
    destruct (String.eqb key' key) eqn:E2; [|exact IH].
    apply String.eqb_eq in E2. congruence.
  - now rewrite IH.
Qed.

Lemma In_set (key key' : string) (v v' : N) (m : list (string * N)) :
  In (key, v) (Registry.set key' v' m) -> (key, v) = (key', v') \/ In (key, v) m.
Proof.
  induction m as [|[k u] rest IH]; simpl.
  - intros [H|[]]. left. now symmetry.
  - destruct (String.eqb k key') eqn:E; simpl.
    + apply String.eqb_eq in E. subst k. intros [H|H]; auto.
    + intros [H|H]; auto. destruct (IH H); auto.
Qed.

Lemma In_delete (key key' : string) (v : N) (m : list (string * N)) :
  In (key, v) (Registry.delete key' m) -> In (key, v) m /\ key <> key'.
Proof.
  induction m as [|[k u] rest IH]; simpl; [intros []|].
  destruct (String.eqb k key') eqn:E; simpl.
  - intros H. destruct (IH H). auto.
  - intros [H|H].
    + injection H as -> ->. split; [now left|].
      intros ->. now rewrite String.eqb_refl in E.
    + destruct (IH H). auto.
Qed.

Lemma keys_delete (key : string) (m : list (string * N)) :
  ~ In key (map fst (Registry.delete key m)).
Proof.
  intros H. apply in_map_iff in H. destruct H as ([k v] & Hk & Hin).
  simpl in Hk. subst k. apply In_delete in Hin. now destruct Hin.
Qed.


Lemma lookupChild_update (h h' : N) (c : ChildProcess) (cs : list (N * ChildProcess)) :
  lookupChild h (updateChild h' c cs)
  = if N.eqb h' h
    then match lookupChild h cs with Some _ => Some c | None => None end
    else lookupChild h cs.
Proof.
  induction cs as [|[k c'] rest IH]; simpl.
  - now destruct (N.eqb h' h).
  - destruct (N.eqb k h') eqn:E; simpl.
    + apply N.eqb_eq in E. subst k. destruct (N.eqb h' h); reflexivity.
    + destruct (N.eqb k h) eqn:E2; simpl.
      * apply N.eqb_eq in E2. subst k. rewrite N.eqb_sym in E. now rewrite E.
      * exact IH.
Qed.

Lemma In_removeNth {A : Type} (x y : A) (l : list A) (i : nat) :
  In x l -> nth_error l i = Some y -> In x (removeNth i l) \/ x = y.
Proof.
  revert i. induction l as [|a rest IH]; intros i Hin Hnth; [contradiction|].
  destruct i as [|i]; simpl in *.
  - injection Hnth as ->. destruct Hin; auto.
  - destruct Hin as [->|Hin]; [auto|].
    destruct (IH i Hin Hnth); auto.
Qed.

Lemma removeNth_subset {A : Type} (x : A) (l : list A) (i : nat) :
  In x (removeNth i l) -> In x l.
Proof.
  revert i. induction l as [|a rest IH]; intros i; destruct i; simpl; auto.
  intros [H|H]; eauto.
Qed.

End RegistryFacts.

Section BackgroundMode.

Lemma startsWith_refl (p : string) : startsWith p p = true.
Proof. induction p as [|a p IH]; simpl; [reflexivity|]. now rewrite Ascii.eqb_refl. Qed.

Lemma includes_suffix (a p : string) : includes (a ++ p) p = true.
Proof.
  induction a as [|c a IH]; cbn [append].
  - destruct p; cbn [includes]; now rewrite startsWith_refl.
  - cbn [includes]. rewrite IH. now destruct (startsWith _ _).
Qed.

Lemma includes_skip (a s p : string) :
  includes s p = true -> includes (a ++ s) p = true.
Proof.
  intros H. induction a as [|c a IH]; cbn [append]; [exact H|].
  cbn [includes]. rewrite IH. now destruct (startsWith _ _).
Qed.

(** The sibling path: [executeBackground] of [commands.ts] resolves as
    soon as the child reports ['spawn'], with success, after it has
    started the command detached and unreferenced and put it in its
    registry under the id that its output names. *)
Lemma executeBackground_resolves_on_spawn (suffix commandText dir : string)
    (shellOption : json) (x : Commands.Executor) (child p : N) :
  exists x' r,
    Commands.executeBackground (Commands.Spawned child p) suffix commandText dir
      shellOption x = (x', Ok r)
    /\ Commands.success r = true
    /\ Commands.pid r = Some p
    /\ Registry.get (Commands.backgroundId x suffix) (Commands.runningProcesses x')
       = Some child
    /\ includes (Commands.output r) (Commands.backgroundId x suffix) = true
    /\ Commands.started x'
       = (Commands.started x
            ++ [Commands.mkBackgroundLaunch commandText dir shellOption true true])%list.
Proof.
  eexists _, _. split; [reflexivity|].
  split; [reflexivity|]. split; [reflexivity|]. split; [apply get_set_same|].
  split; [|reflexivity].
  cbn [Commands.output]. do 3 apply includes_skip. apply includes_suffix.
Qed.

End BackgroundMode.

Section ChildFacts.

Variable env : Env.

Lemma isRunning_childKill_SIGTERM (h h' : N) (w : World) :
  isRunning h (fst (childKill env h' SIGTERM w)) = isRunning h w.
Proof.
  unfold childKill. destruct (killError env h' SIGTERM); [reflexivity|].
  destruct (childAt h' w) as [c|] eqn:E; [|reflexivity].
  destruct (running c) eqn:Er; [|reflexivity].
  unfold isRunning, childAt in *. cbn [fst children withChildren].
  rewrite lookupChild_update. destruct (N.eqb h' h) eqn:Eh; [|reflexivity].
  apply N.eqb_eq in Eh. subst h'. rewrite E. simpl. now rewrite Er.
Qed.

Lemma isRunning_childKill_other (h h' : N) (sig : Signal) (w : World) :
  h' <> h -> isRunning h (fst (childKill env h' sig w)) = isRunning h w.
Proof.
  intros Hne. unfold childKill. destruct (killError env h' sig); [reflexivity|].
  destruct (childAt h' w) as [c|] eqn:E; [|reflexivity].
  destruct (running c) eqn:Er; [|reflexivity].
  unfold isRunning, childAt in *. cbn [fst children withChildren].
  rewrite lookupChild_update. destruct (N.eqb h' h) eqn:Eh; [|reflexivity].
  apply N.eqb_eq in Eh. congruence.
Qed.

Lemma isRunning_childKill_SIGKILL (h : N) (w : World) :
  killError env h SIGKILL = None ->
  isRunning h (fst (childKill env h SIGKILL w)) = false.
Proof.
  intros Hk. unfold childKill. rewrite Hk.
  destruct (childAt h w) as [c|] eqn:E.
  - destruct (running c) eqn:Er.
    + unfold isRunning, childAt in *. cbn [fst children withChildren].
      rewrite lookupChild_update, N.eqb_refl, E. reflexivity.
    + unfold isRunning. cbn [fst]. now rewrite E.
  - unfold isRunning. cbn [fst]. now rewrite E.
Qed.

Lemma isRunning_childKill_stays_off (h h' : N) (sig : Signal) (w : World) :
  isRunning h w = false -> isRunning h (fst (childKill env h' sig w)) = false.
Proof.
  intros Hoff. destruct (N.eq_dec h' h) as [->|Hne].
  - unfold childKill. destruct (killError env h sig); [exact Hoff|].
    pose proof Hoff as Hoff'. unfold isRunning in Hoff'.
    destruct (childAt h w) as [c|] eqn:E; [|exact Hoff].
    rewrite Hoff'. exact Hoff.
  - now rewrite isRunning_childKill_other.
Qed.

Lemma signalsOf_childKill (h h' : N) (sig : Signal) (w : World) :
  signalsOf h (fst (childKill env h' sig w)) = signalsOf h w
  \/ signalsOf h (fst (childKill env h' sig w)) = (signalsOf h w ++ [sig])%list.
Proof.
  unfold childKill. destruct (killError env h' sig); [now left|].
  destruct (childAt h' w) as [c|] eqn:E; [|now left].
  destruct (running c); [|now left].
  unfold signalsOf, childAt in *. cbn [fst children withChildren].
  rewrite lookupChild_update. destruct (N.eqb h' h) eqn:Eh; [|now left].
  apply N.eqb_eq in Eh. subst h'. rewrite E. now right.
Qed.

Lemma signalsOf_childKill_other (h h' : N) (sig : Signal) (w : World) :
  h' <> h -> signalsOf h (fst (childKill env h' sig w)) = signalsOf h w.
Proof.
  intros Hne. unfold childKill. destruct (killError env h' sig); [reflexivity|].
  destruct (childAt h' w) as [c|] eqn:E; [|reflexivity].
  destruct (running c); [|reflexivity].
  unfold signalsOf, childAt in *. cbn [fst children withChildren].
  rewrite lookupChild_update. destruct (N.eqb h' h) eqn:Eh; [|reflexivity].
  apply N.eqb_eq in Eh. congruence.
Qed.

Lemma childAt_childClosed (h h' : N) (w : World) :
  childAt h (childClosed h' w)
  = if N.eqb h' h
    then match childAt h w with
         | Some c => Some (mkChild (pid c) (killed c) false (received c))
         | None => None
         end
    else childAt h w.
Proof.
  unfold childClosed. destruct (childAt h' w) as [c|] eqn:E.
  - unfold childAt in *. cbn [children withChildren]. rewrite lookupChild_update.
    destruct (N.eqb h' h) eqn:Eh; [|reflexivity].
    apply N.eqb_eq in Eh. subst h'. now rewrite E.
  - destruct (N.eqb h' h) eqn:Eh; [|reflexivity].
    apply N.eqb_eq in Eh. subst h'. now rewrite E.
Qed.

Lemma childAt_newChild_other (h h' : N) (p : option N) (w : World) :
  h' <> h -> childAt h (newChild h' p w) = childAt h w.
Proof.
  intros Hne. unfold childAt, newChild. cbn [children withChildren lookupChild].
  destruct (N.eqb h' h) eqn:E; [|reflexivity].
  apply N.eqb_eq in E. congruence.
Qed.

End ChildFacts.

(** ** Killing a tracked process *)

Section Kill.

Variable env : Env.

Lemma childKill_ok (h : N) (sig : Signal) (w : World) :
  killError env h sig = None -> exists b, snd (childKill env h sig w) = Ok b.
Proof.
  intros Hk. unfold childKill. rewrite Hk.
  destruct (childAt h w) as [c|]; [destruct (running c)|]; simpl; eauto.
Qed.

Lemma killProcess_found (id : string) (h : N) (w : World) :
  Registry.get id (activeProcesses w) = Some h ->
  killError env h SIGTERM = None ->
  killProcess env (JStr id) w
  = (deleteProcess id (setTimeout (OnGrace id h) GRACE_MS
                         (fst (childKill env h SIGTERM w))),
     CHECK_MARK ++ " Process " ++ id ++ " terminated").
Proof.
  intros Hget Hk. unfold killProcess. rewrite Hget.
  destruct (childKill_ok h SIGTERM w Hk) as [b Hb].
  destruct (childKill env h SIGTERM w) as [w1 o]. simpl in Hb. subst o. reflexivity.
Qed.


End Kill.


(** Kill and list in one reply: the listing is empty although the
    process is alive. *)
Lemma kill_then_list_run :
  exists w rs,
    executeTerminalCommands echoEnv
      (inlineBlock "terminal" (directiveWith "kill" "processId" "proc_1")
       ++ inlineBlock "terminal" (directive "list_processes")) oneTracked
    = (w, Ok rs)
    /\ map success rs = [true; true]
    /\ map stdout rs = [CHECK_MARK ++ " Process proc_1 terminated";
                        CLIPBOARD ++ " No active processes"]
    /\ isRunning 1 w = true.
Proof. eexists _, _. vm_compute. repeat split. Qed.

(** ** The event loop keeps names and children paired *)

Section Coherence.

Variable env : Env.

Lemma runCallback_children (cb : Callback) (w : World) :
  children (runCallback env cb w)
  = if hasProcess (callbackId cb) w
    then children (fst (childKill env (callbackChild cb)
                          (match cb with
                           | OnTimeout _ _ => SIGTERM
                           | OnGrace _ _ => SIGKILL
                           end) w))
    else children w.
Proof.
  destruct cb as [id h|id h]; cbn [runCallback callbackId callbackChild].
  - destruct (hasProcess id w); [|reflexivity].
    destruct (childKill env h SIGTERM w) as [w1 [b|e]]; reflexivity.
  - destruct (hasProcess id w); reflexivity.
Qed.

Lemma runCallback_timers (cb : Callback) (w : World) :
  timers (runCallback env cb w) = timers w
  \/ (exists id h, cb = OnTimeout id h /\ hasProcess id w = true
        /\ timers (runCallback env cb w)
           = (timers w ++ [((clock w + GRACE_MS)%N, OnGrace id h)])%list).
Proof.
  destruct cb as [id h|id h]; cbn [runCallback].
  - destruct (hasProcess id w) eqn:Eh; [|now left].
    pose proof (childKill_frame env h SIGTERM w) as (_ & _ & _ & Ht & Hc).
    destruct (childKill env h SIGTERM w) as [w1 [b|e]]; cbn [fst] in *.
    + right. exists id, h. split; [reflexivity|]. split; [exact Eh|].
      unfold setTimeout. cbn [timers withTimers]. now rewrite Ht, Hc.
    + now left.
  - destruct (hasProcess id w); [|now left].
    left. apply childKill_frame.
Qed.

Lemma runCallback_clock (cb : Callback) (w : World) :
  clock (runCallback env cb w) = clock w.
Proof.
  destruct cb as [id h|id h]; cbn [runCallback].
  - destruct (hasProcess id w); [|reflexivity].
    pose proof (childKill_frame env h SIGTERM w) as (_ & _ & _ & _ & Hc).
    destruct (childKill env h SIGTERM w) as [w1 [b|e]]; cbn [fst] in *; auto.
  - destruct (hasProcess id w); [|reflexivity]. apply childKill_frame.
Qed.

(** The three ways [killProcess] can end. *)
Lemma killProcess_cases (v : json) (w : World) :
  fst (killProcess env v w) = w
  \/ exists id h,
       v = JStr id /\ Registry.get id (activeProcesses w) = Some h
       /\ fst (killProcess env v w)
          = deleteProcess id (setTimeout (OnGrace id h) GRACE_MS
                                (fst (childKill env h SIGTERM w))).
Proof.
  destruct v as [| | |id| |]; try (now left).
  cbn [killProcess]. destruct (Registry.get id (activeProcesses w)) as [h|] eqn:E;
    [|now left].
  unfold childKill. destruct (killError env h SIGTERM) eqn:Ek; [now left|].
  right. exists id, h. split; [reflexivity|]. split; [exact E|].
  unfold childKill. rewrite Ek.
  destruct (childAt h w) as [c|]; [destruct (running c)|]; reflexivity.
Qed.

Lemma coherent_frame (w w' : World) :
  activeProcesses w' = activeProcesses w -> timers w' = timers w ->
  processCounter w' = processCounter w -> coherent w -> coherent w'.
Proof. unfold coherent. intros -> -> ->. auto. Qed.

Lemma step_counter (ev : Event) (w w' : World) :
  step env ev w = Some w' -> (processCounter w <= processCounter w')%N.
Proof.
  destruct ev as [t|i|h|h|p timeout request|v|]; cbn [step].
  - destruct (andb _ _); intros [= <-]. simpl. lia.
  - destruct (nth_error (timers w) i) as [[due cb]|]; [|discriminate].
    destruct (due <=? clock w)%N; intros [= <-].
    destruct (runCallback_frame env cb (withTimers (removeNth i (timers w)) w))
      as (_ & -> & _). simpl. lia.
  - destruct (isRunning h w); intros [= <-].
    destruct (childClosed_frame h w) as (_ & -> & _). lia.
  - destruct (childAt h w) as [c|]; [|discriminate].
    destruct (running c); intros [= <-]. simpl. lia.
  - intros [= <-]. simpl. lia.
  - intros [= <-]. destruct (killProcess_cases v w) as [->|(id & h & _ & _ & ->)];
      [lia|].
    unfold deleteProcess, setTimeout. cbn [processCounter withRegistry withTimers].
    destruct (childKill_frame env h SIGTERM w) as (_ & -> & _). lia.
  - intros [= <-]. simpl. lia.
Qed.

(** Coherence is an invariant of the event loop. *)
Lemma step_coherent (ev : Event) (w w' : World) :
  coherent w -> step env ev w = Some w' -> coherent w'.
Proof.
  intros [Hreg Htim].
  destruct ev as [t|i|h|h|p timeout request|v|]; cbn [step].
  - destruct (andb _ _); intros [= <-]. split; assumption.
  - destruct (nth_error (timers w) i) as [[due cb]|] eqn:En; [|discriminate].
    destruct (due <=? clock w)%N; intros [= <-].
    set (w1 := withTimers (removeNth i (timers w)) w).
    destruct (runCallback_frame env cb w1) as (Ha & Hc & _).
    split.
    + intros id h. rewrite Ha, Hc. apply Hreg.
    + intros d cb'. rewrite Hc. cbn [processCounter w1 withTimers].
      destruct (runCallback_timers cb w1) as [->|(id & h & -> & _ & ->)].
      * cbn [timers w1 withTimers]. intros H. apply removeNth_subset in H. eauto.
      * cbn [timers w1 withTimers]. intros H. apply in_app_or in H.
        destruct H as [H|[H|[]]].
        -- apply removeNth_subset in H. eauto.
        -- injection H as _ <-. apply nth_error_In in En.
           apply (Htim _ _ En).
  - destruct (isRunning h w); intros [= <-].
    destruct (childClosed_frame h w) as (Ha & Hc & _ & Ht & _).
    eapply coherent_frame; eauto. split; assumption.
  - destruct (childAt h w) as [c|]; [|discriminate].
    destruct (running c); intros [= <-]. split.
    + intros id h'. cbn [deleteProcess activeProcesses processCounter withRegistry].
      intros H. apply In_delete in H. destruct H. auto.
    + exact Htim.
  - intros [= <-]. unfold trackChild, setTimeout, setProcess, newChild. split.
    + intros id h. cbn. intros H. apply In_set in H. destruct H as [H|H].
      * injection H as -> ->. split; [reflexivity | lia].
      * destruct (Hreg _ _ H). split; [assumption | lia].
    + intros d cb. cbn. intros H. apply in_app_or in H. destruct H as [H|[H|[]]].
      * destruct (Htim _ _ H). split; [assumption | lia].
      * injection H as _ <-. cbn. split; [reflexivity | lia].
  - intros [= <-]. destruct (killProcess_cases v w) as [->|(id & h & _ & Hget & ->)].
    + split; assumption.
    + destruct (childKill_frame env h SIGTERM w) as (Ha & Hc & _ & Ht & _).
      unfold deleteProcess, setTimeout. split.
      * intros id' h'. cbn. rewrite Ha, Hc. intros H. apply In_delete in H.
        destruct H. auto.
      * intros d cb. cbn. rewrite Ht, Hc. intros H. apply in_app_or in H.
        destruct H as [H|[H|[]]]; [eauto|].
        injection H as _ <-. cbn. apply Hreg. now apply get_In.
  - intros [= <-]. split.
    + intros id h H. destruct (Hreg id h H). split; [assumption | cbn; lia].
    + intros d cb H. destruct (Htim d cb H). split; [assumption | cbn; lia].
Qed.

Lemma emptyWorld_coherent : coherent emptyWorld.
Proof. split; intros ? ? []. Qed.

End Coherence.

(** ** After [killProcess] nothing escalates *)

Section NoEscalation.

Variable env : Env.
Variable h : N.

Lemma get_delete_none (key key' : string) (m : list (string * N)) :
  Registry.get key m = None -> Registry.get key (Registry.delete key' m) = None.
Proof.
  intros H. destruct (String.eqb key key') eqn:E.
  - apply String.eqb_eq in E. subst. apply get_delete_same.
  - rewrite get_delete_other; [exact H|]. intros ->. now rewrite String.eqb_refl in E.
Qed.

Lemma step_forgotten (ev : Event) (w w' : World) :
  forgotten h w -> step env ev w = Some w' -> forgotten h w'.
Proof.
  intros (Hco & Hle & Hget) Hstep. split; [eapply step_coherent; eauto|].
  split; [pose proof (step_counter env ev w w' Hstep); lia|].
  clear Hco. revert Hstep. destruct ev as [t|i|h'|h'|p timeout request|v|]; cbn [step].
  - destruct (andb _ _); intros [= <-]. exact Hget.
  - destruct (nth_error (timers w) i) as [[due cb]|]; [|discriminate].
    destruct (due <=? clock w)%N; intros [= <-].
    destruct (runCallback_frame env cb (withTimers (removeNth i (timers w)) w))
      as (-> & _). exact Hget.
  - destruct (isRunning h' w); intros [= <-].
    destruct (childClosed_frame h' w) as (-> & _). exact Hget.
  - destruct (childAt h' w) as [c|]; [|discriminate].
    destruct (running c); intros [= <-].
    cbn [deleteProcess activeProcesses withRegistry]. now apply get_delete_none.
  - intros [= <-]. unfold trackChild, setTimeout, setProcess, newChild. cbn.
    rewrite get_set_other; [exact Hget|].
    intros E. apply procName_inj in E. lia.
  - intros [= <-].
    destruct (killProcess_cases env v w) as [->|(id & h' & _ & _ & ->)]; [exact Hget|].
    unfold deleteProcess, setTimeout. cbn.
    destruct (childKill_frame env h' SIGTERM w) as (-> & _).
    now apply get_delete_none.
  - intros [= <-]. exact Hget.
Qed.

(** Under [forgotten], an event sends child [h] nothing but SIGTERM and
    only its own exit ends it. *)
Lemma step_spares_forgotten (ev : Event) (w w' : World) :
  forgotten h w -> step env ev w = Some w' ->
  (forall sig, In sig (signalsOf h w') -> In sig (signalsOf h w) \/ sig = SIGTERM)
  /\ (ev <> Exit h -> isRunning h w' = isRunning h w).
Proof.
  intros (Hco & Hle & Hget) Hstep.
  revert Hstep. destruct ev as [t|i|h'|h'|p timeout request|v|]; cbn [step].
  - destruct (andb _ _); intros [= <-]. split; [auto | reflexivity].
  - destruct (nth_error (timers w) i) as [[due cb]|] eqn:En; [|discriminate].
    destruct (due <=? clock w)%N; intros [= <-].
    set (w1 := withTimers (removeNth i (timers w)) w).
    assert (Hch : exists hk sig,
               children (runCallback env cb w1) = children (fst (childKill env hk sig w1))
               /\ (sig = SIGTERM \/ hk <> h)
            \/ children (runCallback env cb w1) = children w1).
    { rewrite runCallback_children.
      destruct (hasProcess (callbackId cb) w1) eqn:Eh; [|exists h, SIGTERM; now right].
      destruct cb as [id hk|id hk]; cbn [callbackId callbackChild] in *.
      - exists hk, SIGTERM. left. auto.
      - exists hk, SIGKILL. left. split; [reflexivity|]. right. intros ->.
        apply nth_error_In in En. destruct Hco as [_ Htim].
        destruct (Htim _ _ En) as [Hid _]. cbn in Hid. subst id.
        unfold hasProcess, Registry.has in Eh. cbn in Eh. now rewrite Hget in Eh. }
    destruct Hch as (hk & sig & [[Hch Hsig]|Hch]).
    + unfold signalsOf, isRunning, childAt. rewrite Hch.
      change (lookupChild h (children (fst (childKill env hk sig w1))))
        with (childAt h (fst (childKill env hk sig w1))).
      fold (signalsOf h (fst (childKill env hk sig w1))).
      fold (isRunning h (fst (childKill env hk sig w1))).
      destruct Hsig as [->|Hne].
      * split; [|intros _; apply isRunning_childKill_SIGTERM].
        intros s Hs.
        destruct (signalsOf_childKill env h hk SIGTERM w1) as [E|E]; rewrite E in Hs.
        -- now left.
        -- apply in_app_or in Hs. destruct Hs as [Hs|[<-|[]]]; auto.
      * rewrite signalsOf_childKill_other, isRunning_childKill_other by assumption.
        split; [auto | reflexivity].
    + unfold signalsOf, isRunning, childAt. rewrite Hch. split; [auto | reflexivity].
  - destruct (isRunning h' w); intros [= <-]. split.
    + intros s. unfold signalsOf. rewrite childAt_childClosed.
      destruct (N.eqb h' h); [|auto]. destruct (childAt h w); auto.
    + intros Hne. unfold isRunning. rewrite childAt_childClosed.
      destruct (N.eqb h' h) eqn:E; [|reflexivity].
      apply N.eqb_eq in E. congruence.
  - destruct (childAt h' w) as [c|]; [|discriminate].
    destruct (running c); intros [= <-]. split; [auto | reflexivity].
  - intros [= <-].
    assert (Hc : childAt h (trackChild env (procName (processCounter w + 1))
                              (processCounter w + 1) p timeout request
                              (withCounter (processCounter w + 1) w))
                 = childAt h w).
    { unfold trackChild, setTimeout, setProcess. cbn [processCounter withCounter].
      unfold childAt. cbn [children withTimers withRegistry withLaunched].
      change (lookupChild h (children (newChild (processCounter w + 1) p
                                         (withCounter (processCounter w + 1) w))))
        with (childAt h (newChild (processCounter w + 1) p
                           (withCounter (processCounter w + 1) w))).
      rewrite childAt_newChild_other by lia. reflexivity. }
    unfold signalsOf, isRunning. cbn [processCounter withCounter]. rewrite Hc.
    split; [auto | reflexivity].
  - intros [= <-].
    destruct (killProcess_cases env v w) as [->|(id & h' & _ & _ & ->)];
      [split; [auto | reflexivity]|].
    unfold signalsOf, isRunning, childAt, deleteProcess, setTimeout.
    cbn [children withRegistry withTimers].
    change (lookupChild h (children (fst (childKill env h' SIGTERM w))))
      with (childAt h (fst (childKill env h' SIGTERM w))).
    fold (signalsOf h (fst (childKill env h' SIGTERM w))).
    fold (isRunning h (fst (childKill env h' SIGTERM w))).
    split; [|intros _; apply isRunning_childKill_SIGTERM].
    intros s Hs.
    destruct (signalsOf_childKill env h h' SIGTERM w) as [E|E]; rewrite E in Hs.
    + now left.
    + apply in_app_or in Hs. destruct Hs as [Hs|[<-|[]]]; auto.
  - intros [= <-]. split; [auto | reflexivity].
Qed.

Lemma steps_spare_forgotten (evs : list Event) (w w' : World) :
  forgotten h w -> steps env evs w = Some w' ->
  (~ In SIGKILL (signalsOf h w) -> ~ In SIGKILL (signalsOf h w'))
  /\ (~ In (Exit h) evs -> isRunning h w' = isRunning h w).
Proof.
  revert w. induction evs as [|ev rest IH]; intros w Hf; cbn [steps].
  - intros [= <-]. auto.
  - destruct (step env ev w) as [w1|] eqn:Es; [|discriminate]. intros Hrest.
    destruct (step_spares_forgotten ev w w1 Hf Es) as [Hsig Hrun].
    destruct (IH w1 (step_forgotten ev w w1 Hf Es) Hrest) as [IHsig IHrun].
    split.
    + intros Hno. apply IHsig. intros Hin.
      destruct (Hsig _ Hin) as [H|H]; [auto | discriminate].
    + intros Hnot. rewrite IHrun, Hrun; [reflexivity| |].
      * intros ->. apply Hnot. now left.
      * intros Hin. apply Hnot. now right.
Qed.

End NoEscalation.

Section KillEscalation.

Variable env : Env.

(** C4 (what the code does).  In a coherent world, [killProcess] on a
    tracked id sends SIGTERM, schedules the forceful kill for 5000 ms
    later and deletes the registry entry in the same turn.  The
    scheduled closure sends SIGKILL only if the entry is still there,
    and the entry never comes back: whatever happens afterwards, the
    child receives no SIGKILL, and a process that does not end by itself
    stays alive. *)
Theorem kill_request_never_escalates (id : string) (h : N) (w : World)
    (evs : list Event) (w' : World) :
  coherent w ->
  Registry.get id (activeProcesses w) = Some h ->
  killError env h SIGTERM = None ->
  isRunning h w = true ->
  ~ In SIGKILL (signalsOf h w) ->
  steps env evs (fst (killProcess env (JStr id) w)) = Some w' ->
  signalsOf h (fst (killProcess env (JStr id) w)) = (signalsOf h w ++ [SIGTERM])%list
  /\ In ((clock w + GRACE_MS)%N, OnGrace id h)
        (timers (fst (killProcess env (JStr id) w)))
  /\ ~ In SIGKILL (signalsOf h w')
  /\ (~ In (Exit h) evs -> isRunning h w' = true).
Proof.
  intros Hco Hget Hk Hrun Hno Hsteps.
  rewrite (killProcess_found env id h w Hget Hk) in *. cbn [fst] in *.
  set (wk := fst (childKill env h SIGTERM w)) in *.
  destruct (childKill_frame env h SIGTERM w) as (Ha & Hc & _ & Ht & Hcl).
  fold wk in Ha, Hc, Ht, Hcl.
  assert (Hsig : signalsOf h wk = (signalsOf h w ++ [SIGTERM])%list).
  { subst wk. unfold childKill. rewrite Hk. unfold isRunning in Hrun.
    unfold signalsOf. destruct (childAt h w) as [c|] eqn:E; [|discriminate].
    rewrite Hrun. unfold childAt in *. cbn [fst children withChildren].
    rewrite lookupChild_update, N.eqb_refl, E. reflexivity. }
  assert (Hid : id = procName h /\ (h <= processCounter w)%N).
  { destruct Hco as [Hreg _]. apply Hreg. now apply get_In. }
  destruct Hid as [-> Hle].
  set (w0 := deleteProcess (procName h) (setTimeout (OnGrace (procName h) h) GRACE_MS wk))
    in *.
  assert (Hw0 : forgotten h w0).
  { assert (Hco0 : coherent w0).
    { apply (step_coherent env (KillRequest (JStr (procName h))) w w0 Hco).
      cbn [step]. now rewrite (killProcess_found env (procName h) h w Hget Hk). }
    split; [exact Hco0|]. split.
    - subst w0. cbn. rewrite Hc. exact Hle.
    - subst w0. cbn. apply get_delete_same. }
  destruct (steps_spare_forgotten env h evs w0 w' Hw0 Hsteps) as [Hkeep Halive].
  assert (Hs0 : signalsOf h w0 = signalsOf h wk) by reflexivity.
  assert (Hr0 : isRunning h w0 = isRunning h wk) by reflexivity.
  split; [rewrite Hs0; exact Hsig|]. split; [|split].
  - subst w0. cbn. rewrite Ht, Hcl. apply in_or_app. right. now left.
  - apply Hkeep. rewrite Hs0, Hsig. intros Hin. apply in_app_or in Hin.
    destruct Hin as [Hin|[Hin|[]]]; [auto | discriminate].
  - intros Hnot. rewrite (Halive Hnot), Hr0. subst wk.
    now rewrite isRunning_childKill_SIGTERM.
Qed.

End KillEscalation.

(** The theorem in the world where [proc_1] is tracked and alive: the
    grace period passes, the timer runs, another second passes. *)
Lemma kill_request_never_escalates_witness :
  exists w',
    steps echoEnv [Tick 5000; Fire 0; Tick 6000]
      (fst (killProcess echoEnv (JStr "proc_1") oneTracked)) = Some w'
    /\ ~ In SIGKILL (signalsOf 1 w')
    /\ isRunning 1 w' = true.
Proof.
  eexists. split; [vm_compute; reflexivity|].
  assert (Hco : coherent oneTracked).
  { split.
    - intros id h [[= <- <-]|[]]. split; [reflexivity | cbn; lia].
    - intros due cb []. }
  assert (Hno : ~ In SIGKILL (signalsOf 1 oneTracked)) by (intros []).
  assert (Hnot : ~ In (Exit 1%N) [Tick 5000; Fire 0; Tick 6000]).
  { intros [H|[H|[H|[]]]]; discriminate H. }
  pose proof (kill_request_never_escalates echoEnv "proc_1" 1 oneTracked
                [Tick 5000; Fire 0; Tick 6000] _ Hco eq_refl eq_refl eq_refl Hno
                eq_refl) as (_ & _ & Hsig & Hrun).
  split; [exact Hsig | exact (Hrun Hnot)].
Defined.

(** ** The timeout of a running command escalates *)

Section Escalation.

Variable env : Env.
Variable h : N.
Variable T : N.

Hypothesis kill_delivers : forall sig, killError env h sig = None.

Lemma armed_frame (w w' : World) :
  (forall t, In t (timers w) -> In t (timers w')) -> clock w' = clock w ->
  armed h T w -> armed h T w'.
Proof.
  intros Hsub Hc [[Hin Hle]|(due & Hin & Hd & Hle)].
  - left. rewrite Hc. auto.
  - right. exists due. rewrite Hc. auto.
Qed.

Lemma runCallback_timers_grow (cb : Callback) (w : World) (t : N * Callback) :
  In t (timers w) -> In t (timers (runCallback env cb w)).
Proof.
  intros Hin. destruct (runCallback_timers env cb w) as [->|(id & hk & _ & _ & ->)];
    [exact Hin|].
  apply in_or_app. now left.
Qed.

Lemma runCallback_stays_off (cb : Callback) (w : World) :
  isRunning h w = false -> isRunning h (runCallback env cb w) = false.
Proof.
  intros Hoff. unfold isRunning, childAt. rewrite runCallback_children.
  destruct (hasProcess (callbackId cb) w); [|exact Hoff].
  now apply isRunning_childKill_stays_off.
Qed.

Lemma step_guarded (ev : Event) (w w' : World) :
  guarded h T w -> ev <> KillRequest (JStr (procName h)) ->
  step env ev w = Some w' -> guarded h T w'.
Proof.
  intros [Hle Hg] Hev Hstep.
  split; [pose proof (step_counter env ev w w' Hstep); lia|].
  revert Hstep. destruct ev as [t|i|h'|h'|p timeout request|v|]; cbn [step].
  - (* Tick *)
    destruct (andb _ _) eqn:Eg; intros [= <-].
    destruct Hg as [Hoff|[Hhas Harm]]; [now left|]. right. split; [exact Hhas|].
    apply andb_true_iff in Eg. destruct Eg as [_ Eg]. rewrite forallb_forall in Eg.
    destruct Harm as [[Hin _]|(due & Hin & Hd & _)].
    + left. split; [exact Hin|]. cbn. specialize (Eg _ Hin). cbn in Eg.
      now apply N.leb_le.
    + right. exists due. repeat split; try assumption. cbn.
      specialize (Eg _ Hin). cbn in Eg. now apply N.leb_le.
  - (* Fire *)
    destruct (nth_error (timers w) i) as [[due cb]|] eqn:En; [|discriminate].
    destruct (due <=? clock w)%N eqn:Ed; intros [= <-].
    apply N.leb_le in Ed.
    set (w1 := withTimers (removeNth i (timers w)) w).
    destruct Hg as [Hoff|[Hhas Harm]]; [left; now apply runCallback_stays_off|].
    assert (Hhas' : hasProcess (procName h) (runCallback env cb w1) = true).
    { unfold hasProcess. destruct (runCallback_frame env cb w1) as (-> & _).
      exact Hhas. }
    destruct Harm as [[Hin Hc]|(due0 & Hin & Hd & Hc)].
    + destruct (In_removeNth _ _ _ _ Hin En) as [Hrest|Heq].
      * right. split; [exact Hhas'|]. left. split.
        -- now apply runCallback_timers_grow.
        -- now rewrite runCallback_clock.
      * injection Heq as <- <-. right. split; [exact Hhas'|]. right.
        exists (T + GRACE_MS)%N. assert (Hnow : clock w = T) by lia.
        cbn [runCallback].
        change (hasProcess (procName h) w1) with (hasProcess (procName h) w).
        rewrite Hhas.
        destruct (childKill_ok env h SIGTERM w1 (kill_delivers SIGTERM)) as [b Hb].
        destruct (childKill_frame env h SIGTERM w1) as (_ & _ & _ & Ht & Hcl).
        destruct (childKill env h SIGTERM w1) as [wk o]. cbn [fst snd] in *.
        subst o. unfold setTimeout. cbn [timers clock withTimers].
        rewrite Hcl. cbn [clock w1 withTimers]. rewrite Hnow.
        split; [apply in_or_app; right; now left|]. split; lia.
    + destruct (In_removeNth _ _ _ _ Hin En) as [Hrest|Heq].
      * right. split; [exact Hhas'|]. right. exists due0. split.
        -- now apply runCallback_timers_grow.
        -- rewrite runCallback_clock. auto.
      * injection Heq as <- <-. left. cbn [runCallback].
        change (hasProcess (procName h) w1) with (hasProcess (procName h) w).
        rewrite Hhas. now apply isRunning_childKill_SIGKILL.
  - (* Exit *)
    destruct (isRunning h' w); intros [= <-].
    destruct (childClosed_frame h' w) as (Ha & _ & _ & Ht & Hc).
    destruct Hg as [Hoff|[Hhas Harm]].
    + left. unfold isRunning in *. rewrite childAt_childClosed.
      destruct (N.eqb h' h); [|exact Hoff]. now destruct (childAt h w).
    + right. split.
      * unfold hasProcess. now rewrite Ha.
      * eapply armed_frame; [| |exact Harm]; [rewrite Ht; auto | exact Hc].
  - (* Completion *)
    destruct (childAt h' w) as [c|] eqn:Ec; [|discriminate].
    destruct (running c) eqn:Er; intros [= <-].
    destruct Hg as [Hoff|[Hhas Harm]]; [now left|].
    destruct (N.eq_dec h' h) as [->|Hne].
    + left. unfold isRunning, childAt, deleteProcess in *.
      cbn [children withRegistry]. now rewrite Ec.
    + right. split.
      * unfold hasProcess, Registry.has in *. cbn [deleteProcess activeProcesses withRegistry].
        rewrite get_delete_other; [exact Hhas|].
        intros E. apply procName_inj in E. congruence.
      * eapply armed_frame; [| |exact Harm]; [auto | reflexivity].
  - (* Start *)
    intros [= <-].
    assert (Hc : childAt h (trackChild env (procName (processCounter w + 1))
                              (processCounter w + 1) p timeout request
                              (withCounter (processCounter w + 1) w))
                 = childAt h w).
    { unfold trackChild, setTimeout, setProcess.
      unfold childAt. cbn [children withTimers withRegistry withLaunched].
      change (lookupChild h (children (newChild (processCounter w + 1) p
                                         (withCounter (processCounter w + 1) w))))
        with (childAt h (newChild (processCounter w + 1) p
                           (withCounter (processCounter w + 1) w))).
      rewrite childAt_newChild_other by lia. reflexivity. }
    cbn [processCounter withCounter].
    destruct Hg as [Hoff|[Hhas Harm]].
    + left. unfold isRunning in *. now rewrite Hc.
    + right. split.
      * unfold hasProcess, Registry.has in *. unfold trackChild, setTimeout, setProcess.
        cbn [activeProcesses withTimers withRegistry withLaunched newChild
             withChildren withCounter].
        rewrite get_set_other; [exact Hhas|].
        intros E. apply procName_inj in E. lia.
      * eapply armed_frame; [| |exact Harm].
        -- intros t Ht. unfold trackChild, setTimeout.
           cbn [timers withTimers]. apply in_or_app. now left.
        -- reflexivity.
  - (* KillRequest *)
    intros [= <-].
    destruct (killProcess_cases env v w) as [->|(id & h' & -> & _ & ->)];
      [exact Hg|].
    assert (Hid : id <> procName h) by congruence.
    destruct (childKill_frame env h' SIGTERM w) as (Ha & _ & _ & Ht & Hc).
    destruct Hg as [Hoff|[Hhas Harm]].
    + left. unfold isRunning, childAt, deleteProcess, setTimeout.
      cbn [children withRegistry withTimers].
      change (lookupChild h (children (fst (childKill env h' SIGTERM w))))
        with (childAt h (fst (childKill env h' SIGTERM w))).
      fold (isRunning h (fst (childKill env h' SIGTERM w))).
      now rewrite isRunning_childKill_SIGTERM.
    + right. split.
      * unfold hasProcess, Registry.has in *. unfold deleteProcess, setTimeout.
        cbn [activeProcesses withRegistry withTimers]. rewrite Ha.
        rewrite get_delete_other; [exact Hhas | congruence].
      * eapply armed_frame; [| |exact Harm].
        -- intros t Hin. unfold deleteProcess, setTimeout.
           cbn [timers withRegistry withTimers]. rewrite Ht.
           apply in_or_app. now left.
        -- unfold deleteProcess, setTimeout. cbn [clock withRegistry withTimers].
           exact Hc.
  - intros [= <-]. exact Hg.
Qed.

Lemma steps_guarded (evs : list Event) (w w' : World) :
  guarded h T w -> noKillOf (procName h) evs ->
  steps env evs w = Some w' -> guarded h T w'.
Proof.
  revert w. induction evs as [|ev rest IH]; intros w Hg Hno; cbn [steps].
  - now intros [= <-].
  - destruct (step env ev w) as [w1|] eqn:Es; [|discriminate].
    apply IH.
    + eapply step_guarded; eauto. intros ->. apply Hno. now left.
    + intros Hin. apply Hno. now right.
Qed.

Lemma guarded_after_grace (w : World) :
  guarded h T w -> (T + GRACE_MS < clock w)%N -> isRunning h w = false.
Proof.
  intros [_ [Hoff|[_ [[_ Hc]|(due & _ & Hd & Hc)]]]] Hlate; [exact Hoff| |]; lia.
Qed.

End Escalation.

Section TimedOut.

Variable env : Env.

(** In execute mode the exit code is never [null]: a code that is
    [null], absent or 0 is replaced by -1. *)
Lemma execCallback_exitCode_not_null (procId dir : string) (startTime : N)
    (error : option ExecError) (out err : string) (w : World) :
  exitCode (snd (execCallback procId dir startTime error out err w)) <> JNull.
Proof.
  unfold execCallback. cbn [snd exitCode].
  destruct error as [e|]; [|discriminate].
  unfold Js.orElse. destruct (code e) as [[| |z| | |]|]; cbn; try discriminate.
  - destruct b; discriminate.
  - destruct (Z.eqb z 0); discriminate.
  - destruct (nonEmpty s); discriminate.
Qed.

Lemma trackChild_guarded (h : N) (p : option N) (timeout : json) (request : Launch)
    (w : World) :
  (h <= processCounter w)%N ->
  guarded h (clock w + timerDelay env timeout)
          (trackChild env (procName h) h p timeout request w).
Proof.
  intros Hle. split; [exact Hle|]. right. split.
  - unfold hasProcess, Registry.has, trackChild, setTimeout, setProcess.
    cbn [activeProcesses withTimers withRegistry]. now rewrite get_set_same.
  - left. unfold trackChild, setTimeout, setProcess, newChild.
    cbn [timers clock withTimers withRegistry withLaunched withChildren].
    split; [apply in_or_app; right; now left | lia].
Qed.

(** C3 (as amended).  When a command in execute mode outlives its
    timeout and [exec] reports, for the child it ended with a signal, an
    error whose code is [null], the result has [success = false] and
    [exitCode = -1].  The
    child is tracked with a timer for the timeout; if signals can be sent
    and nobody asks to kill its id, then once the clock is past the
    timeout plus the 5000 ms of grace the process is no longer alive:
    it has ended by itself or it has been sent SIGKILL. *)
Theorem timed_out_execute (command dir : string) (timeout envVars : json)
    (w : World) (p : option N) (elapsed : N) (e : ExecError) (out err : string)
    (evs : list Event) (w' : World) :
  let h := processCounter w in
  let request := ViaExec command dir timeout MAX_OUTPUT_SIZE envVars in
  exec env request h = ExecRuns p elapsed (Some e) out err ->
  code e = Some JNull ->
  (forall sig, killError env h sig = None) ->
  noKillOf (procName h) evs ->
  steps env evs (trackChild env (procName h) h p timeout request w) = Some w' ->
  (clock w + timerDelay env timeout + GRACE_MS < clock w')%N ->
  (exists w1 r,
     executeNonInteractiveCommand env command dir (procName h) timeout envVars w
     = (w1, Ok r)
     /\ success r = false /\ exitCode r = JNum (-1))
  /\ isRunning h w' = false.
Proof.
  intros h request Hexec Hcode Hkill Hno Hsteps Hlate. split.
  - unfold executeNonInteractiveCommand. fold h. fold request. rewrite Hexec.
    unfold execCallback. eexists _, _. split; [reflexivity|].
    cbn [success exitCode]. rewrite Hcode. split; reflexivity.
  - apply (guarded_after_grace h (clock w + timerDelay env timeout)); [|exact Hlate].
    eapply steps_guarded; [exact Hkill| |exact Hno|exact Hsteps].
    apply trackChild_guarded. apply N.le_refl.
Qed.

End TimedOut.

(** The theorem for [sleep 60] with the default timeout: the timeout
    closure runs at 30000 ms, the grace closure at 35000 ms. *)
Lemma timed_out_execute_witness :
  exists w',
    steps timeoutEnv [Tick 30000; Fire 0; Tick 35000; Fire 0; Tick 35001]
      (trackChild timeoutEnv "proc_1" 1 (Some 1001%N) (JNum 30000)
         (ViaExec "sleep 60" "/home/user" (JNum 30000) MAX_OUTPUT_SIZE (JObj []))
         (withCounter 1 emptyWorld)) = Some w'
    /\ signalsOf 1 w' = [SIGTERM; SIGKILL]
    /\ isRunning 1 w' = false.
Proof.
  eexists. split; [vm_compute; reflexivity|]. split; [reflexivity|].
  assert (Hno : noKillOf (procName 1) [Tick 30000; Fire 0; Tick 35000; Fire 0; Tick 35001]).
  { intros [H|[H|[H|[H|[H|[]]]]]]; discriminate H. }
  refine (proj2 (timed_out_execute timeoutEnv "sleep 60" "/home/user" (JNum 30000)
                   (JObj []) (withCounter 1 emptyWorld) (Some 1001%N) 30000
                   (mkExecError (Some JNull) "Command failed: sleep 60")
                   EmptyString EmptyString
                   [Tick 30000; Fire 0; Tick 35000; Fire 0; Tick 35001] _
                   eq_refl eq_refl (fun _ => eq_refl) Hno eq_refl _)).
  vm_compute. reflexivity.
Defined.

(** C3, as stated, fails: for a command that outlives its timeout the
    exit code of the result is -1, not [null]. *)
Lemma timed_out_execute_exit_code_is_minus_one :
  exists w r,
    executeTerminalCommands timeoutEnv
      (inlineBlock "terminal" (directiveWith "execute" "command" "sleep 60"))
      emptyWorld = (w, Ok [r])
    /\ success r = false
    /\ exitCode r = JNum (-1)
    /\ exitCode r <> JNull.
Proof.
  eexists _, _. split; [vm_compute; reflexivity|].
  cbn [success exitCode]. repeat split. discriminate.
Qed.

(** ** [advance] runs every timer that is due *)

Section Advance.

Variable env : Env.

Lemma popEarliest_none (ts : list (N * Callback)) :
  popEarliest ts = None -> ts = [].
Proof.
  destruct ts as [|t rest]; [reflexivity|]. simpl.
  destruct (popEarliest rest) as [[t' rest']|]; [|discriminate].
  destruct (fst t <=? fst t')%N; discriminate.
Qed.

Lemma popEarliest_some (ts : list (N * Callback)) (t : N * Callback)
    (rest : list (N * Callback)) :
  popEarliest ts = Some (t, rest) ->
  timersWeight ts = callbackWeight (snd t) + timersWeight rest
  /\ (forall x, In x ts -> x = t \/ In x rest)
  /\ (forall x, In x rest -> (fst t <= fst x)%N).
Proof.
  revert t rest. induction ts as [|t0 ts IH]; intros t rest; simpl; [discriminate|].
  destruct (popEarliest ts) as [[t' rest']|] eqn:E.
  - destruct (IH t' rest' eq_refl) as (Hw & Hin & Hmin).
    destruct (fst t0 <=? fst t')%N eqn:Ele; intros [= <- <-].
    + apply N.leb_le in Ele. destruct t0 as [d0 cb0]. repeat split.
      * intros x [<-|Hx]; auto.
      * intros x Hx. destruct (Hin x Hx) as [->|Hx']; [exact Ele|].
        specialize (Hmin x Hx'). cbn in *. lia.
    + apply N.leb_gt in Ele. destruct t0 as [d0 cb0], t' as [d' cb'].
      cbn [fst snd timersWeight] in *. repeat split.
      * rewrite Hw. lia.
      * intros x [<-|Hx]; [right; now left|].
        destruct (Hin x Hx) as [->|Hx']; [now left | right; now right].
      * intros x [<-|Hx]; [cbn; lia | auto].
  - apply popEarliest_none in E. subst ts. intros [= <- <-]. destruct t0 as [d0 cb0].
    cbn [timersWeight snd fst]. split; [reflexivity|].
    split; [intros x [<-|[]]; auto | intros x []].
Qed.

Lemma timersWeight_app (a b : list (N * Callback)) :
  timersWeight (a ++ b) = timersWeight a + timersWeight b.
Proof.
  induction a as [|[d cb] a IH]; simpl; [reflexivity|]. rewrite IH. lia.
Qed.

Lemma timersWeight_zero (ts : list (N * Callback)) : timersWeight ts = 0 -> ts = [].
Proof.
  destruct ts as [|[d cb] rest]; [reflexivity|]. simpl. destruct cb; discriminate.
Qed.

Lemma timersWeight_length (ts : list (N * Callback)) :
  timersWeight ts <= 2 * List.length ts.
Proof.
  induction ts as [|[d cb] rest IH]; simpl; [lia|]. destruct cb; simpl; lia.
Qed.

Lemma advanceRounds_complete (rounds : nat) (target : N) (w : World) :
  timersWeight (timers w) <= rounds ->
  (forall due cb, In (due, cb) (timers (advanceRounds rounds env target w)) ->
     (target < due)%N)
  /\ clock (advanceRounds rounds env target w) = N.max (clock w) target.
Proof.
  revert w. induction rounds as [|n IH]; intros w Hw; cbn [advanceRounds].
  - assert (timers w = []) as E by (apply timersWeight_zero; lia).
    cbn. rewrite E. split; [intros ? ? []|reflexivity].
  - destruct (popEarliest (timers w)) as [[[due cb] rest]|] eqn:Ep.
    + destruct (popEarliest_some _ _ _ Ep) as (Hweight & Hin & Hmin). cbn in Hweight.
      destruct (due <=? target)%N eqn:Ed.
      * apply N.leb_le in Ed.
        set (w1 := withClock (N.max (clock w) due) (withTimers rest w)).
        assert (Hw2 : timersWeight (timers (runCallback env cb w1)) <= n).
        { destruct (runCallback_timers env cb w1) as [->|(id & hk & -> & _ & ->)].
          - cbn. destruct cb; cbn in *; lia.
          - rewrite timersWeight_app. cbn in *. lia. }
        destruct (IH _ Hw2) as [Ht Hc]. split; [exact Ht|].
        rewrite Hc, runCallback_clock. cbn. lia.
      * apply N.leb_gt in Ed. cbn. split; [|reflexivity].
        intros d c Hx. destruct (Hin _ Hx) as [[= -> ->]|Hx']; [exact Ed|].
        specialize (Hmin _ Hx'). cbn in Hmin. lia.
    + apply popEarliest_none in Ep. cbn. rewrite Ep.
      split; [intros ? ? []|reflexivity].
Qed.

(** The rounds of [advance] suffice: when it returns, the clock is at
    the target and every timer still pending is due later. *)
Lemma advance_complete (target : N) (w : World) :
  (forall due cb, In (due, cb) (timers (advance env target w)) -> (target < due)%N)
  /\ clock (advance env target w) = N.max (clock w) target.
Proof. apply advanceRounds_complete, timersWeight_length. Qed.

End Advance.

(** ** Scanning the reply for blocks *)

Section Scanning.

Variable r : regex.







End Scanning.

Section AsciiText.



Lemma isAscii_dropChars (n : nat) (s : string) :
  isAscii s = true -> isAscii (dropChars n s) = true.
Proof.
  revert s. induction n as [|n IH]; intros [|c s]; cbn [dropChars isAscii]; auto.
  intros H. apply andb_true_iff in H. apply IH, H.
Qed.



End AsciiText.

Section PlainBlocks.



End PlainBlocks.

Section Directives.

Variable env : Env.


End Directives.



(** ** Coherence along a run of the dispatcher *)

Section RunCoherence.

Variable env : Env.

Lemma popEarliest_sub (ts : list (N * Callback)) (t : N * Callback)
    (rest : list (N * Callback)) :
  popEarliest ts = Some (t, rest) ->
  In t ts /\ (forall x, In x rest -> In x ts).
Proof.
  revert t rest. induction ts as [|t0 ts IH]; intros t rest; simpl; [discriminate|].
  destruct (popEarliest ts) as [[t' rest']|] eqn:E.
  - destruct (IH t' rest' eq_refl) as [Hin Hsub].
    destruct (fst t0 <=? fst t')%N; intros [= <- <-].
    + split; [now left | intros x Hx; now right].
    + split; [now right|]. intros x [<-|Hx]; [now left | right; auto].
  - intros [= <- <-]. split; [now left | intros x []].
Qed.

Lemma runCallback_coherent (cb : Callback) (w : World) :
  coherent w ->
  callbackId cb = procName (callbackChild cb) ->
  (callbackChild cb <= processCounter w)%N ->
  coherent (runCallback env cb w).
Proof.
  intros [Hreg Htim] Hid Hle.
  destruct (runCallback_frame env cb w) as (Ha & Hc & _). split.
  - intros id h. rewrite Ha, Hc. apply Hreg.
  - intros d cb'. rewrite Hc.
    destruct (runCallback_timers env cb w) as [->|(id & h & -> & _ & ->)]; [apply Htim|].
    intros H. apply in_app_or in H. destruct H as [H|[H|[]]]; [exact (Htim _ _ H)|].
    injection H as _ <-. cbn in *. auto.
Qed.

Lemma advanceRounds_coherent (rounds : nat) (target : N) (w : World) :
  coherent w -> coherent (advanceRounds rounds env target w).
Proof.
  revert w. induction rounds as [|n IH]; intros w Hco; cbn [advanceRounds].
  - destruct Hco. split; assumption.
  - destruct (popEarliest (timers w)) as [[[due cb] rest]|] eqn:Ep;
      [|destruct Hco; split; assumption].
    destruct (due <=? target)%N; [|destruct Hco; split; assumption].
    destruct (popEarliest_sub _ _ _ Ep) as [Hin Hsub]. destruct Hco as [Hreg Htim].
    apply IH. apply runCallback_coherent.
    + split; [exact Hreg|]. intros d c Hx. cbn in Hx. apply (Htim d c). auto.
    + apply (Htim _ _ Hin).
    + apply (Htim _ _ Hin).
Qed.

Lemma trackChild_coherent (p : option N) (timeout : json) (request : Launch) (w : World) :
  coherent w ->
  coherent (trackChild env (procName (processCounter w)) (processCounter w)
              p timeout request w).
Proof.
  intros [Hreg Htim]. unfold trackChild, setTimeout, setProcess, newChild. split.
  - intros id h. cbn. intros H. apply In_set in H.
    destruct H as [H|H]; [|exact (Hreg _ _ H)].
    injection H as -> ->. split; [reflexivity | lia].
  - intros d cb. cbn. intros H. apply in_app_or in H.
    destruct H as [H|[H|[]]]; [exact (Htim _ _ H)|].
    injection H as _ <-. cbn. split; [reflexivity | lia].
Qed.

Lemma deleteProcess_coherent (id : string) (w : World) :
  coherent w -> coherent (deleteProcess id w).
Proof.
  intros [Hreg Htim]. split; [|exact Htim].
  intros id' h. cbn. intros H. apply In_delete in H. destruct H. auto.
Qed.

Lemma childClosed_coherent (h : N) (w : World) :
  coherent w -> coherent (childClosed h w).
Proof.
  intros Hco. destruct (childClosed_frame h w) as (Ha & Hc & _ & Ht & _).
  eapply coherent_frame; eauto.
Qed.

Lemma withCounter_coherent (w : World) :
  coherent w -> coherent (withCounter (processCounter w + 1) w).
Proof.
  intros [Hreg Htim]. split.
  - intros id h H. destruct (Hreg id h H). split; [assumption | cbn; lia].
  - intros d cb H. destruct (Htim d cb H). split; [assumption | cbn; lia].
Qed.

Lemma executeInteractiveCommand_coherent (command dir : string)
    (timeout envVars : json) (w : World) :
  coherent w ->
  coherent (fst (executeInteractiveCommand env command dir
                   (procName (processCounter w)) timeout envVars w)).
Proof.
  intros Hco. unfold executeInteractiveCommand.
  match goal with
  | |- context [spawn env ?q ?n] =>
      destruct (spawn env q n) as [e|p elapsed events final]; [exact Hco|]
  end.
  unfold spawnFinished.
  destruct final as [exit|e]; cbn [fst]; apply deleteProcess_coherent;
    [apply childClosed_coherent|]; apply advanceRounds_coherent;
    now apply trackChild_coherent.
Qed.

Lemma executeNonInteractiveCommand_coherent (command dir : string)
    (timeout envVars : json) (w : World) :
  coherent w ->
  coherent (fst (executeNonInteractiveCommand env command dir
                   (procName (processCounter w)) timeout envVars w)).
Proof.
  intros Hco. unfold executeNonInteractiveCommand.
  match goal with
  | |- context [exec env ?q ?n] =>
      destruct (exec env q n) as [e|p elapsed error out err]; [exact Hco|]
  end.
  unfold execCallback. cbn [fst]. apply deleteProcess_coherent.
  apply childClosed_coherent. apply advanceRounds_coherent.
  now apply trackChild_coherent.
Qed.

Lemma executeTerminalCommand_coherent (command : json) (options : list (string * json))
    (w : World) :
  coherent w -> coherent (fst (executeTerminalCommand env command options w)).
Proof.
  intros Hco. apply withCounter_coherent in Hco.
  unfold executeTerminalCommand. set (w1 := withCounter (processCounter w + 1) w) in *.
  destruct command as [| | |commandText| |]; try exact Hco.
  destruct (negb (safe (validateCommand commandText))); [exact Hco|].
  match goal with
  | |- context [validateWorkingDir env ?d] =>
      destruct (validateWorkingDir env d) as [dir|e]; [|exact Hco]
  end.
  destruct (ensureDir env dir (processCounter w1)); [exact Hco|].
  match goal with
  | |- context [if Js.truthy ?i then ?a else ?b] =>
      assert (Hrun : coherent (fst (if Js.truthy i then a else b)))
        by (destruct (Js.truthy i);
            [now apply executeInteractiveCommand_coherent
            |now apply executeNonInteractiveCommand_coherent]);
      destruct (if Js.truthy i then a else b) as [w' [r|e]]; exact Hrun
  end.
Qed.

Lemma structuredBlock_coherent (captured : string) (w : World) :
  coherent w -> coherent (fst (structuredBlock env captured w)).
Proof.
  intros Hco. unfold structuredBlock.
  destruct (JSON_parse env (trim captured)) as [command|e]; [|exact Hco].
  destruct (property "operation" command) as [operation|e]; [|exact Hco].
  destruct (Js.whenTruthy operation) as [op|]; [|exact Hco].
  assert (H : coherent (fst (dispatchOperation env op command w))).
  { unfold dispatchOperation. destruct op as [| | |name| |]; try exact Hco.
    destruct (String.eqb (toLowerCase name) "execute").
    { destruct (Js.whenTruthy _); [now apply executeTerminalCommand_coherent | exact Hco]. }
    destruct (String.eqb (toLowerCase name) "interactive").
    { destruct (Js.whenTruthy _); [now apply executeTerminalCommand_coherent | exact Hco]. }
    destruct (String.eqb (toLowerCase name) "kill").
    { destruct (Js.whenTruthy _) as [p|]; [|exact Hco].
      pose proof (step_coherent env (KillRequest p) w _ Hco eq_refl) as Hk.
      destruct (killProcess env p w) as [w1 msg]. exact Hk. }
    destruct (String.eqb (toLowerCase name) "list_processes"); exact Hco. }
  destruct (dispatchOperation env op command w) as [w1 [r|e]]; exact H.
Qed.

Lemma runStructured_coherent (blocks : list string) (w : World) :
  coherent w -> coherent (fst (runStructured env blocks w)).
Proof.
  revert w. induction blocks as [|b rest IH]; intros w Hco; cbn [runStructured];
    [exact Hco|].
  pose proof (structuredBlock_coherent b w Hco) as H1.
  destruct (structuredBlock env b w) as [w1 r]. specialize (IH w1 H1).
  destruct (runStructured env rest w1) as [w2 rs]. exact IH.
Qed.

Lemma runPlain_coherent (commands : list string) (w : World) :
  coherent w -> coherent (fst (runPlain env commands w)).
Proof.
  revert w. induction commands as [|c rest IH]; intros w Hco; cbn [runPlain];
    [exact Hco|].
  pose proof (executeTerminalCommand_coherent (JStr c) [] w Hco) as H1.
  destruct (executeTerminalCommand env (JStr c) [] w) as [w1 [r|e]]; [|exact H1].
  specialize (IH w1 H1). destruct (runPlain env rest w1) as [w2 [rs|e]]; exact IH.
Qed.

(** Every world the dispatcher leaves is coherent when the one it
    started from was; the empty world is. *)
Lemma executeTerminalCommands_coherent (text : string) (w : World) :
  coherent w -> coherent (fst (executeTerminalCommands env text w)).
Proof.
  intros Hco. unfold executeTerminalCommands, runBlocks.
  pose proof (runStructured_coherent (map group1 (structuredMatches text)) w Hco) as H1.
  destruct (runStructured env _ w) as [w1 rs1].
  pose proof (runPlain_coherent (flat_map plainCommands (map group1 (plainMatches text)))
                w1 H1) as H2.
  destruct (runPlain env _ w1) as [w2 [rs2|e]]; exact H2.
Qed.

End RunCoherence.

(* ================================================================== *)
(** * Properties of a whole run *)
(* ================================================================== *)

Section RunFacts.

Variable env : Env.

(** What one call of [executeTerminalCommand] does to the counter, the
    registry and the launch log, and what its result carries. *)
Lemma trackChild_fields (id : string) (h : N) (p : option N) (timeout : json)
    (request : Launch) (w : World) :
  let w' := trackChild env id h p timeout request w in
  activeProcesses w' = Registry.set id h (activeProcesses w)
  /\ processCounter w' = processCounter w
  /\ launched w' = (launched w ++ [request])%list.
Proof. unfold trackChild, setTimeout, setProcess, newChild. cbn. auto. Qed.

Lemma executeNonInteractiveCommand_fields (command dir id : string)
    (timeout envVars : json) (w : World) :
  let X := executeNonInteractiveCommand env command dir id timeout envVars w in
  let request := ViaExec command dir timeout MAX_OUTPUT_SIZE envVars in
  processCounter (fst X) = processCounter w
  /\ ((activeProcesses (fst X) = activeProcesses w /\ launched (fst X) = launched w
       /\ exists e, snd X = Throw e)
      \/ (activeProcesses (fst X)
          = Registry.delete id (Registry.set id (processCounter w) (activeProcesses w))
          /\ launched (fst X) = (launched w ++ [request])%list
          /\ exists r, snd X = Ok r /\ processId r = Some id
                       /\ (exitCode r = JNum 0 -> success r = true)
                       /\ (success r = true
                           -> exitCode r = JNum 0 \/ exitCode r = JNum (-1)))).
Proof.
  cbn zeta. unfold executeNonInteractiveCommand.
  destruct (exec env _ _) as [e|p elapsed error out err].
  - cbn [fst snd]. split; [reflexivity|]. left. eauto.
  - match goal with
    | |- context [trackChild env id ?h p timeout ?rq w] =>
        pose proof (trackChild_fields id h p timeout rq w) as Ht;
        set (w1 := trackChild env id h p timeout rq w) in *
    end.
    cbn zeta in Ht. destruct Ht as (Hreg & Hcnt & Hlog).
    pose proof (advance_frame env (clock w1 + elapsed) w1) as Ha.
    set (w2 := advance env (clock w1 + elapsed) w1) in *.
    cbn zeta in Ha. destruct Ha as (Hreg2 & Hcnt2 & Hlog2).
    pose proof (childClosed_frame (processCounter w) w2) as Hc.
    set (w3 := childClosed (processCounter w) w2) in *.
    cbn zeta in Hc. destruct Hc as (Hreg3 & Hcnt3 & Hlog3 & _).
    unfold execCallback. cbn [fst snd].
    unfold deleteProcess, withRegistry. cbn [processCounter activeProcesses launched].
    split; [congruence|]. right.
    split; [congruence|]. split; [congruence|].
    eexists. split; [reflexivity|]. cbn [processId exitCode success].
    split; [reflexivity|]. split.
    + destruct error as [e|]; [|reflexivity].
      destruct (code e) as [[| |z| | |]|]; cbn; try discriminate.
      * destruct b; cbn; discriminate.
      * destruct z; cbn; try discriminate.
      * destruct s; cbn; discriminate.
    + destruct error as [e|]; [|auto].
      destruct (code e) as [[| |z| | |]|]; cbn; try discriminate.
      destruct z; try discriminate. auto.
Qed.

Lemma executeInteractiveCommand_fields (command dir id : string)
    (timeout envVars : json) (w : World) :
  let X := executeInteractiveCommand env command dir id timeout envVars w in
  let request := ViaSpawn (hd EmptyString (split SPACE command))
                          (tl (split SPACE command)) dir envVars in
  processCounter (fst X) = processCounter w
  /\ ((activeProcesses (fst X) = activeProcesses w /\ launched (fst X) = launched w
       /\ exists e, snd X = Throw e)
      \/ (activeProcesses (fst X)
          = Registry.delete id (Registry.set id (processCounter w) (activeProcesses w))
          /\ launched (fst X) = (launched w ++ [request])%list
          /\ exists r, snd X = Ok r /\ processId r = Some id
                       /\ (exitCode r = JNum 0 -> success r = true)
                       /\ (success r = true
                           -> exitCode r = JNum 0 \/ exitCode r = JNum (-1)))).
Proof.
  cbn zeta. unfold executeInteractiveCommand.
  destruct (spawn env _ _) as [e|p elapsed events final].
  - cbn [fst snd]. split; [reflexivity|]. left. eauto.
  - match goal with
    | |- context [trackChild env id ?h p timeout ?rq w] =>
        pose proof (trackChild_fields id h p timeout rq w) as Ht;
        set (w1 := trackChild env id h p timeout rq w) in *
    end.
    cbn zeta in Ht. destruct Ht as (Hreg & Hcnt & Hlog).
    pose proof (advance_frame env (clock w1 + elapsed) w1) as Ha.
    set (w2 := advance env (clock w1 + elapsed) w1) in *.
    cbn zeta in Ha. destruct Ha as (Hreg2 & Hcnt2 & Hlog2).
    pose proof (childClosed_frame (processCounter w) w2) as Hc.
    cbn zeta in Hc. destruct Hc as (Hreg3 & Hcnt3 & Hlog3 & _).
    destruct final as [exit|e]; unfold spawnFinished; cbn [fst snd];
      unfold deleteProcess, withRegistry;
      cbn [processCounter activeProcesses launched].
    + split; [congruence|]. right.
      split; [congruence|]. split; [congruence|].
      eexists. split; [reflexivity|]. cbn [processId exitCode success].
      split; [reflexivity|]. split.
      * destruct exit as [[| |]|]; try discriminate. reflexivity.
      * destruct exit as [[| |]|]; try discriminate. auto.
    + split; [congruence|]. right.
      split; [congruence|]. split; [congruence|].
      eexists. split; [reflexivity|]. cbn [processId exitCode success].
      split; [reflexivity|]. split; discriminate.
Qed.

(** The process id a call takes and what the call leaves behind. *)
Lemma executeTerminalCommand_fields (command : json) (options : list (string * json))
    (w : World) :
  let X := executeTerminalCommand env command options w in
  let h := (processCounter w + 1)%N in
  processCounter (fst X) = h
  /\ (forall r, snd X = Ok r ->
        processId r = Some (procName h)
        /\ (exitCode r = JNum 0 -> success r = true)
        /\ (success r = true -> exitCode r = JNum 0 \/ exitCode r = JNum (-1)))
  /\ ((activeProcesses (fst X) = activeProcesses w /\ launched (fst X) = launched w)
      \/ (activeProcesses (fst X)
          = Registry.delete (procName h) (Registry.set (procName h) h (activeProcesses w))
          /\ exists request text,
               launched (fst X) = (launched w ++ [request])%list
               /\ command = JStr text
               /\ safe (validateCommand text) = true
               /\ launchCommand request = text
               /\ exists r, snd X = Ok r)).
Proof.
  cbn zeta. unfold executeTerminalCommand.
  set (w1 := withCounter (processCounter w + 1) w).
  assert (Hw1 : processCounter w1 = (processCounter w + 1)%N) by reflexivity.
  assert (Hr1 : activeProcesses w1 = activeProcesses w) by reflexivity.
  assert (Hl1 : launched w1 = launched w) by reflexivity.
  destruct command as [| | |text| |];
    try (cbn [fst snd]; split; [exact Hw1|];
         split; [intros r [=]|]; left; split; assumption).
  destruct (safe (validateCommand text)) eqn:Hsafe; cbn [negb].
  2:{ cbn [fst snd]. split; [exact Hw1|]. split.
      - intros r [= <-]. cbn [processId exitCode success].
        split; [reflexivity|]. split; discriminate.
      - left. split; assumption. }
  match goal with
  | |- context [validateWorkingDir env ?d] =>
      destruct (validateWorkingDir env d) as [dir|e]
  end.
  2:{ cbn [fst snd]. split; [exact Hw1|]. split; [intros r [=]|].
      left. split; assumption. }
  destruct (ensureDir env dir (processCounter w1)).
  { cbn [fst snd]. split; [exact Hw1|]. split.
    - intros r [= <-]. cbn [processId exitCode success].
      split; [reflexivity|]. split; discriminate.
    - left. split; assumption. }
  match goal with
  | |- context [if Js.truthy ?i then ?a else ?b] => destruct (Js.truthy i)
  end.
  - match goal with
    | |- context [executeInteractiveCommand env text dir ?id ?t ?ev w1] =>
        pose proof (executeInteractiveCommand_fields text dir id t ev w1) as H;
        destruct (executeInteractiveCommand env text dir id t ev w1) as [w' out]
    end.
    cbn zeta in H. cbn [fst snd] in H. rewrite Hw1, Hr1, Hl1 in H.
    destruct H as (Hc & [(Hreg & Hlog & e & ->) | (Hreg & Hlog & r & -> & Hid & H0 & H1)]).
    + cbn [fst snd]. split; [exact Hc|]. split.
      * intros r [= <-]. cbn [processId exitCode success].
        split; [reflexivity|]. split; discriminate.
      * left. split; assumption.
    + cbn [fst snd]. split; [exact Hc|]. split.
      * intros r' [= <-]. auto.
      * right. split; [exact Hreg|].
        eexists. exists text. split; [exact Hlog|]. split; [reflexivity|].
        split; [exact Hsafe|]. split.
        -- cbn [launchCommand].
           pose proof (split_not_nil SPACE text) as Hne.
           destruct (split SPACE text) as [|t ts] eqn:E; [contradiction|].
           cbn [hd tl]. rewrite <- E. apply (join_split SPACE).
        -- eauto.
  - match goal with
    | |- context [executeNonInteractiveCommand env text dir ?id ?t ?ev w1] =>
        pose proof (executeNonInteractiveCommand_fields text dir id t ev w1) as H;
        destruct (executeNonInteractiveCommand env text dir id t ev w1) as [w' out]
    end.
    cbn zeta in H. cbn [fst snd] in H. rewrite Hw1, Hr1, Hl1 in H.
    destruct H as (Hc & [(Hreg & Hlog & e & ->) | (Hreg & Hlog & r & -> & Hid & H0 & H1)]).
    + cbn [fst snd]. split; [exact Hc|]. split.
      * intros r [= <-]. cbn [processId exitCode success].
        split; [reflexivity|]. split; discriminate.
      * left. split; assumption.
    + cbn [fst snd]. split; [exact Hc|]. split.
      * intros r' [= <-]. auto.
      * right. split; [exact Hreg|].
        eexists. exists text. split; [exact Hlog|]. split; [reflexivity|].
        split; [exact Hsafe|]. split; [reflexivity|]. eauto.
Qed.

Lemma killProcess_fields (p : json) (w : World) :
  let w' := fst (killProcess env p w) in
  processCounter w' = processCounter w
  /\ launched w' = launched w
  /\ (activeProcesses w' = activeProcesses w
      \/ exists id, activeProcesses w' = Registry.delete id (activeProcesses w)).
Proof.
  cbn zeta. destruct (killProcess_cases env p w) as [-> | (id & h & -> & Hget & ->)];
    [auto|].
  pose proof (childKill_frame env h SIGTERM w) as H. cbn zeta in H.
  destruct H as (Hreg & Hcnt & Hlog & _).
  unfold deleteProcess, setTimeout, withRegistry, withTimers.
  cbn [processCounter activeProcesses launched].
  split; [exact Hcnt|]. split; [exact Hlog|]. right. exists id. now rewrite Hreg.
Qed.

(** The ways the body of the loop over structured blocks ends. *)
Lemma structuredBlock_cases (captured : string) (w : World) :
  let X := structuredBlock env captured w in
  let base := JStr (TERMINAL_BASE_DIR env) in
  (exists msg, X = (w, invalidResult env msg))
  \/ (exists c options,
        fst X = fst (executeTerminalCommand env c options w)
        /\ match snd (executeTerminalCommand env c options w) with
           | Ok r => snd X = r
           | Throw e => snd X = caughtResult env e
           end)
  \/ (exists p,
        let msg := snd (killProcess env p w) in
        let failed := includes msg CROSS_MARK in
        X = (fst (killProcess env p w),
             mkResult (negb failed) msg EmptyString
               (if failed then JNum (-1) else JNum 0) 0 None base))
  \/ X = (w, mkResult true (listActiveProcesses w) EmptyString (JNum 0) 0 None base).
Proof.
  cbn zeta. unfold structuredBlock.
  destruct (JSON_parse env (trim captured)) as [command|e];
    [|left; eexists; reflexivity].
  destruct (property "operation" command) as [operation|e];
    [|left; eexists; reflexivity].
  destruct (Js.whenTruthy operation) as [op|]; [|left; eexists; reflexivity].
  unfold dispatchOperation.
  destruct op as [| | |name| |]; try (left; eexists; reflexivity).
  destruct (String.eqb (toLowerCase name) "execute").
  { destruct (Js.whenTruthy _) as [c|]; [|left; eexists; reflexivity].
    right. left. exists c, (fieldsOf command).
    destruct (executeTerminalCommand env c (fieldsOf command) w) as [w1 [r|e]];
      split; reflexivity. }
  destruct (String.eqb (toLowerCase name) "interactive").
  { destruct (Js.whenTruthy _) as [c|]; [|left; eexists; reflexivity].
    right. left. exists c, (fieldsOf command ++ [("interactive", JBool true)])%list.
    destruct (executeTerminalCommand env c _ w) as [w1 [r|e]]; split; reflexivity. }
  destruct (String.eqb (toLowerCase name) "kill").
  { destruct (Js.whenTruthy _) as [p|]; [|left; eexists; reflexivity].
    right. right. left. exists p.
    destruct (killProcess env p w) as [w1 msg]. reflexivity. }
  destruct (String.eqb (toLowerCase name) "list_processes").
  { right. right. right. reflexivity. }
  left. eexists. reflexivity.
Qed.

(** An invariant of the worlds and a property of the results, carried
    along a run. *)
Lemma chain_invariant (I : World -> Prop) (Q : TerminalResult -> Prop) :
  (forall d w w1 r, I w -> dispatchOne env d w = (w1, Ok r) -> I w1 /\ Q r) ->
  forall w ds rs w', chain env w ds rs w' -> I w -> I w' /\ Forall Q rs.
Proof.
  intros Hstep w ds rs w' Hch. induction Hch as [w|w d ds r rs w1 w2 Hd Hch IH];
    intros Hi; [auto|].
  destruct (Hstep d w w1 r Hi Hd) as [Hi1 Hq].
  destruct (IH Hi1) as [Hi2 Hqs]. auto.
Qed.

(** One operation, by what it does to the world. *)
Lemma dispatchOne_fields (d : Directive) (w w1 : World) (r : TerminalResult) :
  dispatchOne env d w = (w1, Ok r) ->
  let h := (processCounter w + 1)%N in
  (* the counter and the id of the result *)
  ((processCounter w1 = processCounter w /\ processId r = None)
   \/ (processCounter w1 = h /\ (processId r = None \/ processId r = Some (procName h))))
  (* the flags of the result *)
  /\ (exitCode r = JNum 0 -> success r = true)
  /\ (success r = true -> exitCode r = JNum 0 \/ exitCode r = JNum (-1))
  (* the launch log *)
  /\ (launched w1 = launched w
      \/ exists request,
           launched w1 = (launched w ++ [request])%list
           /\ safe (validateCommand (launchCommand request)) = true)
  (* the registry *)
  /\ (activeProcesses w1 = activeProcesses w
      \/ activeProcesses w1
         = Registry.delete (procName h) (Registry.set (procName h) h (activeProcesses w))
      \/ exists id, activeProcesses w1 = Registry.delete id (activeProcesses w)).
Proof.
  intros Hd. cbn zeta.
  assert (Hcmd : forall c options out,
            executeTerminalCommand env c options w = (w1, out) ->
            (out = Ok r \/ (exists e, out = Throw e /\ r = caughtResult env e)) ->
            ((processCounter w1 = processCounter w /\ processId r = None)
             \/ (processCounter w1 = (processCounter w + 1)%N
                 /\ (processId r = None
                     \/ processId r = Some (procName (processCounter w + 1)))))
            /\ (exitCode r = JNum 0 -> success r = true)
            /\ (success r = true -> exitCode r = JNum 0 \/ exitCode r = JNum (-1))
            /\ (launched w1 = launched w
                \/ exists request,
                     launched w1 = (launched w ++ [request])%list
                     /\ safe (validateCommand (launchCommand request)) = true)
            /\ (activeProcesses w1 = activeProcesses w
                \/ activeProcesses w1
                   = Registry.delete (procName (processCounter w + 1))
                       (Registry.set (procName (processCounter w + 1))
                          (processCounter w + 1) (activeProcesses w))
                \/ exists id, activeProcesses w1 = Registry.delete id (activeProcesses w))).
  { intros c options out Hrun Hout.
    pose proof (executeTerminalCommand_fields c options w) as H.
    cbn zeta in H. rewrite Hrun in H. cbn [fst snd] in H.
    destruct H as (Hc & Hres & Hworld).
    assert (Hlog : launched w1 = launched w
                   \/ exists request,
                        launched w1 = (launched w ++ [request])%list
                        /\ safe (validateCommand (launchCommand request)) = true).
    { destruct Hworld as [[_ Hl] | (_ & request & text & Hl & _ & Hsafe & Hlc & _)];
        [auto|]. right. exists request. rewrite Hlc. auto. }
    assert (Hreg : activeProcesses w1 = activeProcesses w
                   \/ activeProcesses w1
                      = Registry.delete (procName (processCounter w + 1))
                          (Registry.set (procName (processCounter w + 1))
                             (processCounter w + 1) (activeProcesses w))
                   \/ exists id, activeProcesses w1 = Registry.delete id (activeProcesses w)).
    { destruct Hworld as [[Ha _] | (Ha & _)]; auto. }
    destruct Hout as [-> | (e & -> & ->)].
    - destruct (Hres r eq_refl) as (Hid & H0 & H1). repeat split; auto.
    - cbn. repeat split; auto; discriminate. }
  destruct d as [captured|cleanCmd]; cbn [dispatchOne] in Hd.
  - destruct (structuredBlock env captured w) as [w1' r'] eqn:Hsb.
    injection Hd as <- <-.
    pose proof (structuredBlock_cases captured w) as Hcases. cbn zeta in Hcases.
    rewrite Hsb in Hcases. cbn [fst snd] in Hcases.
    destruct Hcases as [(msg & [= -> ->]) | [(c & options & Hw & Hr) | [(p & Hk) | Hl]]].
    + cbn. repeat split; auto; discriminate.
    + destruct (executeTerminalCommand env c options w) as [w2 out] eqn:Hrun.
      cbn [fst snd] in Hw, Hr. subst w2.
      apply (Hcmd c options out Hrun).
      destruct out as [r2|e]; [left; now subst|right; eauto].
    + cbn zeta in Hk. injection Hk as -> ->.
      pose proof (killProcess_fields p w) as Hf. cbn zeta in Hf.
      destruct Hf as (Hc & Hlog & Hreg).
      cbn [processId exitCode success].
      split; [left; split; [exact Hc|reflexivity]|].
      split; [destruct (includes _ CROSS_MARK); [discriminate|reflexivity]|].
      split; [destruct (includes _ CROSS_MARK); [discriminate|auto]|].
      split; [left; exact Hlog|]. destruct Hreg as [Hreg | Hreg]; auto.
    + injection Hl as -> ->. cbn. repeat split; auto.
  - apply (Hcmd (JStr cleanCmd) [] (Ok r) Hd). left. reflexivity.
Qed.

End RunFacts.

(** ** What a run starts, numbers and leaves behind *)

Section RunProperties.

Variable env : Env.

Lemma ascendingWithin_lower (low low' high : N) (ns : list N) :
  (low' <= low)%N -> ascendingWithin low high ns -> ascendingWithin low' high ns.
Proof.
  destruct ns as [|n rest]; cbn; [auto|]. intros Hle [[Hlt Hhi] Hrest].
  split; [lia|exact Hrest].
Qed.

Lemma ascendingWithin_above (low high : N) (ns : list N) :
  ascendingWithin low high ns -> Forall (fun n => (low < n <= high)%N) ns.
Proof.
  revert low. induction ns as [|n rest IH]; intros low; cbn; [constructor|].
  intros [Hn Hrest]. constructor; [exact Hn|].
  apply IH in Hrest. eapply Forall_impl; [|exact Hrest]. cbn. intros a Ha. lia.
Qed.

Lemma ascendingWithin_NoDup (low high : N) (ns : list N) :
  ascendingWithin low high ns -> NoDup ns.
Proof.
  revert low. induction ns as [|n rest IH]; intros low; cbn; [constructor|].
  intros [Hn Hrest]. constructor; [|eapply IH; exact Hrest].
  intros Hin. apply ascendingWithin_above in Hrest.
  rewrite Forall_forall in Hrest. specialize (Hrest n Hin). lia.
Qed.

Lemma NoDup_map_procName (ns : list N) : NoDup ns -> NoDup (map procName ns).
Proof.
  induction 1 as [|n rest Hn Hnd IH]; cbn; constructor; [|exact IH].
  rewrite in_map_iff. intros (m & Heq & Hin). apply procName_inj in Heq. now subst.
Qed.

Lemma chain_numbers (w : World) (ds : list Directive) (rs : list TerminalResult)
    (w' : World) :
  chain env w ds rs w' ->
  (processCounter w <= processCounter w')%N
  /\ exists ns, processIdsOf rs = map procName ns
                /\ ascendingWithin (processCounter w) (processCounter w') ns.
Proof.
  induction 1 as [w|w d ds r rs w1 w2 Hd Hch (Hle & ns & Hids & Hasc)].
  - split; [lia|]. exists []. split; [reflexivity|exact I].
  - pose proof (dispatchOne_fields env d w w1 r Hd) as H. cbn zeta in H.
    destruct H as (Hcount & _).
    destruct Hcount as [[Hc Hid] | [Hc [Hid | Hid]]].
    + split; [lia|]. exists ns. cbn [processIdsOf flat_map]. rewrite Hid. cbn [app].
      split; [exact Hids|]. rewrite <- Hc. exact Hasc.
    + split; [lia|]. exists ns. cbn [processIdsOf flat_map]. rewrite Hid. cbn [app].
      split; [exact Hids|]. eapply ascendingWithin_lower; [|exact Hasc]. lia.
    + split; [lia|]. exists (processCounter w1 :: ns).
      cbn [processIdsOf flat_map]. rewrite Hid. cbn [app map].
      split; [rewrite Hc; f_equal; exact Hids|].
      cbn [ascendingWithin]. split; [lia|exact Hasc].
Qed.

(** X1: every command a run starts has passed [validateCommand]:
    whatever the text, the platform and the world, what [exec] and
    [spawn] are given during the run are command lines the safety policy
    accepts. *)
Theorem run_starts_only_validated_commands (text : string) (w : World) :
  exists w' rs started,
    executeTerminalCommands env text w = (w', Ok rs)
    /\ launched w' = (launched w ++ started)%list
    /\ Forall (fun request => safe (validateCommand (launchCommand request)) = true)
              started.
Proof.
  unfold executeTerminalCommands.
  destruct (runBlocks_chain env (map group1 (structuredMatches text))
              (map group1 (plainMatches text)) w) as (w' & rs & -> & Hch).
  exists w', rs.
  pose (I := fun w1 : World =>
               exists started,
                 launched w1 = (launched w ++ started)%list
                 /\ Forall (fun request =>
                              safe (validateCommand (launchCommand request)) = true)
                           started).
  assert (Hinv : I w' /\ Forall (fun _ => True) rs).
  { apply (chain_invariant env I (fun _ => True)) with (w := w) (ds := directivesOf
             (map group1 (structuredMatches text)) (map group1 (plainMatches text)));
      [|exact Hch|exists []; split; [now rewrite app_nil_r|constructor]].
    intros d w1 w2 r (started & Hlog & Hsafe) Hd. split; [|exact Logic.I].
    pose proof (dispatchOne_fields env d w1 w2 r Hd) as H. cbn zeta in H.
    destruct H as (_ & _ & _ & [Hl | (request & Hl & Hok)] & _).
    - exists started. split; [congruence|exact Hsafe].
    - exists (started ++ [request])%list. split.
      + rewrite Hl, Hlog, app_assoc. reflexivity.
      + apply Forall_app. split; [exact Hsafe|]. constructor; [exact Hok|constructor]. }
  destruct Hinv as [(started & Hlog & Hsafe) _]. exists started. auto.
Qed.

(** X2: no two results of a run carry the same process id: the ids are
    [proc_n] for numbers [n] that grow strictly, above the counter the
    run found and up to the counter it leaves. *)
Theorem run_process_ids_are_fresh (text : string) (w : World) :
  exists w' rs ns,
    executeTerminalCommands env text w = (w', Ok rs)
    /\ processIdsOf rs = map procName ns
    /\ ascendingWithin (processCounter w) (processCounter w') ns
    /\ NoDup (processIdsOf rs).
Proof.
  unfold executeTerminalCommands.
  destruct (runBlocks_chain env (map group1 (structuredMatches text))
              (map group1 (plainMatches text)) w) as (w' & rs & -> & Hch).
  destruct (chain_numbers w _ rs w' Hch) as (_ & ns & Hids & Hasc).
  exists w', rs, ns. split; [reflexivity|]. split; [exact Hids|].
  split; [exact Hasc|]. rewrite Hids. apply NoDup_map_procName.
  eapply ascendingWithin_NoDup. exact Hasc.
Qed.

(** X3: a result that reports exit code 0 is a success, on every path of
    the dispatcher; a success reports 0, or -1 in the one case where
    [exec] hands over an error whose [code] is 0. *)
Theorem run_results_flags_agree (text : string) (w : World) :
  exists w' rs,
    executeTerminalCommands env text w = (w', Ok rs)
    /\ Forall (fun r => (exitCode r = JNum 0 -> success r = true)
                        /\ (success r = true
                            -> exitCode r = JNum 0 \/ exitCode r = JNum (-1))) rs.
Proof.
  unfold executeTerminalCommands.
  destruct (runBlocks_chain env (map group1 (structuredMatches text))
              (map group1 (plainMatches text)) w) as (w' & rs & -> & Hch).
  exists w', rs. split; [reflexivity|].
  eapply (chain_invariant env (fun _ => True)); [|exact Hch|exact I].
  intros d w1 w2 r _ Hd. split; [exact I|].
  pose proof (dispatchOne_fields env d w1 w2 r Hd) as H. cbn zeta in H.
  destruct H as (_ & H0 & H1 & _). auto.
Qed.

Lemma delete_absent (key : string) (m : list (string * N)) :
  Registry.get key m = None -> Registry.delete key m = m.
Proof.
  induction m as [|[k v] rest IH]; cbn; [reflexivity|].
  destruct (String.eqb k key); [discriminate|]. intros H. now rewrite IH.
Qed.

Lemma delete_set_fresh (key : string) (v : N) (m : list (string * N)) :
  Registry.get key m = None -> Registry.delete key (Registry.set key v m) = m.
Proof.
  induction m as [|[k v'] rest IH]; cbn.
  - now rewrite String.eqb_refl.
  - destruct (String.eqb k key) eqn:E; [discriminate|]. intros H.
    cbn. rewrite E. now rewrite IH.
Qed.

Lemma coherent_next_free (w : World) :
  coherent w ->
  Registry.get (procName (processCounter w + 1)) (activeProcesses w) = None.
Proof.
  intros [Hreg _].
  destruct (Registry.get _ (activeProcesses w)) as [h|] eqn:E; [|reflexivity].
  apply get_In in E. destruct (Hreg _ _ E) as [Heq Hle].
  apply procName_inj in Heq. lia.
Qed.

Lemma startsWith_append (p s : string) : startsWith (p ++ s) p = true.
Proof. induction p as [|a p IH]; cbn; [reflexivity|]. now rewrite Ascii.eqb_refl. Qed.

Lemma includes_prefix (p s : string) : includes (p ++ s) p = true.
Proof.
  destruct (p ++ s) eqn:E; cbn; rewrite <- E, startsWith_append; reflexivity.
Qed.

Lemma registry_restored_by_command (command : json)
    (options : list (string * json)) (w : World) :
  coherent w ->
  activeProcesses (fst (executeTerminalCommand env command options w))
  = activeProcesses w.
Proof.
  intros Hco.
  pose proof (executeTerminalCommand_fields env command options w) as H.
  cbn zeta in H. destruct H as (_ & _ & [[Hreg _] | (Hreg & _)]); [exact Hreg|].
  rewrite Hreg. apply delete_set_fresh, coherent_next_free, Hco.
Qed.


(** X5: in a run that starts on an empty registry, the processes of the
    run are never seen by its own [kill] and [list_processes]
    operations: the registry is empty again whenever the next operation
    starts, so no [kill] succeeds and every listing reads "No active
    processes". *)
Theorem run_alone_sees_no_process (text : string) (w : World) :
  coherent w ->
  activeProcesses w = [] ->
  exists w' rs,
    executeTerminalCommands env text w = (w', Ok rs)
    /\ activeProcesses w' = []
    /\ Forall (fun r => processId r = None -> success r = true ->
                        stdout r = CLIPBOARD ++ " No active processes") rs.
Proof.
  intros Hco Hempty. unfold executeTerminalCommands.
  destruct (runBlocks_chain env (map group1 (structuredMatches text))
              (map group1 (plainMatches text)) w) as (w' & rs & -> & Hch).
  exists w', rs. split; [reflexivity|].
  assert (H : (coherent w' /\ activeProcesses w' = [])
              /\ Forall (fun r => processId r = None -> success r = true ->
                                  stdout r = CLIPBOARD ++ " No active processes") rs).
  { eapply (chain_invariant env (fun w1 => coherent w1 /\ activeProcesses w1 = []));
      [|exact Hch|auto].
    clear. intros d w w1 r [Hco Hempty] Hd.
    assert (Hcmd : forall c options out,
              executeTerminalCommand env c options w = (w1, out) ->
              (out = Ok r \/ exists e, out = Throw e /\ r = caughtResult env e) ->
              (coherent w1 /\ activeProcesses w1 = [])
              /\ (processId r = None -> success r = true ->
                  stdout r = CLIPBOARD ++ " No active processes")).
    { intros c options out Hrun Hout.
      pose proof (executeTerminalCommand_coherent env c options w Hco) as Hco1.
      pose proof (registry_restored_by_command c options w Hco) as Hreg.
      pose proof (executeTerminalCommand_fields env c options w) as Hf.
      cbn zeta in Hf. rewrite Hrun in Hco1, Hreg, Hf. cbn [fst snd] in *.
      split; [split; [exact Hco1|congruence]|].
      destruct Hout as [-> | (e & -> & ->)].
      - destruct Hf as (_ & Hres & _). destruct (Hres r eq_refl) as (Hid & _).
        rewrite Hid. discriminate.
      - cbn. discriminate. }
    destruct d as [captured|cleanCmd]; cbn [dispatchOne] in Hd.
    - destruct (structuredBlock env captured w) as [w1' r'] eqn:Hsb.
      injection Hd as <- <-.
      pose proof (structuredBlock_cases env captured w) as Hcases. cbn zeta in Hcases.
      rewrite Hsb in Hcases. cbn [fst snd] in Hcases.
      destruct Hcases as [(msg & [= -> ->]) | [(c & options & Hw & Hr) | [(p & Hk) | Hl]]].
      + split; [auto|]. cbn. discriminate.
      + destruct (executeTerminalCommand env c options w) as [w2 out] eqn:Hrun.
        cbn [fst snd] in Hw, Hr. subst w2.
        apply (Hcmd c options out Hrun).
        destruct out as [r2|e]; [left; now subst|right; eauto].
      + cbn zeta in Hk. injection Hk as -> ->.
        assert (Hmsg : fst (killProcess env p w) = w
                       /\ includes (snd (killProcess env p w)) CROSS_MARK = true).
        { unfold killProcess. rewrite Hempty.
          destruct p; cbn [Registry.get fst snd]; split;
            try reflexivity; apply includes_prefix. }
        destruct Hmsg as [-> ->]. split; [auto|]. cbn. discriminate.
      + injection Hl as -> ->. split; [auto|]. cbn [stdout].
        unfold listActiveProcesses. rewrite Hempty. reflexivity.
    - apply (Hcmd (JStr cleanCmd) [] (Ok r) Hd). left. reflexivity. }
  destruct H as [[_ Hreg] Hq]. auto.
Qed.

End RunProperties.

(** ** What the scanner does not read *)

Section Unfenced.

Variable env : Env.

Lemma afterLit_append (p q s : string) :
  afterLit (p ++ q) s
  = match afterLit p s with
    | Some rest => afterLit q rest
    | None => None
    end.
Proof.
  revert s. induction p as [|a p IH]; intros s; cbn; [reflexivity|].
  destruct s as [|b s]; [reflexivity|]. destruct (Ascii.eqb a b); [apply IH|reflexivity].
Qed.

Lemma afterLit_startsWith (p s : string) :
  startsWith s p = false -> afterLit p s = None.
Proof.
  revert s. induction p as [|a p IH]; intros s; cbn; [discriminate|].
  destruct s as [|b s]; [reflexivity|]. destruct (Ascii.eqb a b); [apply IH|reflexivity].
Qed.

Lemma includes_false_cons (c : ascii) (s p : string) :
  includes (String c s) p = false ->
  startsWith (String c s) p = false /\ includes s p = false.
Proof.
  cbn [includes]. destruct (startsWith (String c s) p); [discriminate|auto].
Qed.

(** Both patterns begin with the fence and one of the four tags. *)
Lemma tagged_matchAt_none (r : regex) (s : string) :
  (forall tag, In tag fenceTags -> startsWith s (FENCE ++ tag) = false) ->
  matchAt (Seq (Lit FENCE) (Seq fenceTag r)) s = None.
Proof.
  intros Htag. unfold matchAt. cbn [run].
  destruct (afterLit FENCE s) as [rest|] eqn:E; [|reflexivity].
  assert (Hnone : forall tag, In tag fenceTags -> afterLit tag rest = None).
  { intros tag Hin. pose proof (afterLit_startsWith _ _ (Htag tag Hin)) as H.
    rewrite afterLit_append, E in H. exact H. }
  unfold fenceTag. cbn [run].
  rewrite (Hnone "terminal"), (Hnone "bash"), (Hnone "shell"), (Hnone "cmd");
    cbn; auto 6.
Qed.

Lemma scan_untagged (r : regex) (s : string) (pos : nat) :
  (forall tag, In tag fenceTags -> includes s (FENCE ++ tag) = false) ->
  scan (Seq (Lit FENCE) (Seq fenceTag r)) s pos 0 = [].
Proof.
  revert pos. induction s as [|c s IH]; intros pos Htag; cbn [scan]; [reflexivity|].
  rewrite tagged_matchAt_none.
  - apply IH. intros tag Hin. apply (includes_false_cons c s), Htag, Hin.
  - intros tag Hin. apply (includes_false_cons c s), Htag, Hin.
Qed.

(** X6: a text in which no fence is followed at once by [terminal],
    [bash], [shell] or [cmd] makes the dispatcher do nothing: no result,
    no process id taken, the world untouched.  (The tags are matched in
    lower case only.) *)
Theorem untagged_text_runs_nothing (text : string) (w : World) :
  (forall tag, In tag fenceTags -> includes text (FENCE ++ tag) = false) ->
  executeTerminalCommands env text w = (w, Ok []).
Proof.
  intros Htag. unfold executeTerminalCommands, structuredMatches, plainMatches, execAll.
  unfold terminalCommandRegex, simpleTerminalRegex.
  rewrite !scan_untagged by exact Htag. reflexivity.
Qed.

End Unfenced.

(** ** White space and letter case *)

Section Trimming.

Lemma isWhitespace_lowerChar (c : ascii) : isWhitespace (lowerChar c) = isWhitespace c.
Proof.
  destruct c as [b0 b1 b2 b3 b4 b5 b6 b7].
  destruct b0, b1, b2, b3, b4, b5, b6, b7; reflexivity.
Qed.

Lemma lowerChar_idem (c : ascii) : lowerChar (lowerChar c) = lowerChar c.
Proof.
  destruct c as [b0 b1 b2 b3 b4 b5 b6 b7].
  destruct b0, b1, b2, b3, b4, b5, b6, b7; reflexivity.
Qed.

Lemma toLowerCase_idem (s : string) : toLowerCase (toLowerCase s) = toLowerCase s.
Proof. induction s as [|c s IH]; cbn; [reflexivity|]. now rewrite lowerChar_idem, IH. Qed.

Lemma toLowerCase_append (a b : string) :
  toLowerCase (a ++ b) = toLowerCase a ++ toLowerCase b.
Proof. induction a as [|c a IH]; cbn; [reflexivity|]. now rewrite IH. Qed.

Lemma toLowerCase_trimStart (s : string) :
  toLowerCase (trimStart s) = trimStart (toLowerCase s).
Proof.
  induction s as [|c s IH]; cbn; [reflexivity|].
  rewrite isWhitespace_lowerChar. destruct (isWhitespace c); [exact IH|reflexivity].
Qed.

Lemma toLowerCase_trimEnd (s : string) :
  toLowerCase (trimEnd s) = trimEnd (toLowerCase s).
Proof.
  induction s as [|c s IH]; cbn; [reflexivity|].
  rewrite <- IH, isWhitespace_lowerChar.
  destruct (trimEnd s) as [|d r]; cbn; [|reflexivity].
  destruct (isWhitespace c); reflexivity.
Qed.

Lemma toLowerCase_trim (s : string) : toLowerCase (trim s) = trim (toLowerCase s).
Proof. unfold trim. now rewrite toLowerCase_trimEnd, toLowerCase_trimStart. Qed.

Lemma trimStart_idem (s : string) : trimStart (trimStart s) = trimStart s.
Proof.
  induction s as [|c s IH]; cbn; [reflexivity|].
  destruct (isWhitespace c) eqn:E; [exact IH|]. cbn. now rewrite E.
Qed.

Lemma trimEnd_idem (s : string) : trimEnd (trimEnd s) = trimEnd s.
Proof.
  induction s as [|c s IH]; cbn; [reflexivity|].
  destruct (trimEnd s) as [|d r] eqn:E.
  - destruct (isWhitespace c) eqn:Ec; cbn; [reflexivity|]. now rewrite Ec.
  - cbn [trimEnd] in *. rewrite IH. reflexivity.
Qed.

Lemma trimStart_trimEnd_fixed (t : string) :
  trimStart t = t -> trimStart (trimEnd t) = trimEnd t.
Proof.
  destruct t as [|a t]; [reflexivity|]. intros H.
  apply trimStart_fixed_head in H. cbn [trimEnd].
  destruct (trimEnd t); rewrite ?H; cbn; now rewrite H.
Qed.

Lemma trim_idem (s : string) : trim (trim s) = trim s.
Proof.
  unfold trim. rewrite trimStart_trimEnd_fixed by apply trimStart_idem.
  apply trimEnd_idem.
Qed.

Lemma startsWith_append_r (a t p : string) :
  startsWith a p = true -> startsWith (a ++ t) p = true.
Proof.
  revert a. induction p as [|c p IH]; intros a; cbn; [reflexivity|].
  destruct a as [|b a]; [discriminate|]. cbn.
  destruct (Ascii.eqb c b); [apply IH|discriminate].
Qed.

Lemma includes_append_r (a t p : string) :
  includes a p = true -> includes (a ++ t) p = true.
Proof.
  induction a as [|b a IH]; cbn [includes].
  - destruct (startsWith EmptyString p) eqn:E; [|discriminate]. intros _.
    destruct p; [|discriminate]. destruct t; reflexivity.
  - destruct (startsWith (String b a) p) eqn:E.
    + intros _. change (String b a ++ t) with (String b (a ++ t)).
      cbn [includes].
      change (String b (a ++ t)) with (String b a ++ t).
      now rewrite (startsWith_append_r _ t _ E).
    + intros H. change (String b a ++ t) with (String b (a ++ t)).
      apply includes_cons, IH, H.
Qed.

Lemma trimEnd_prefix (s : string) : exists t, s = trimEnd s ++ t.
Proof.
  induction s as [|c s [t IH]]; [exists EmptyString; reflexivity|].
  cbn [trimEnd]. destruct (trimEnd s) as [|d r].
  - destruct (isWhitespace c); [exists (String c s); reflexivity|].
    exists s. reflexivity.
  - exists t. cbn. now rewrite IH at 1.
Qed.

Lemma includes_of_trimStart (s p : string) :
  includes (trimStart s) p = true -> includes s p = true.
Proof.
  induction s as [|c s IH]; cbn [trimStart]; [auto|].
  destruct (isWhitespace c); [|auto]. intros H. apply includes_cons, IH, H.
Qed.

Lemma includes_of_trim (s p : string) :
  includes (trim s) p = true -> includes s p = true.
Proof.
  unfold trim. intros H. apply includes_of_trimStart.
  destruct (trimEnd_prefix (trimStart s)) as [t Ht]. rewrite Ht.
  apply includes_append_r, H.
Qed.

End Trimming.

(** ** More of the safety policy *)

Section PolicyInvariance.

(** X7: the verdict of [validateCommand] depends neither on the case of
    the letters nor on white space around the command: the lower-cased
    command and the trimmed command get the verdict, and the reason, of
    the command itself. *)
Theorem validateCommand_ignores_case_and_padding (command : string) :
  validateCommand (toLowerCase command) = validateCommand command
  /\ validateCommand (trim command) = validateCommand command.
Proof.
  unfold validateCommand. split.
  - now rewrite toLowerCase_idem.
  - now rewrite toLowerCase_trim, trim_idem.
Qed.

Lemma unsafe_of_includes (command : string) :
  (exists dangerous, In dangerous DANGEROUS_COMMANDS
                     /\ includes (toLowerCase command) (toLowerCase dangerous) = true)
  \/ includes (toLowerCase command) "sudo su" = true
  \/ includes (toLowerCase command) "su -" = true ->
  safe (validateCommand command) = false.
Proof.
  intros H. unfold validateCommand.
  destruct (firstDangerous (trim (toLowerCase command)) DANGEROUS_COMMANDS) eqn:E;
    [reflexivity|].
  destruct H as [(d & Hin & Hinc) | H].
  - rewrite firstDangerous_none in E. specialize (E d Hin).
    destruct (dangerous_entries_untrimmed d Hin) as (Hne & Hs & He).
    rewrite (includes_trim _ _ Hinc Hne Hs He) in E. discriminate.
  - assert (Hor : orb (includes (trim (toLowerCase command)) "sudo su")
                      (includes (trim (toLowerCase command)) "su -") = true).
    { apply orb_true_iff. destruct H as [H | H]; [left|right];
        apply includes_trim; try exact H; try reflexivity; discriminate. }
    rewrite Hor. reflexivity.
Qed.

(** X8: a command refused for a deny-list entry or for privilege
    escalation stays refused inside any longer command line: whatever is
    written before and after it, the verdict is still unsafe. *)
Theorem refused_pattern_cannot_be_wrapped (before command after : string) :
  let lowerCommand := trim (toLowerCase command) in
  denyListed lowerCommand \/ escalates lowerCommand ->
  safe (validateCommand (before ++ command ++ after)) = false.
Proof.
  cbn zeta. intros H. apply unsafe_of_includes.
  assert (Hwrap : forall p,
            includes (trim (toLowerCase command)) p = true ->
            includes (toLowerCase (before ++ command ++ after)) p = true).
  { intros p Hp. rewrite !toLowerCase_append.
    apply includes_skip, includes_append_r, includes_of_trim, Hp. }
  destruct H as [(d & Hin & Hinc) | [H | H]].
  - left. exists d. auto.
  - right. left. auto.
  - right. right. auto.
Qed.

End PolicyInvariance.

(** ** Kill requests, timers and the event loop *)

Section AfterKill.

Variable env : Env.

(** X10: a kill cannot be repeated: once [killProcess] has answered
    "terminated" for an id, a second request for the same id answers
    "not found", sends no signal and changes nothing, although the
    process may still be running.  Through the dispatcher the second
    request is a failure with exit code -1 whose message is in [stdout]. *)
Theorem kill_is_not_repeatable (id : string) (h : N) (w : World) :
  nonEmpty id = true ->
  Registry.get id (activeProcesses w) = Some h ->
  killError env h SIGTERM = None ->
  let w1 := fst (killProcess env (JStr id) w) in
  let notFound := CROSS_MARK ++ " Process " ++ id ++ " not found or already terminated" in
  killProcess env (JStr id) w1 = (w1, notFound)
  /\ isRunning h w1 = isRunning h w
  /\ dispatchOperation env (JStr "kill") (JObj [("processId", JStr id)]) w1
     = (w1, Ok (mkResult false notFound EmptyString (JNum (-1)) 0 None
                  (JStr (TERMINAL_BASE_DIR env)))).
Proof.
  intros Hne Hget Hkill. cbn zeta. rewrite (killProcess_found env id h w Hget Hkill).
  cbn [fst].
  set (w1 := deleteProcess id _).
  assert (Hgone : Registry.get id (activeProcesses w1) = None)
    by apply get_delete_same.
  assert (Hagain : killProcess env (JStr id) w1
                   = (w1, CROSS_MARK ++ " Process " ++ id
                            ++ " not found or already terminated")).
  { unfold killProcess. now rewrite Hgone. }
  split; [exact Hagain|]. split.
  - subst w1. unfold isRunning, childAt, deleteProcess, setTimeout. cbn [children].
    fold (childAt h (fst (childKill env h SIGTERM w))).
    fold (isRunning h (fst (childKill env h SIGTERM w))).
    apply isRunning_childKill_SIGTERM.
  - unfold dispatchOperation. cbn [toLowerCase fieldsOf].
    change (String.eqb (toLowerCase "kill") "execute") with false.
    change (String.eqb (toLowerCase "kill") "interactive") with false.
    change (String.eqb (toLowerCase "kill") "kill") with true.
    cbn iota.
    assert (Hf : Js.whenTruthy (Js.getField "processId" [("processId", JStr id)])
                 = if nonEmpty id then Some (JStr id) else None).
    { unfold Js.whenTruthy. cbn. destruct (nonEmpty id); reflexivity. }
    rewrite Hf, Hne, Hagain, includes_prefix. reflexivity.
Qed.

End AfterKill.

Section PendingTimers.

Variable env : Env.

Lemma advanceRounds_keeps_later (rounds : nat) (target : N) (w : World)
    (t : N * Callback) :
  In t (timers w) -> (target < fst t)%N ->
  In t (timers (advanceRounds rounds env target w)).
Proof.
  revert w. induction rounds as [|rounds IH]; intros w Hin Hlater; cbn [advanceRounds];
    [exact Hin|].
  destruct (popEarliest (timers w)) as [[[due cb] rest]|] eqn:E; [|exact Hin].
  destruct (due <=? target)%N eqn:Hdue; [|exact Hin].
  apply N.leb_le in Hdue. apply IH; [|exact Hlater].
  apply runCallback_timers_grow. cbn [timers withClock withTimers].
  destruct (popEarliest_some _ _ _ E) as (_ & Hsplit & _).
  destruct (Hsplit t Hin) as [-> | Hrest]; [cbn in Hlater; lia|exact Hrest].
Qed.

(** X11: the timeout timer of a command is never cleared.  When an
    execute command ends before its timeout, the timer set for it is
    still pending in the world the command leaves, due at the start time
    plus the timeout it was given (whatever its size: the 30000 ms are a
    default, not a bound); when it fires later it finds the entry gone
    and does nothing. *)
Theorem timeout_timer_outlives_command (command dir : string)
    (timeout envVars : json) (w : World)
    (p : option N) (elapsed : N) (error : option ExecError) (out err : string) :
  let h := processCounter w in
  let request := ViaExec command dir timeout MAX_OUTPUT_SIZE envVars in
  exec env request h = ExecRuns p elapsed error out err ->
  (elapsed < timerDelay env timeout)%N ->
  let w' := fst (executeNonInteractiveCommand env command dir (procName h)
                   timeout envVars w) in
  In ((clock w + timerDelay env timeout)%N, OnTimeout (procName h) h) (timers w')
  /\ hasProcess (procName h) w' = false
  /\ runCallback env (OnTimeout (procName h) h) w' = w'
  /\ (forall T, timeout = JNum T -> (1 <= T <= 2147483647)%Z ->
        timerDelay env timeout = Z.to_N T).
Proof.
  cbn zeta. intros Hexec Hearly. unfold executeNonInteractiveCommand.
  rewrite Hexec. unfold execCallback. cbn [fst].
  set (w1 := trackChild env _ _ p timeout _ w).
  assert (Hclock : clock w1 = clock w) by reflexivity.
  assert (Hin : In ((clock w + timerDelay env timeout)%N,
                    OnTimeout (procName (processCounter w)) (processCounter w))
                   (timers w1)).
  { subst w1. unfold trackChild, setTimeout. cbn [timers withTimers].
    apply in_or_app. right. left. reflexivity. }
  assert (Hgone : hasProcess (procName (processCounter w))
                    (deleteProcess (procName (processCounter w))
                       (childClosed (processCounter w)
                          (advance env (clock w1 + elapsed) w1))) = false).
  { unfold hasProcess, Registry.has, deleteProcess. cbn [activeProcesses withRegistry].
    now rewrite get_delete_same. }
  split; [|split; [exact Hgone|split]].
  - unfold deleteProcess. cbn [timers withRegistry].
    destruct (childClosed_frame (processCounter w)
                (advance env (clock w1 + elapsed) w1)) as (_ & _ & _ & -> & _).
    unfold advance. apply advanceRounds_keeps_later; [exact Hin|].
    cbn [fst]. rewrite Hclock. lia.
  - cbn [runCallback]. now rewrite Hgone.
  - intros T -> HT. unfold timerDelay.
    destruct (1 <=? T)%Z eqn:E1; [|apply Z.leb_gt in E1; lia].
    destruct (T <=? 2147483647)%Z eqn:E2; [|apply Z.leb_gt in E2; lia].
    reflexivity.
Qed.

End PendingTimers.

Section EventLoop.

Variable env : Env.

(** X12: ids stay coherent whatever happens between two turns of the
    engine's code.  Along any sequence of events (commands starting or
    being refused, timers firing, children ending, completions, kill
    requests, the clock moving) every key of the registry and every id
    held by a pending timer stays the name [proc_n] of the call [n] that
    created the child it refers to, the counter never decreases, and the
    id the next call will take is not registered. *)
Theorem event_loop_keeps_ids_coherent (evs : list Event) (w w' : World) :
  coherent w ->
  steps env evs w = Some w' ->
  coherent w'
  /\ (processCounter w <= processCounter w')%N
  /\ hasProcess (procName (processCounter w' + 1)) w' = false.
Proof.
  revert w. induction evs as [|ev evs IH]; intros w Hco Hsteps; cbn [steps] in Hsteps.
  - injection Hsteps as <-. split; [exact Hco|]. split; [lia|].
    unfold hasProcess, Registry.has. now rewrite coherent_next_free.
  - destruct (step env ev w) as [w1|] eqn:E; [|discriminate].
    pose proof (step_coherent env ev w w1 Hco E) as Hco1.
    pose proof (step_counter env ev w w1 E) as Hle.
    destruct (IH w1 Hco1 Hsteps) as (Hco' & Hle' & Hfree).
    split; [exact Hco'|]. split; [lia|exact Hfree].
Qed.

End EventLoop.

Section WorkingDirectory.

Variable env : Env.


End WorkingDirectory.

Section DirectiveMode.

Variable env : Env.

(** X14: the [execute] operation hands the whole directive to
    [executeTerminalCommand] as its options, so a directive that
    carries a truthy [interactive] field, be it the string ["false"],
    is run in interactive mode: the program is started by [spawn]
    without a shell, not by [exec].  The [interactive] operation sets
    the field itself, after the fields of the directive, so there a
    field [interactive: false] changes nothing. *)
Theorem execute_directive_honours_interactive_field
    (fields : list (string * json)) (text : string) (v : json) (w : World) :
  Js.getField "command" fields = Some (JStr text) ->
  nonEmpty text = true ->
  safe (validateCommand text) = true ->
  Js.getField "workingDir" fields = None ->
  Js.getField "interactive" fields = Some v ->
  ensureDir env (pathResolve env (TERMINAL_BASE_DIR env)) (processCounter w + 1) = None ->
  let dir := pathResolve env (TERMINAL_BASE_DIR env) in
  let request :=
    ViaSpawn (hd EmptyString (split SPACE text)) (tl (split SPACE text)) dir
             (Js.withDefault (Js.getField "env" fields) (JObj [])) in
  let spawned :=
    match spawn env request (processCounter w + 1) with
    | SpawnThrows _ => launched w
    | SpawnRuns _ _ _ _ => (launched w ++ [request])%list
    end in
  (Js.truthy (Some v) = true ->
   launched (fst (dispatchOperation env (JStr "execute") (JObj fields) w)) = spawned)
  /\ launched (fst (dispatchOperation env (JStr "interactive") (JObj fields) w)) = spawned.
Proof.
  intros Hcmd Htext Hsafe Hdir Hia Hmk. cbn zeta.
  assert (Hrun : forall options,
            Js.getField "workingDir" options = None ->
            Js.getField "env" options = Js.getField "env" fields ->
            (exists i, Js.getField "interactive" options = Some i
                       /\ Js.truthy (Some i) = true) ->
            launched (fst (executeTerminalCommand env (JStr text) options w))
            = match spawn env
                      (ViaSpawn (hd EmptyString (split SPACE text)) (tl (split SPACE text))
                         (pathResolve env (TERMINAL_BASE_DIR env))
                         (Js.withDefault (Js.getField "env" fields) (JObj [])))
                      (processCounter w + 1) with
              | SpawnThrows _ => launched w
              | SpawnRuns _ _ _ _ =>
                  (launched w
                     ++ [ViaSpawn (hd EmptyString (split SPACE text))
                           (tl (split SPACE text))
                           (pathResolve env (TERMINAL_BASE_DIR env))
                           (Js.withDefault (Js.getField "env" fields) (JObj []))])%list
              end).
  { intros options Hd He (i & Hi & Ht). unfold executeTerminalCommand.
    rewrite Hsafe, Hd, He, Hi. cbn [negb Js.withDefault validateWorkingDir].
    cbn [processCounter withCounter]. rewrite Hmk, Ht.
    match goal with
    | |- context [executeInteractiveCommand env text ?d ?id ?t ?ev ?w1] =>
        pose proof (executeInteractiveCommand_fields env text d id t ev w1) as H;
        unfold executeInteractiveCommand in *;
        cbn [processCounter withCounter] in *
    end.
    destruct (spawn env _ _) as [e|p elapsed events final].
    - reflexivity.
    - cbn zeta in H. destruct H as (_ & [(_ & _ & e & He') | (_ & Hlog & _)]).
      + cbn [snd] in He'. destruct final; discriminate He'.
      + destruct final; cbn [fst] in *; exact Hlog. }
  assert (Hwhen : Js.whenTruthy (Js.getField "command" fields) = Some (JStr text)).
  { unfold Js.whenTruthy. rewrite Hcmd. cbn. now rewrite Htext. }
  split.
  - intros Htruthy. unfold dispatchOperation. cbn [toLowerCase fieldsOf].
    change (String.eqb (toLowerCase "execute") "execute") with true. cbn iota.
    rewrite Hwhen. apply Hrun; [exact Hdir|reflexivity|eauto].
  - unfold dispatchOperation. cbn [toLowerCase fieldsOf].
    change (String.eqb (toLowerCase "interactive") "execute") with false.
    change (String.eqb (toLowerCase "interactive") "interactive") with true.
    cbn iota. rewrite Hwhen.
    assert (Happ : forall key,
              String.eqb "interactive" key = false ->
              Js.getField key (fields ++ [("interactive", JBool true)])%list
              = Js.getField key fields).
    { intros key Hk. clear - Hk.
      induction fields as [|[k x] rest IH]; cbn [app Js.getField].
      - now rewrite Hk.
      - now rewrite IH. }
    apply Hrun.
    + rewrite Happ by reflexivity. exact Hdir.
    + apply Happ. reflexivity.
    + exists (JBool true). split; [|reflexivity].
      clear. induction fields as [|[k x] rest IH]; cbn [app Js.getField];
        [reflexivity|]. now rewrite IH.
Qed.

End DirectiveMode.

(** ** The properties of a run on concrete inputs *)


Lemma run_alone_sees_no_process_witness :
  exists w' rs,
    executeTerminalCommands echoEnv
      (inlineBlock "terminal" (directiveWith "execute" "command" "sleep 60")
       ++ inlineBlock "terminal" (directiveWith "kill" "processId" "proc_1")
       ++ inlineBlock "terminal" (directive "list_processes")) emptyWorld
    = (w', Ok rs)
    /\ activeProcesses w' = []
    /\ Forall (fun r => processId r = None -> success r = true ->
                        stdout r = CLIPBOARD ++ " No active processes") rs.
Proof.
  exact (run_alone_sees_no_process echoEnv _ emptyWorld emptyWorld_coherent eq_refl).
Defined.

Lemma untagged_text_runs_nothing_witness :
  executeTerminalCommands echoEnv (fencedBlock "python" "print(1)") emptyWorld
  = (emptyWorld, Ok []).
Proof.
  apply untagged_text_runs_nothing.
  intros tag [<-|[<-|[<-|[<-|[]]]]]; reflexivity.
Defined.

Lemma refused_pattern_cannot_be_wrapped_witness :
  safe (validateCommand ("echo start; " ++ "RM -RF /" ++ " # clean up")) = false.
Proof.
  apply refused_pattern_cannot_be_wrapped. left.
  exists "rm -rf /". split; [left; reflexivity|reflexivity].
Defined.

Lemma kill_is_not_repeatable_witness :
  let w1 := fst (killProcess echoEnv (JStr "proc_1") oneTracked) in
  killProcess echoEnv (JStr "proc_1") w1
  = (w1, CROSS_MARK ++ " Process proc_1 not found or already terminated")
  /\ isRunning 1 w1 = true.
Proof.
  destruct (kill_is_not_repeatable echoEnv "proc_1" 1 oneTracked
              eq_refl eq_refl eq_refl) as (Hagain & Hrun & _).
  split; [exact Hagain|exact Hrun].
Defined.

Lemma timeout_timer_outlives_command_witness :
  let w' := fst (executeNonInteractiveCommand echoEnv "ls" "/home/user" (procName 0)
                   (JNum 45000) (JObj []) emptyWorld) in
  In (45000%N, OnTimeout (procName 0) 0%N) (timers w')
  /\ hasProcess (procName 0) w' = false.
Proof.
  destruct (timeout_timer_outlives_command echoEnv "ls" "/home/user" (JNum 45000)
              (JObj []) emptyWorld (Some 1000%N) 10 None "ls" EmptyString
              eq_refl eq_refl) as (Hin & Hgone & _).
  split; [exact Hin|exact Hgone].
Defined.

Lemma event_loop_keeps_ids_coherent_witness :
  exists w',
    steps echoEnv
      [Start (Some 4242%N) (JNum 30000)
         (ViaExec "sleep 60" "/home/user" (JNum 30000) MAX_OUTPUT_SIZE (JObj []));
       KillRequest (JStr "proc_1"); Refusal; Tick 5000; Fire 1] emptyWorld = Some w'
    /\ coherent w'
    /\ hasProcess (procName (processCounter w' + 1)) w' = false.
Proof.
  eexists. split; [vm_compute; reflexivity|].
  destruct (event_loop_keeps_ids_coherent echoEnv
              [Start (Some 4242%N) (JNum 30000)
                 (ViaExec "sleep 60" "/home/user" (JNum 30000) MAX_OUTPUT_SIZE (JObj []));
               KillRequest (JStr "proc_1"); Refusal; Tick 5000; Fire 1]
              emptyWorld _ emptyWorld_coherent eq_refl) as (Hco & _ & Hfree).
  split; [exact Hco|exact Hfree].
Defined.


Lemma execute_directive_honours_interactive_field_witness :
  launched (fst (dispatchOperation echoEnv (JStr "execute")
                   (JObj [("operation", JStr "execute"); ("command", JStr "ls | wc -l");
                          ("interactive", JStr "false")]) emptyWorld))
  = [ViaSpawn "ls" ["|"; "wc"; "-l"] "/home/user" (JObj [])].
Proof.
  refine (proj1 (execute_directive_honours_interactive_field echoEnv
                   [("operation", JStr "execute"); ("command", JStr "ls | wc -l");
                    ("interactive", JStr "false")] "ls | wc -l" (JStr "false") emptyWorld
                   eq_refl eq_refl eq_refl eq_refl eq_refl eq_refl) eq_refl).
Defined.

(* ================================================================== *)
(** * The prompt budget *)
(* ================================================================== *)

Section TokenEstimate.

Lemma splitRuns_not_nil (skip : nat) (inRun : bool) (s : string) :
  Prompt.splitRuns skip inRun s <> [].
Proof.
  revert skip inRun. induction s as [|c s IH]; intros skip inRun;
    cbn [Prompt.splitRuns]; [discriminate|].
  destruct skip as [|skip]; [|apply IH].
  destruct (Prompt.spaceWidth (String c s)) as [|width].
  - destruct (Prompt.splitRuns 0 false s); discriminate.
  - destruct inRun; [apply IH|discriminate].
Qed.

(** Four times the estimate is the least multiple of four that reaches
    three times the number of words and the number of characters. *)
Lemma estimateTokens_quarters (text : string) :
  let words := Z.of_nat (List.length (Prompt.splitWhitespace text)) in
  let characters := Z.of_nat (Prompt.utf16Length text) in
  let m := Z.max (3 * words) characters in
  (m <= 4 * Prompt.estimateTokens text < m + 4)%Z.
Proof.
  cbn zeta. unfold Prompt.estimateTokens.
  set (w := Z.of_nat (List.length (Prompt.splitWhitespace text))).
  set (c := Z.of_nat (Prompt.utf16Length text)).
  set (a := QArith_base.Qmult _ _). set (b := QArith_base.Qdiv _ _).
  pose proof (Qround.Qle_ceiling (Qminmax.Qmax a b)) as Hup.
  pose proof (Qround.Qceiling_lt (Qminmax.Qmax a b)) as Hlow.
  set (E := Qround.Qceiling (Qminmax.Qmax a b)) in *.
  pose proof (Qminmax.Q.le_max_l a b) as Ha.
  pose proof (Qminmax.Q.le_max_r a b) as Hb.
  assert (Ha' : QArith_base.Qle a (QArith_base.inject_Z E))
    by (eapply QArith_base.Qle_trans; eassumption).
  assert (Hb' : QArith_base.Qle b (QArith_base.inject_Z E))
    by (eapply QArith_base.Qle_trans; eassumption).
  assert (Hcase : QArith_base.Qlt (QArith_base.inject_Z (E - 1)) a
                  \/ QArith_base.Qlt (QArith_base.inject_Z (E - 1)) b).
  { destruct (Qminmax.Q.max_dec a b) as [H|H].
    - left. eapply QArith_base.Qlt_le_trans; [exact Hlow|].
      rewrite H. apply QArith_base.Qle_refl.
    - right. eapply QArith_base.Qlt_le_trans; [exact Hlow|].
      rewrite H. apply QArith_base.Qle_refl. }
  clearbody E w c. clear Hup Hlow Ha Hb. subst a b.
  unfold QArith_base.Qle, QArith_base.Qlt in Ha', Hb', Hcase.
  cbn in Ha', Hb', Hcase. lia.
Qed.

Lemma estimateTokens_positive (text : string) : (1 <= Prompt.estimateTokens text)%Z.
Proof.
  pose proof (estimateTokens_quarters text) as H. cbn zeta in H.
  pose proof (splitRuns_not_nil 0 false text) as Hne. unfold Prompt.splitWhitespace in H.
  destruct (Prompt.splitRuns 0 false text) as [|piece pieces]; [contradiction|].
  cbn [List.length] in H. lia.
Qed.

(** X15: [estimateTokens] is the larger of three quarters of the number
    of words and a quarter of the number of characters, rounded up; the
    words are the pieces between the runs of white space, ASCII or not,
    and the characters are UTF-16 code units.  It is never 0: the empty
    text is one (empty) word, so every text, even the empty one, costs
    at least one token; and it is never less than a quarter of the
    length of the text. *)
Theorem estimateTokens_bounds (text : string) :
  let words := Z.of_nat (List.length (Prompt.splitWhitespace text)) in
  let characters := Z.of_nat (Prompt.utf16Length text) in
  Prompt.estimateTokens text = ((Z.max (3 * words) characters + 3) / 4)%Z
  /\ (1 <= words)%Z
  /\ (1 <= Prompt.estimateTokens text)%Z
  /\ (characters <= 4 * Prompt.estimateTokens text)%Z
  /\ (3 * words <= 4 * Prompt.estimateTokens text)%Z
  /\ Prompt.estimateTokens EmptyString = 1%Z.
Proof.
  cbn zeta. pose proof (estimateTokens_quarters text) as H. cbn zeta in H.
  pose proof (estimateTokens_positive text) as Hpos.
  set (w := Z.of_nat (List.length (Prompt.splitWhitespace text))) in *.
  set (c := Z.of_nat (Prompt.utf16Length text)) in *.
  split.
  - apply Z.div_unique with (r := (Z.max (3 * w) c + 3 - 4 * Prompt.estimateTokens text)%Z);
      lia.
  - split.
    + subst w. unfold Prompt.splitWhitespace.
      pose proof (splitRuns_not_nil 0 false text) as Hne.
      destruct (Prompt.splitRuns 0 false text); [contradiction|]. cbn [List.length]. lia.
    + split; [exact Hpos|]. split; [lia|]. split; [lia|reflexivity].
Qed.

End TokenEstimate.

Section MessageLimit.

Lemma splice_at {A : Type} (a b : list A) (x : A) :
  Prompt.splice (List.length a) x (a ++ b)%list = (a ++ x :: b)%list.
Proof. induction a as [|y a IH]; cbn; [destruct b; reflexivity|]. now rewrite IH. Qed.

Lemma tokensOf_app (a b : list Prompt.Message) :
  Prompt.tokensOf (a ++ b)%list = (Prompt.tokensOf a + Prompt.tokensOf b)%Z.
Proof.
  unfold Prompt.tokensOf. induction a as [|m a IH]; cbn; [reflexivity|].
  rewrite IH. lia.
Qed.

Lemma tokensOf_cons (m : Prompt.Message) (a : list Prompt.Message) :
  Prompt.tokensOf (m :: a)
  = (Prompt.estimateTokens (Prompt.content m) + Prompt.tokensOf a)%Z.
Proof. reflexivity. Qed.

Lemma tokensOf_rev (a : list Prompt.Message) :
  Prompt.tokensOf (rev a) = Prompt.tokensOf a.
Proof.
  induction a as [|m a IH]; cbn [rev]; [reflexivity|].
  rewrite tokensOf_app, IH, !tokensOf_cons. cbn. lia.
Qed.

Lemma tokensOf_length (a : list Prompt.Message) :
  (Z.of_nat (List.length a) <= Prompt.tokensOf a)%Z.
Proof.
  induction a as [|m a IH]; [cbn; lia|].
  rewrite tokensOf_cons. cbn [List.length].
  pose proof (estimateTokens_positive (Prompt.content m)). lia.
Qed.

(** The loop takes the longest run of the newest messages whose
    estimates, added to what is counted already, stay within the
    limit. *)
Lemma takeNewest_spec (maxTokens : Z) (sys : list Prompt.Message)
    (newestFirst kept : list Prompt.Message) (total : Z) :
  exists taken rest,
    newestFirst = (taken ++ rest)%list
    /\ Prompt.takeNewest maxTokens (List.length sys) newestFirst total (sys ++ kept)%list
       = (sys ++ rev taken ++ kept)%list
    /\ (taken <> [] -> (total + Prompt.tokensOf taken <= maxTokens)%Z)
    /\ (forall msg rest', rest = msg :: rest' ->
          (total + Prompt.tokensOf taken + Prompt.estimateTokens (Prompt.content msg)
           > maxTokens)%Z).
Proof.
  revert kept total.
  induction newestFirst as [|msg older IH]; intros kept total; cbn [Prompt.takeNewest].
  - exists [], []. split; [reflexivity|]. split; [reflexivity|].
    split; [congruence|]. intros msg rest' H. discriminate H.
  - cbn zeta.
    destruct (total + Prompt.estimateTokens (Prompt.content msg) >? maxTokens)%Z eqn:E.
    + exists [], (msg :: older). cbn. split; [reflexivity|]. split; [reflexivity|].
      split; [congruence|]. intros msg' rest' [= <- <-]. apply Z.gtb_lt in E. lia.
    + rewrite splice_at.
      destruct (IH (msg :: kept) (total + Prompt.estimateTokens (Prompt.content msg))%Z)
        as (taken & rest & Hsplit & Hres & Hfit & Hstop).
      exists (msg :: taken), rest. split; [cbn; now rewrite Hsplit|].
      split; [rewrite Hres; cbn [rev]; now rewrite <- !app_assoc|].
      assert (Hle : (total + Prompt.estimateTokens (Prompt.content msg) <= maxTokens)%Z).
      { destruct (Z.gtb_spec (total + Prompt.estimateTokens (Prompt.content msg))
                    maxTokens); [discriminate|lia]. }
      split.
      * intros _. rewrite tokensOf_cons.
        destruct taken as [|t taken']; [cbn; lia|].
        assert (Hne : t :: taken' <> []) by discriminate.
        specialize (Hfit Hne). lia.
      * intros msg' rest' Heq. specialize (Hstop msg' rest' Heq).
        rewrite tokensOf_cons. lia.
Qed.

(** [limitMessagesByTokens] as a cut of the messages that are not
    system messages. *)
Lemma limitMessagesByTokens_cut (messages : list Prompt.Message) (maxTokens : option Z) :
  exists dropped kept,
    filter (fun msg => negb (Prompt.isSystem msg)) messages = (dropped ++ kept)%list
    /\ Prompt.limitMessagesByTokens messages maxTokens
       = (Prompt.systemPart messages ++ kept)%list
    /\ (kept <> [] ->
        (Prompt.tokensOf (Prompt.systemPart messages ++ kept) <= Prompt.orDefault maxTokens)%Z)
    /\ (forall older msg, dropped = (older ++ [msg])%list ->
          (Prompt.tokensOf (Prompt.systemPart messages ++ kept)
           + Prompt.estimateTokens (Prompt.content msg) > Prompt.orDefault maxTokens)%Z).
Proof.
  unfold Prompt.limitMessagesByTokens, Prompt.systemPart.
  set (nonSystem := filter (fun msg => negb (Prompt.isSystem msg)) messages).
  set (sys := match find Prompt.isSystem messages with Some msg => [msg] | None => [] end).
  assert (Hstart : (match find Prompt.isSystem messages with Some _ => 1 | None => 0 end)
                   = List.length sys)
    by (subst sys; destruct (find Prompt.isSystem messages); reflexivity).
  assert (Htotal : (match find Prompt.isSystem messages with
                    | Some msg => Prompt.estimateTokens (Prompt.content msg)
                    | None => 0%Z
                    end) = Prompt.tokensOf sys)
    by (subst sys; destruct (find Prompt.isSystem messages); cbn; lia).
  rewrite Hstart, Htotal.
  destruct (takeNewest_spec (Prompt.orDefault maxTokens) sys (rev nonSystem) []
              (Prompt.tokensOf sys)) as (taken & rest & Hsplit & Hres & Hfit & Hstop).
  rewrite !app_nil_r in Hres.
  exists (rev rest), (rev taken). rewrite Hres.
  split; [rewrite <- rev_app_distr, <- Hsplit; now rewrite rev_involutive|].
  split; [reflexivity|]. rewrite tokensOf_app, tokensOf_rev. split.
  - intros Hne. apply Hfit. intros ->. now apply Hne.
  - intros older msg Hdrop. apply (Hstop msg (rev older)).
    rewrite <- (rev_involutive rest), Hdrop, rev_app_distr. reflexivity.
Qed.

(** X16: [limitMessagesByTokens] returns the first system message, when
    there is one, followed by the newest messages that are not system
    messages, in their order; further system messages are dropped.  The
    cut is as late as the budget allows: the newest message that is
    dropped would have taken the estimate over [maxTokens]. *)
Theorem limitMessagesByTokens_keeps_newest (messages : list Prompt.Message)
    (maxTokens : option Z) :
  exists dropped kept,
    filter (fun msg => negb (Prompt.isSystem msg)) messages = (dropped ++ kept)%list
    /\ Prompt.limitMessagesByTokens messages maxTokens
       = (Prompt.systemPart messages ++ kept)%list
    /\ (forall older msg, dropped = (older ++ [msg])%list ->
          (Prompt.tokensOf (Prompt.limitMessagesByTokens messages maxTokens)
           + Prompt.estimateTokens (Prompt.content msg) > Prompt.orDefault maxTokens)%Z).
Proof.
  destruct (limitMessagesByTokens_cut messages maxTokens)
    as (dropped & kept & Hsplit & Hres & _ & Hstop).
  exists dropped, kept. split; [exact Hsplit|]. split; [exact Hres|].
  rewrite Hres. exact Hstop.
Qed.

(** X17: the result of [limitMessagesByTokens] is within the budget,
    except that the system message is kept whatever it costs: either the
    result is the system message alone (or empty), or its estimate is at
    most [maxTokens].  As every message costs at least one token, the
    result never has more than [maxTokens] messages besides the system
    message. *)
Theorem limitMessagesByTokens_within_budget (messages : list Prompt.Message)
    (maxTokens : option Z) :
  let result := Prompt.limitMessagesByTokens messages maxTokens in
  (result = Prompt.systemPart messages
   \/ (Prompt.tokensOf result <= Prompt.orDefault maxTokens)%Z)
  /\ (Z.of_nat (List.length result) <= 1 + Z.max 0 (Prompt.orDefault maxTokens))%Z.
Proof.
  cbn zeta.
  destruct (limitMessagesByTokens_cut messages maxTokens)
    as (dropped & kept & _ & Hres & Hfit & _).
  rewrite Hres. destruct kept as [|k kept].
  - rewrite app_nil_r. split; [left; reflexivity|].
    unfold Prompt.systemPart.
    destruct (find Prompt.isSystem messages); cbn [List.length]; lia.
  - assert (Hne : k :: kept <> []) by discriminate. specialize (Hfit Hne).
    split; [right; exact Hfit|].
    pose proof (tokensOf_length (Prompt.systemPart messages ++ k :: kept)). lia.
Qed.

Lemma tokensOf_nonneg (a : list Prompt.Message) : (0 <= Prompt.tokensOf a)%Z.
Proof. pose proof (tokensOf_length a). lia. Qed.

(** X18: when the first system message and all the messages that are not
    system messages fit the budget together, [limitMessagesByTokens]
    drops none of them. *)
Theorem limitMessagesByTokens_keeps_all_that_fit (messages : list Prompt.Message)
    (maxTokens : option Z) :
  let nonSystem := filter (fun msg => negb (Prompt.isSystem msg)) messages in
  (Prompt.tokensOf (Prompt.systemPart messages ++ nonSystem)
   <= Prompt.orDefault maxTokens)%Z ->
  Prompt.limitMessagesByTokens messages maxTokens
  = (Prompt.systemPart messages ++ nonSystem)%list.
Proof.
  cbn zeta. intros Hfits.
  destruct (limitMessagesByTokens_cut messages maxTokens)
    as (dropped & kept & Hsplit & Hres & _ & Hstop).
  rewrite Hres, Hsplit. destruct dropped as [|d ds]; [reflexivity|]. exfalso.
  destruct (exists_last (l := d :: ds)) as (older & msg & Hd); [discriminate|].
  specialize (Hstop older msg Hd).
  rewrite Hsplit, Hd in Hfits. rewrite tokensOf_app in Hstop.
  rewrite !tokensOf_app in Hfits. rewrite tokensOf_cons in Hfits. pose proof (tokensOf_nonneg older).
  change (Prompt.tokensOf []) with 0%Z in Hfits. lia.
Qed.

(** X19: a prompt that does not fit the budget beside the system prompt
    is dropped in silence, and the whole history with it: the loop
    starts at the newest message, which is the prompt, and stops at the
    first message that does not fit, so the model is asked with the
    system prompt alone.  When the prompt fits it is the last message of
    the result, after the system prompt and the newest part of the
    history. *)
Theorem overlong_prompt_is_dropped (systemPrompt : string)
    (chatHistory : list Prompt.Message) (prompt : string) (maxTokens : option Z) :
  let budget := match maxTokens with Some m => m | None => 6000%Z end in
  let messages := Prompt.buildPromptWithMemory systemPrompt chatHistory prompt maxTokens in
  ((Prompt.estimateTokens systemPrompt + Prompt.estimateTokens prompt > budget)%Z ->
   messages = [Prompt.mkMessage "system" systemPrompt])
  /\ ((Prompt.estimateTokens systemPrompt + Prompt.estimateTokens prompt <= budget)%Z ->
      exists recent,
        messages = (Prompt.mkMessage "system" systemPrompt :: recent
                      ++ [Prompt.mkMessage "user" prompt])%list
        /\ (Prompt.tokensOf messages <= budget)%Z).
Proof.
  cbn zeta. unfold Prompt.buildPromptWithMemory, Prompt.limitMessagesByTokens.
  set (budget := match maxTokens with Some m => m | None => 6000%Z end).
  set (sys := Prompt.mkMessage "system" systemPrompt).
  set (user := Prompt.mkMessage "user" prompt).
  set (history := map (fun msg => Prompt.mkMessage (Prompt.role msg) (Prompt.content msg))
                      chatHistory).
  cbn [find Prompt.isSystem Prompt.role filter negb Prompt.orDefault Prompt.content].
  change (Prompt.isSystem sys) with true. cbn iota. cbn [negb].
  rewrite filter_app. cbn [filter]. change (Prompt.isSystem user) with false.
  cbn [negb]. rewrite rev_app_distr. cbn [rev app Prompt.takeNewest].
  change (Prompt.content user) with prompt.
  change (Prompt.content sys) with systemPrompt.
  split.
  - intros Hover.
    destruct (Prompt.estimateTokens systemPrompt + Prompt.estimateTokens prompt >? budget)%Z
      eqn:E; [reflexivity|].
    destruct (Z.gtb_spec (Prompt.estimateTokens systemPrompt + Prompt.estimateTokens prompt)
                budget); [discriminate|lia].
  - intros Hfits.
    destruct (Prompt.estimateTokens systemPrompt + Prompt.estimateTokens prompt >? budget)%Z
      eqn:E.
    { destruct (Z.gtb_spec (Prompt.estimateTokens systemPrompt + Prompt.estimateTokens prompt)
                  budget); [lia|discriminate]. }
    change (Prompt.splice 1 user [sys]) with ([sys] ++ [user])%list.
    destruct (takeNewest_spec budget [sys]
                (rev (filter (fun msg => negb (Prompt.isSystem msg)) history)) [user]
                (Prompt.estimateTokens systemPrompt + Prompt.estimateTokens prompt)%Z)
      as (taken & rest & _ & Hres & Hfit & _).
    cbn [List.length] in Hres. rewrite Hres.
    exists (rev taken). split; [reflexivity|].
    cbn [app]. rewrite tokensOf_cons, tokensOf_app, tokensOf_rev, tokensOf_cons.
    change (Prompt.content sys) with systemPrompt.
    change (Prompt.content user) with prompt.
    change (Prompt.tokensOf []) with 0%Z.
    destruct taken as [|t taken]; [cbn; lia|].
    assert (Hne : t :: taken <> []) by discriminate. specialize (Hfit Hne). lia.
Qed.

End MessageLimit.

Lemma overlong_prompt_is_dropped_witness :
  Prompt.buildPromptWithMemory "You are an assistant"
    [Prompt.mkMessage "user" "hello"; Prompt.mkMessage "assistant" "hi there"]
    "please summarise the following report for me" (Some 12%Z)
  = [Prompt.mkMessage "system" "You are an assistant"].
Proof.
  apply (proj1 (overlong_prompt_is_dropped "You are an assistant"
                  [Prompt.mkMessage "user" "hello"; Prompt.mkMessage "assistant" "hi there"]
                  "please summarise the following report for me" (Some 12%Z))).
  vm_compute. reflexivity.
Defined.

Lemma limitMessagesByTokens_keeps_all_that_fit_witness :
  Prompt.limitMessagesByTokens
    [Prompt.mkMessage "user" "list my files";
     Prompt.mkMessage "system" "You are an assistant with terminal access";
     Prompt.mkMessage "assistant" "Here they are";
     Prompt.mkMessage "system" "a second system message";
     Prompt.mkMessage "user" "thanks"] None
  = [Prompt.mkMessage "system" "You are an assistant with terminal access";
     Prompt.mkMessage "user" "list my files";
     Prompt.mkMessage "assistant" "Here they are";
     Prompt.mkMessage "user" "thanks"].
Proof.
  apply (limitMessagesByTokens_keeps_all_that_fit
           [Prompt.mkMessage "user" "list my files";
            Prompt.mkMessage "system" "You are an assistant with terminal access";
            Prompt.mkMessage "assistant" "Here they are";
            Prompt.mkMessage "system" "a second system message";
            Prompt.mkMessage "user" "thanks"] None).
  vm_compute. discriminate.
Defined.

(* ================================================================== *)
(** * Retry with exponential backoff *)
(* ================================================================== *)

Section Backoff.

Context {A E : Type}.
Variable fn : Z -> A + E.
Variable maxRetries baseDelay : Z.

Lemma retryLoop_turn (remaining : nat) (from : Z) (lastError : option E) :
  Retry.retryLoop fn maxRetries baseDelay (S remaining) from lastError
  = if (from <? maxRetries)%Z then
      match fn from with
      | inl value => (Retry.Resolved value, [Retry.Call from])
      | inr error =>
          if (from =? maxRetries - 1)%Z
          then (Retry.Rejected (Some error), [Retry.Call from])
          else
            let (settled, actions) :=
              Retry.retryLoop fn maxRetries baseDelay remaining (from + 1)%Z
                              (Some error) in
            (settled,
             Retry.Call from :: Retry.Sleep (baseDelay * 2 ^ from)%Z :: actions)
      end
    else (Retry.Rejected lastError, []).
Proof. reflexivity. Qed.

(** The attempts [from .. from + n - 1] fail and attempt [from + n]
    decides: it succeeds, or it is the last one allowed. *)
Lemma retryLoop_decided (n extra : nat) (from : Z) (lastError : option E) :
  (0 <= from)%Z ->
  (from + Z.of_nat n < maxRetries)%Z ->
  (forall i, (from <= i < from + Z.of_nat n)%Z -> exists e, fn i = inr e) ->
  Retry.retryLoop fn maxRetries baseDelay (S (n + extra)) from lastError
  = (match fn (from + Z.of_nat n)%Z with
     | inl value => Retry.Resolved value
     | inr error =>
         if (from + Z.of_nat n =? maxRetries - 1)%Z
         then Retry.Rejected (Some error)
         else fst (Retry.retryLoop fn maxRetries baseDelay extra
                     (from + Z.of_nat n + 1)%Z (Some error))
     end,
     (Retry.failedAttempts baseDelay from n
        ++ match fn (from + Z.of_nat n)%Z with
           | inl _ => [Retry.Call (from + Z.of_nat n)%Z]
           | inr error =>
               if (from + Z.of_nat n =? maxRetries - 1)%Z
               then [Retry.Call (from + Z.of_nat n)%Z]
               else Retry.Call (from + Z.of_nat n)%Z
                      :: Retry.Sleep (baseDelay * 2 ^ (from + Z.of_nat n))%Z
                      :: snd (Retry.retryLoop fn maxRetries baseDelay extra
                                (from + Z.of_nat n + 1)%Z (Some error))
           end)%list).
Proof.
  revert from lastError.
  induction n as [|n IH]; intros from lastError Hfrom Hlt Hfail.
  - rewrite retryLoop_turn. cbn [Nat.add].
    replace (from + Z.of_nat 0)%Z with from in * by lia.
    destruct (from <? maxRetries)%Z eqn:Et; [|apply Z.ltb_ge in Et; lia].
    cbn [Retry.failedAttempts app].
    destruct (fn from) as [value|error]; [reflexivity|].
    destruct (from =? maxRetries - 1)%Z; [reflexivity|].
    destruct (Retry.retryLoop fn maxRetries baseDelay extra (from + 1) (Some error)).
    reflexivity.
  - rewrite retryLoop_turn. cbn [Nat.add].
    destruct (from <? maxRetries)%Z eqn:Et; [|apply Z.ltb_ge in Et; lia].
    destruct (Hfail from) as [e He]; [lia|]. rewrite He.
    destruct (from =? maxRetries - 1)%Z eqn:El; [apply Z.eqb_eq in El; lia|].
    rewrite (IH (from + 1)%Z (Some e)); try lia.
    2:{ intros i Hi. apply Hfail. lia. }
    replace (from + 1 + Z.of_nat n)%Z with (from + Z.of_nat (S n))%Z by lia.
    cbn [Retry.failedAttempts app]. reflexivity.
Qed.

Lemma waited_failedAttempts (from : Z) (n : nat) (rest : list Retry.Action) :
  (0 <= from)%Z ->
  Retry.waited (Retry.failedAttempts baseDelay from n ++ rest)%list
  = (baseDelay * (2 ^ (from + Z.of_nat n) - 2 ^ from) + Retry.waited rest)%Z.
Proof.
  revert from. induction n as [|n IH]; intros from Hfrom.
  - cbn [Retry.failedAttempts app]. replace (from + Z.of_nat 0)%Z with from by lia. lia.
  - cbn [Retry.failedAttempts app Retry.waited]. rewrite IH by lia.
    replace (from + 1 + Z.of_nat n)%Z with (from + Z.of_nat (S n))%Z by lia.
    rewrite (Z.pow_add_r 2 from 1) by lia. lia.
Qed.

Lemma callsOf_failedAttempts (from : Z) (n : nat) (rest : list Retry.Action) :
  Retry.callsOf (Retry.failedAttempts baseDelay from n ++ rest)%list
  = (n + Retry.callsOf rest)%nat.
Proof.
  revert from. induction n as [|n IH]; intros from; cbn; [reflexivity|].
  now rewrite IH.
Qed.

End Backoff.

Section RetryOutcomes.

Context {A E : Type}.
Variable fn : Z -> A + E.
Variable maxRetries baseDelay : option Z.

(** X20: [retryWithBackoff] returns the value of the first attempt that
    succeeds.  When the attempts before attempt [k] fail and attempt [k]
    succeeds, with [k] below [maxRetries], [fn] is called [k + 1] times
    and no more, each failure is followed by a wait of [baseDelay]
    doubled once more (1000, 2000, 4000 ms, ...), and the waits add up
    to [baseDelay * (2^k - 1)]. *)
Theorem retry_returns_first_success (k : nat) (value : A) :
  (Z.of_nat k < Retry.retriesOf maxRetries)%Z ->
  (forall i, (0 <= i < Z.of_nat k)%Z -> exists e, fn i = inr e) ->
  fn (Z.of_nat k) = inl value ->
  let run := Retry.retryWithBackoff fn maxRetries baseDelay in
  run = (Retry.Resolved value,
         (Retry.failedAttempts (Retry.baseOf baseDelay) 0 k
            ++ [Retry.Call (Z.of_nat k)])%list)
  /\ Retry.callsOf (snd run) = S k
  /\ Retry.waited (snd run) = (Retry.baseOf baseDelay * (2 ^ Z.of_nat k - 1))%Z.
Proof.
  intros Hk Hfail Hok. cbn zeta.
  assert (Hrun : Retry.retryWithBackoff fn maxRetries baseDelay
                 = (Retry.Resolved value,
                    (Retry.failedAttempts (Retry.baseOf baseDelay) 0 k
                       ++ [Retry.Call (Z.of_nat k)])%list)).
  { unfold Retry.retryWithBackoff.
    replace (Z.to_nat (Retry.retriesOf maxRetries))
      with (S (k + (Z.to_nat (Retry.retriesOf maxRetries) - S k)))%nat by lia.
    rewrite (retryLoop_decided fn _ _ k); [|lia|lia|intros i Hi; apply Hfail; lia].
    cbn [Z.add]. now rewrite Hok. }
  rewrite Hrun. cbn [snd]. split; [reflexivity|]. split.
  - rewrite callsOf_failedAttempts. cbn. lia.
  - rewrite waited_failedAttempts by lia. cbn [Retry.waited]. cbn [Z.add]. 
    change (2 ^ 0)%Z with 1%Z. lia.
Qed.

(** X21: [retryWithBackoff] gives up with the error of the last attempt.
    When all [maxRetries] attempts fail, [fn] has been called
    [maxRetries] times, the promise is rejected with what the last call
    threw, and there is no wait after the last failure: the waits add up
    to [baseDelay * (2^(maxRetries - 1) - 1)], 3000 ms with the
    defaults. *)
Theorem retry_gives_up_with_last_error (error : E) :
  let n := Retry.retriesOf maxRetries in
  (1 <= n)%Z ->
  (forall i, (0 <= i < n - 1)%Z -> exists e, fn i = inr e) ->
  fn (n - 1)%Z = inr error ->
  let run := Retry.retryWithBackoff fn maxRetries baseDelay in
  run = (Retry.Rejected (Some error),
         (Retry.failedAttempts (Retry.baseOf baseDelay) 0 (Z.to_nat (n - 1))
            ++ [Retry.Call (n - 1)%Z])%list)
  /\ Retry.callsOf (snd run) = Z.to_nat n
  /\ Retry.waited (snd run) = (Retry.baseOf baseDelay * (2 ^ (n - 1) - 1))%Z.
Proof.
  cbn zeta. intros Hn Hfail Hlast.
  set (n := Retry.retriesOf maxRetries) in *.
  assert (Hrun : Retry.retryWithBackoff fn maxRetries baseDelay
                 = (Retry.Rejected (Some error),
                    (Retry.failedAttempts (Retry.baseOf baseDelay) 0 (Z.to_nat (n - 1))
                       ++ [Retry.Call (n - 1)%Z])%list)).
  { unfold Retry.retryWithBackoff. fold n.
    replace (Z.to_nat n) with (S (Z.to_nat (n - 1) + 0))%nat by lia.
    rewrite (retryLoop_decided fn _ _ (Z.to_nat (n - 1))); [|lia|lia|intros i Hi; apply Hfail; lia].
    replace (0 + Z.of_nat (Z.to_nat (n - 1)))%Z with (n - 1)%Z by lia.
    rewrite Hlast, Z.eqb_refl. reflexivity. }
  rewrite Hrun. cbn [snd]. split; [reflexivity|]. split.
  - rewrite callsOf_failedAttempts. cbn [Retry.callsOf]. lia.
  - rewrite waited_failedAttempts by lia. cbn [Retry.waited].
    replace (0 + Z.of_nat (Z.to_nat (n - 1)))%Z with (n - 1)%Z by lia.
    change (2 ^ 0)%Z with 1%Z. lia.
Qed.

(** X22: with [maxRetries] at 0 or below, [retryWithBackoff] never calls
    [fn]: the loop makes no turn and the promise is rejected with
    [undefined], the value [lastError] was never given. *)
Theorem retry_without_attempts_rejects_undefined :
  (Retry.retriesOf maxRetries <= 0)%Z ->
  Retry.retryWithBackoff fn maxRetries baseDelay = (Retry.Rejected None, []).
Proof.
  intros Hn. unfold Retry.retryWithBackoff.
  replace (Z.to_nat (Retry.retriesOf maxRetries)) with 0%nat by lia. reflexivity.
Qed.

End RetryOutcomes.

Lemma retry_returns_first_success_witness :
  Retry.retryWithBackoff
    (fun attempt => if (attempt <? 2)%Z then inr "ECONNRESET" else inl "pong") None None
  = (Retry.Resolved "pong",
     [Retry.Call 0; Retry.Sleep 1000; Retry.Call 1; Retry.Sleep 2000; Retry.Call 2]).
Proof.
  refine (proj1 (retry_returns_first_success
                   (fun attempt => if (attempt <? 2)%Z then inr "ECONNRESET" else inl "pong")
                   None None 2 "pong" _ _ _)).
  - reflexivity.
  - intros i Hi. exists "ECONNRESET". destruct (i <? 2)%Z eqn:E; [reflexivity|].
    apply Z.ltb_ge in E. cbn in Hi. lia.
  - reflexivity.
Defined.

Lemma retry_gives_up_with_last_error_witness :
  Retry.retryWithBackoff (A := string)
    (fun attempt => inr ("failure " ++ Z_to_string attempt)) None None
  = (Retry.Rejected (Some "failure 2"),
     [Retry.Call 0; Retry.Sleep 1000; Retry.Call 1; Retry.Sleep 2000; Retry.Call 2]).
Proof.
  refine (proj1 (retry_gives_up_with_last_error (A := string)
                   (fun attempt => inr ("failure " ++ Z_to_string attempt))
                   None None "failure 2" _ _ _)).
  - unfold Retry.retriesOf, Retry.MAX_RETRIES. lia.
  - intros i _. eexists. reflexivity.
  - reflexivity.
Defined.

Lemma retry_without_attempts_rejects_undefined_witness :
  Retry.retryWithBackoff (A := string) (E := string)
    (fun _ => inl "never asked") (Some 0%Z) None
  = (Retry.Rejected None, []).
Proof.
  apply retry_without_attempts_rejects_undefined. unfold Retry.retriesOf. lia.
Defined.

(* ================================================================== *)
(** * The report of the terminal operations *)
(* ================================================================== *)

Section ReportCap.

Lemma utf16Length_append (a b : string) :
  Prompt.utf16Length (a ++ b) = Prompt.utf16Length a + Prompt.utf16Length b.
Proof. induction a as [|c a IH]; cbn; [reflexivity|]. rewrite IH. lia. Qed.

Lemma append_empty_r (s : string) : s ++ EmptyString = s.
Proof. induction s as [|c s IH]; cbn; [reflexivity|]. now rewrite IH. Qed.

Lemma codeUnits_continuation (k : nat) :
  128 <= k < 192 -> Prompt.codeUnits (ascii_of_nat k) = 0.
Proof.
  intros Hk. unfold Prompt.codeUnits. rewrite nat_ascii_embedding by lia.
  destruct (k <? 128)%nat eqn:E1; [apply Nat.ltb_lt in E1; lia|].
  destruct (k <? 192)%nat eqn:E2; [reflexivity|apply Nat.ltb_ge in E2; lia].
Qed.

Lemma utf16Length_highSurrogate (lead : ascii) (rest : string) :
  Prompt.utf16Length (Report.highSurrogate lead rest) <= 1.
Proof.
  unfold Report.highSurrogate. destruct rest as [|b1 [|b2 rest]]; cbn [Prompt.utf16Length];
    try lia.
  cbn zeta. set (top := _ / 16 - 64).
  pose proof (Nat.mod_upper_bound (top / 64) 16 ltac:(lia)) as H1.
  pose proof (Nat.mod_upper_bound top 64 ltac:(lia)) as H2.
  unfold bytes. cbn [fold_right Prompt.utf16Length].
  rewrite (codeUnits_continuation (160 + (top / 64) mod 16)) by lia.
  rewrite (codeUnits_continuation (128 + top mod 64)) by lia.
  change (Prompt.codeUnits (ascii_of_nat 237)) with 1. lia.
Qed.

Lemma utf16Length_sliceUnits (n : nat) (s : string) :
  Prompt.utf16Length (Report.sliceUnits n s) <= n.
Proof.
  revert n. induction s as [|c s IH]; intros n; cbn [Report.sliceUnits]; [cbn; lia|].
  destruct (Prompt.codeUnits c) as [|[|k]] eqn:Ec.
  - cbn [Prompt.utf16Length]. rewrite Ec. apply IH.
  - destruct n as [|n]; [cbn; lia|]. cbn [Prompt.utf16Length]. rewrite Ec.
    specialize (IH n). lia.
  - destruct n as [|[|n]]; [cbn; lia|apply utf16Length_highSurrogate|].
    cbn [Prompt.utf16Length]. rewrite Ec.
    assert (Hk : k = 0).
    { unfold Prompt.codeUnits in Ec.
      destruct (nat_of_ascii c <? 128)%nat; [discriminate|].
      destruct (nat_of_ascii c <? 192)%nat; [discriminate|].
      destruct (nat_of_ascii c <? 240)%nat; [discriminate|]. now injection Ec. }
    subst k. specialize (IH n). lia.
Qed.

Lemma sliceUnits_whole (n : nat) (s : string) :
  Prompt.utf16Length s <= n -> Report.sliceUnits n s = s.
Proof.
  revert n. induction s as [|c s IH]; intros n; cbn [Report.sliceUnits Prompt.utf16Length];
    [reflexivity|].
  destruct (Prompt.codeUnits c) as [|[|k]] eqn:Ec; intros Hn.
  - now rewrite IH.
  - destruct n as [|n]; [lia|]. rewrite IH by lia. reflexivity.
  - destruct n as [|[|n]]; try lia. rewrite IH by lia. reflexivity.
Qed.

(** X23: the report shows at most 2000 code units of the output of a
    command, and at most 1000 of its error text.  A text within the
    limit is shown whole and unmarked; a longer one is cut at the limit
    and followed by "... (truncated)" on a line of its own. *)
Theorem report_cuts_long_output (limit : nat) (text : string) :
  (Prompt.utf16Length text <= limit -> Report.shown limit text = text)
  /\ (limit < Prompt.utf16Length text ->
      Report.shown limit text
      = Report.sliceUnits limit text ++ Report.newline ++ "... (truncated)"
      /\ Prompt.utf16Length (Report.shown limit text) <= limit + 16)
  /\ Prompt.utf16Length (Report.sliceUnits limit text) <= limit.
Proof.
  unfold Report.shown. split; [|split].
  - intros Hfit. destruct (limit <? Prompt.utf16Length text)%nat eqn:E;
      [apply Nat.ltb_lt in E; lia|].
    rewrite sliceUnits_whole by exact Hfit. apply append_empty_r.
  - intros Hlong. destruct (limit <? Prompt.utf16Length text)%nat eqn:E;
      [|apply Nat.ltb_ge in E; lia].
    split; [reflexivity|]. rewrite utf16Length_append.
    pose proof (utf16Length_sliceUnits limit text).
    change (Prompt.utf16Length (Report.newline ++ "... (truncated)")) with 16. lia.
  - apply utf16Length_sliceUnits.
Qed.

End ReportCap.

Section ReportedStreams.

Variable env : Env.

(** X24: the report shows one stream of a result: the output of a success
    and the error text of a failure.  So the reason of a failed [kill]
    never reaches the reply: [killProcess] answers in [stdout], the
    result is a failure with an empty [stderr], and its entry in the
    report is the exit code -1 and the working directory, nothing
    else.  In the same way what a successful command wrote to [stderr]
    is not reported. *)
Theorem failed_kill_reason_is_not_reported (id : string) (w : World) (index : nat) :
  nonEmpty id = true ->
  Registry.get id (activeProcesses w) = None ->
  (exists r,
     dispatchOperation env (JStr "kill") (JObj [("processId", JStr id)]) w = (w, Ok r)
     /\ stdout r = CROSS_MARK ++ " Process " ++ id ++ " not found or already terminated"
     /\ Report.termResultReport index r
        = Report.newline ++ "**Command " ++ N_to_string (N.of_nat (index + 1))
            ++ "** (0ms):" ++ Report.newline
            ++ CROSS_MARK ++ " Exit Code: -1" ++ Report.newline
            ++ Report.FOLDER ++ " **Working Directory:** " ++ TERMINAL_BASE_DIR env
            ++ Report.newline)
  /\ (forall r text,
        success r = false ->
        Report.termResultReport index
          (mkResult (success r) text (stderr r) (exitCode r) (executionTime r)
                    (processId r) (workingDir r))
        = Report.termResultReport index r)
  /\ (forall r text,
        success r = true ->
        Report.termResultReport index
          (mkResult (success r) (stdout r) text (exitCode r) (executionTime r)
                    (processId r) (workingDir r))
        = Report.termResultReport index r).
Proof.
  intros Hne Hget. split; [|split].
  - unfold dispatchOperation. cbn [toLowerCase fieldsOf].
    change (String.eqb (toLowerCase "kill") "execute") with false.
    change (String.eqb (toLowerCase "kill") "interactive") with false.
    change (String.eqb (toLowerCase "kill") "kill") with true.
    cbn iota.
    assert (Hf : Js.whenTruthy (Js.getField "processId" [("processId", JStr id)])
                 = Some (JStr id)).
    { unfold Js.whenTruthy. cbn. now rewrite Hne. }
    rewrite Hf. unfold killProcess. rewrite Hget, includes_prefix.
    eexists. split; [reflexivity|]. split; [reflexivity|].
    unfold Report.termResultReport. cbn [success stderr exitCode executionTime
      workingDir nonEmpty Js.toString]. reflexivity.
  - intros r text Hs. unfold Report.termResultReport.
    cbn [success stdout stderr exitCode executionTime workingDir]. now rewrite Hs.
  - intros r text Hs. unfold Report.termResultReport.
    cbn [success stdout stderr exitCode executionTime workingDir]. now rewrite Hs.
Qed.

End ReportedStreams.

Lemma failed_kill_reason_is_not_reported_witness :
  exists r,
    dispatchOperation echoEnv (JStr "kill") (JObj [("processId", JStr "proc_7")])
      emptyWorld = (emptyWorld, Ok r)
    /\ includes (stdout r) "proc_7" = true
    /\ includes (Report.finalResponse (Report.mkAIResponse "Stopping it." [r] false 3))
                "proc_7" = false.
Proof.
  destruct (failed_kill_reason_is_not_reported echoEnv "proc_7" emptyWorld 0
              eq_refl eq_refl) as ((r & Hrun & Hout & Hrep) & _).
  exists r. split; [exact Hrun|]. split; [rewrite Hout; reflexivity|].
  unfold Report.finalResponse. cbn [Report.terminalResults Report.termResultsReport
    Report.reply Report.memoryUpdated Report.executionTime].
  rewrite Hrep. vm_compute. reflexivity.
Defined.

(* ================================================================== *)
(** * The command executor of [commands.ts] *)
(* ================================================================== *)

Section History.

Lemma slice_from_end {A : Type} (k : nat) (l : list A) :
  (0 < k)%nat ->
  Unified.slice (- Z.of_nat k) l = skipn (List.length l - k) l.
Proof.
  intros Hk. unfold Unified.slice.
  destruct (- Z.of_nat k <? 0)%Z eqn:E; [|apply Z.ltb_ge in E; lia].
  f_equal. lia.
Qed.

Lemma skipn_append_last {A : Type} (n : nat) (l : list A) (x : A) :
  (n <= List.length l)%nat -> skipn n (l ++ [x])%list = (skipn n l ++ [x])%list.
Proof.
  intros Hn. rewrite skipn_app. replace (n - List.length l)%nat with 0%nat by lia.
  reflexivity.
Qed.

(** X25: the history never holds more than 1000 results, and it loses
    them from the old end only: after [addToHistory] the history is the
    old one with the new result at its end, cut to its last 1000
    entries; nothing is dropped while there is room. *)
Theorem addToHistory_keeps_the_newest (result : Commands.CommandResult)
    (commandHistory : list Commands.CommandResult) :
  let after := Unified.addToHistory result commandHistory in
  (List.length after <= Unified.maxHistorySize)%nat
  /\ (exists dropped kept,
        commandHistory = (dropped ++ kept)%list
        /\ after = (kept ++ [result])%list
        /\ List.length dropped
           = (S (List.length commandHistory) - Unified.maxHistorySize)%nat)
  /\ last after result = result.
Proof.
  cbn zeta. unfold Unified.addToHistory.
  set (cap := Unified.maxHistorySize).
  assert (Hcap : (0 < cap)%nat) by (subst cap; unfold Unified.maxHistorySize; lia).
  destruct (cap <? List.length (commandHistory ++ [result]))%nat eqn:E.
  - apply Nat.ltb_lt in E. rewrite length_app in E. cbn [List.length] in E.
    rewrite slice_from_end by exact Hcap.
    rewrite length_app. cbn [List.length].
    rewrite skipn_append_last by lia.
    split; [rewrite length_app, length_skipn; cbn [List.length]; lia|].
    split; [|apply last_last].
    exists (firstn (List.length commandHistory + 1 - cap) commandHistory),
           (skipn (List.length commandHistory + 1 - cap) commandHistory).
    split; [now rewrite firstn_skipn|]. split; [reflexivity|].
    rewrite length_firstn. lia.
  - apply Nat.ltb_ge in E. split; [exact E|]. split; [|apply last_last].
    rewrite length_app in E. cbn [List.length] in E.
    exists [], commandHistory. split; [reflexivity|]. split; [reflexivity|].
    cbn [List.length]. lia.
Qed.

(** X26: [getHistory(limit)] returns the last [limit] results for a
    positive [limit] (all of them when there are fewer), and the last 10
    without an argument.  With 0 it returns the whole history, since
    [slice(-0)] is [slice(0)], and with a negative [limit] it drops the
    oldest [-limit] results instead. *)
Theorem getHistory_limits (commandHistory : list Commands.CommandResult) :
  (forall n, (0 < n)%nat ->
     exists older,
       commandHistory = (older ++ Unified.getHistory (Some (Z.of_nat n)) commandHistory)%list
       /\ List.length (Unified.getHistory (Some (Z.of_nat n)) commandHistory)
          = Nat.min n (List.length commandHistory))
  /\ Unified.getHistory None commandHistory
     = Unified.getHistory (Some 10%Z) commandHistory
  /\ Unified.getHistory (Some 0%Z) commandHistory = commandHistory
  /\ (forall n, Unified.getHistory (Some (- Z.of_nat n)%Z) commandHistory
                = skipn n commandHistory).
Proof.
  split; [|split; [reflexivity|split]].
  2:{ unfold Unified.getHistory, Unified.slice. cbn [Z.opp Z.ltb Z.compare].
      replace (Z.to_nat (Z.min 0 (Z.of_nat (List.length commandHistory)))) with 0%nat
        by lia.
      reflexivity. }
  - intros n Hn. unfold Unified.getHistory. rewrite slice_from_end by exact Hn.
    exists (firstn (List.length commandHistory - n) commandHistory).
    split; [now rewrite firstn_skipn|]. rewrite length_skipn. lia.
  - intros n. unfold Unified.getHistory, Unified.slice. rewrite Z.opp_involutive.
    destruct (Z.of_nat n <? 0)%Z eqn:E; [apply Z.ltb_lt in E; lia|].
    destruct (Nat.le_gt_cases n (List.length commandHistory)) as [Hle|Hgt].
    + f_equal. lia.
    + rewrite (skipn_all2 (n := n)) by lia. apply skipn_all2. lia.
Qed.

End History.

Section ExecutorMethods.

Variable pf : Unified.Platform.

(** X27: [killProcess] of the executor sends SIGTERM once and forgets the
    process.  It succeeds exactly when the id is registered and
    [kill] does not throw; then the entry is deleted (an id that was
    killed is no longer listed), the other entries keep their places and
    the child has been sent one signal.  When the id is unknown or
    [kill] throws, the result is a failure and nothing changes: an
    entry whose [kill] threw stays registered.  The history is never
    touched. *)
Theorem executor_killProcess_outcomes (processId : string) (s : Unified.State) :
  let s' := fst (Unified.killProcess pf processId s) in
  let result := snd (Unified.killProcess pf processId s) in
  Unified.commandHistory s' = Unified.commandHistory s
  /\ Commands.command result = "kill " ++ processId
  /\ (Commands.success result = true
      <-> exists child, Registry.get processId (Unified.runningProcesses s) = Some child
                        /\ Unified.killThrows pf child = None)
  /\ (Commands.success result = false -> s' = s)
  /\ (forall child,
        Registry.get processId (Unified.runningProcesses s) = Some child ->
        Unified.killThrows pf child = None ->
        Unified.runningProcesses s'
        = Registry.delete processId (Unified.runningProcesses s)
        /\ ~ In processId (Unified.listProcesses s')
        /\ Unified.signalled s' = (Unified.signalled s ++ [child])%list)
  /\ (Registry.get processId (Unified.runningProcesses s) = None ->
      Commands.error result = Some ("Process " ++ processId ++ " not found")).
Proof.
  cbn zeta. unfold Unified.killProcess.
  destruct (Registry.get processId (Unified.runningProcesses s)) as [child|] eqn:Hget.
  - destruct (Unified.killThrows pf child) as [e|] eqn:Hk; cbn [fst snd].
    + split; [reflexivity|]. split; [reflexivity|]. split.
      * split; [discriminate|]. intros (c & [= <-] & Hc). congruence.
      * split; [reflexivity|]. split; [|discriminate].
        intros c [= <-] Hc. congruence.
    + split; [reflexivity|]. split; [reflexivity|]. split.
      * split; [eauto|reflexivity].
      * split; [discriminate|]. split; [|discriminate].
        intros c [= <-] _. unfold Unified.listProcesses, Unified.runningProcesses.
        cbn. split; [reflexivity|]. split; [apply keys_delete|reflexivity].
  - cbn [fst snd]. split; [reflexivity|]. split; [reflexivity|]. split.
    + split; [discriminate|]. intros (c & [=] & _).
    + split; [reflexivity|]. split; [discriminate|reflexivity].
Qed.

(** X28: [execute] records in the history what it has awaited itself.  A
    command run in the standard way is recorded, whether it succeeds or
    fails, with the result that is returned.  A command started in the
    background or run interactively is returned from inside the [try]
    and is never recorded when its launch goes through; only a launch
    that throws ends in the history, as a failure. *)
Theorem execute_records_standard_runs (commandText : string)
    (options : Unified.CommandOptions) (s : Unified.State) :
  let s' := fst (Unified.execute pf commandText options s) in
  let result := snd (Unified.execute pf commandText options s) in
  let inBackground := match Unified.background options with Some b => b | None => false end in
  let isInteractive := match Unified.interactive options with Some b => b | None => false end in
  (inBackground = false -> isInteractive = false ->
   Unified.commandHistory s' = Unified.addToHistory result (Unified.commandHistory s))
  /\ (inBackground = true \/ isInteractive = true ->
      Unified.commandHistory s' = Unified.commandHistory s
      \/ (Unified.commandHistory s'
          = Unified.addToHistory result (Unified.commandHistory s)
          /\ Commands.success result = false))
  /\ (inBackground = true \/ isInteractive = true ->
      Commands.success result = true ->
      Unified.commandHistory s' = Unified.commandHistory s)
  /\ Unified.calls s' = S (Unified.calls s).
Proof.
  cbn zeta. unfold Unified.execute.
  destruct (match Unified.background options with Some b => b | None => false end) eqn:Hbg.
  - match goal with
    | |- context [Commands.executeBackground ?o ?x ?c ?d ?sh ?ex] =>
        destruct (Commands.executeBackground o x c d sh ex) as [x1 [r|e]]
    end; cbn [fst snd Unified.finish Unified.withExecutor Unified.commandHistory
              Unified.calls Commands.success].
    + split; [discriminate|]. split; [auto|]. split; [auto|reflexivity].
    + split; [discriminate|]. split; [auto|]. split; [discriminate|reflexivity].
  - destruct (match Unified.interactive options with Some b => b | None => false end)
      eqn:Hia.
    + match goal with
      | |- context [Unified.executeInteractive pf ?c ?d ?v ?st] =>
          assert (Hia_frame :
                    Unified.commandHistory (fst (Unified.executeInteractive pf c d v st))
                    = Unified.commandHistory s
                    /\ Unified.calls (fst (Unified.executeInteractive pf c d v st))
                       = S (Unified.calls s))
            by (unfold Unified.executeInteractive;
                destruct (Unified.spawnInherit pf _ _); split; reflexivity);
          destruct (Unified.executeInteractive pf c d v st) as [s1 [r|failure]]
      end; cbn [fst snd] in *; destruct Hia_frame as [Hh Hc].
      * split; [discriminate|]. split; [auto|]. split; [auto|exact Hc].
      * cbn [Unified.finish fst snd Unified.commandHistory Unified.calls
             Commands.success].
        rewrite Hh. split; [discriminate|]. split; [auto|].
        split; [discriminate|exact Hc].
    + split.
      * intros _ _. destruct (Unified.execAsync pf _ _); reflexivity.
      * split; [intros [H|H]; discriminate H|].
        split; [intros [H|H]; discriminate H|].
        destruct (Unified.execAsync pf _ _); reflexivity.
Qed.

Lemma execute_command_field (commandText : string) (options : Unified.CommandOptions)
    (s : Unified.State) :
  Commands.command (snd (Unified.execute pf commandText options s))
  = Unified.finalCommandOf options commandText.
Proof.
  unfold Unified.execute, Unified.finalCommandOf.
  destruct (match Unified.background options with Some b => b | None => false end).
  - unfold Commands.executeBackground.
    destruct (Unified.spawnDetached pf _ _); reflexivity.
  - destruct (match Unified.interactive options with Some b => b | None => false end).
    + unfold Unified.executeInteractive.
      destruct (Unified.spawnInherit pf _ _); reflexivity.
    + destruct (Unified.execAsync pf _ _); reflexivity.
Qed.


Lemma execute_calls (commandText : string) (options : Unified.CommandOptions)
    (s : Unified.State) :
  Unified.calls (fst (Unified.execute pf commandText options s)) = S (Unified.calls s).
Proof.
  unfold Unified.execute.
  destruct (match Unified.background options with Some b => b | None => false end).
  - match goal with
    | |- context [Commands.executeBackground ?o ?x ?c ?d ?sh ?ex] =>
        destruct (Commands.executeBackground o x c d sh ex) as [x1 [r|e]]
    end; reflexivity.
  - destruct (match Unified.interactive options with Some b => b | None => false end).
    + unfold Unified.executeInteractive.
      destruct (Unified.spawnInherit pf _ _); reflexivity.
    + destruct (Unified.execAsync pf _ _); reflexivity.
Qed.

(** X30: [executeSequence] runs the commands in order and stops after the
    first failure: the results are those of a leading part of the list,
    one call of [execute] each; every result but the last is a success,
    and when a command is left out the last result is a failure.  With
    [continueOnError] every command is run whatever fails. *)
Theorem executeSequence_stops_at_first_failure (commands : list string)
    (options : Unified.CommandOptions) (s : Unified.State) :
  let s' := fst (Unified.executeSequence pf commands options s) in
  let results := snd (Unified.executeSequence pf commands options s) in
  let goOn := match Unified.continueOnError options with Some b => b | None => false end in
  map Commands.command results
  = map (Unified.finalCommandOf options) (firstn (List.length results) commands)
  /\ Unified.calls s' = (Unified.calls s + List.length results)%nat
  /\ (goOn = true -> List.length results = List.length commands)
  /\ (goOn = false ->
      (forall older result newer,
         results = (older ++ result :: newer)%list -> newer <> [] ->
         Commands.success result = true)
      /\ ((List.length results < List.length commands)%nat ->
          exists older result,
            results = (older ++ [result])%list /\ Commands.success result = false)).
Proof.
  cbn zeta. revert s. induction commands as [|c rest IH]; intros s.
  - cbn. split; [reflexivity|]. split; [lia|]. split; [reflexivity|].
    intros _. split; [|lia]. intros [|? ?] ? ? H; discriminate H.
  - cbn [Unified.executeSequence].
    pose proof (execute_command_field c options s) as Hcmd.
    pose proof (execute_calls c options s) as Hcalls.
    destruct (Unified.execute pf c options s) as [s1 r]. cbn [fst snd] in Hcmd, Hcalls.
    destruct (Commands.success r) eqn:Hs; cbn [negb andb].
    + specialize (IH s1).
      destruct (Unified.executeSequence pf rest options s1) as [s2 rs].
      cbn [fst snd] in *. destruct IH as (Hmap & Hc & Hall & Hstop).
      cbn [List.length firstn map]. split; [now rewrite Hcmd, Hmap|].
      split; [lia|]. split; [intros H; now rewrite (Hall H)|].
      intros Hgo. destruct (Hstop Hgo) as [Hbefore Hlast]. split.
      * intros [|o older] result newer Heq Hne.
        -- cbn in Heq. injection Heq as <- _. exact Hs.
        -- cbn in Heq. injection Heq as _ Heq. exact (Hbefore older result newer Heq Hne).
      * intros Hlen. destruct Hlast as (older & result & -> & Hf); [lia|].
        exists (r :: older), result. auto.
    + destruct (match Unified.continueOnError options with Some b => b | None => false end)
        eqn:Hgo; cbn [negb].
      * specialize (IH s1).
        destruct (Unified.executeSequence pf rest options s1) as [s2 rs].
        cbn [fst snd] in *. destruct IH as (Hmap & Hc & Hall & _).
        cbn [List.length firstn map]. split; [now rewrite Hcmd, Hmap|].
        split; [lia|]. split; [intros _; now rewrite (Hall eq_refl)|discriminate].
      * cbn [fst snd List.length firstn map]. split; [now rewrite Hcmd|].
        split; [lia|]. split; [discriminate|]. intros _. split.
        -- intros [|o [|? ?]] result newer Heq Hne; cbn in Heq; try discriminate Heq.
           injection Heq as _ <-. now contradiction Hne.
        -- intros _. exists [], r. auto.
Qed.

End ExecutorMethods.

